(** * Skia: the small-path renderer and the transfer-function checks

    A shallow embedding of

      - [src/core/SkColorSpacePriv.h]: the parametric transfer-function
        validity check and the table of named gamma curves;
      - [src/gpu/ops/GrSmallPathRenderer.cpp]: the eviction callback, the
        eligibility predicate, the choice of the distance-field
        resolution, the atlas insertion with its flush-and-retry, the
        chunked flush and the op-combining test.

    The transfer-function code depends on how [1.0f + FLT_MIN] rounds, so
    it is modelled on IEEE-754 binary32 values ([spec_float] with 24 bits
    of precision).  The structures of the path renderer, its loops and
    its bookkeeping are modelled with an [SkScalar] as the rational it
    denotes: doubling, quartering, rounding to an integer and adding
    small integers are exact on binary32.  The eligibility test, the
    choice of [mipScale] and the split of the translation are decided
    by the rounding of a product, a logarithm or a difference; they
    are embedded a second time, on binary32 values. *)

From stdpp Require Import base option list gmap.
From Stdlib Require Import ZArith QArith Qround Qabs Qminmax Qpower Lia Lqa Bool.
From Stdlib Require Import SpecFloat.

#[local] Open Scope Z_scope.

(** ** Part I. [SkColorSpacePriv.h] on binary32 *)

Module ColorSpace.

(** [float]: sign, 24-bit significand, exponent below 2^128. *)
Definition prec : Z := 24.
Definition emax : Z := 128.

Abbreviation float := spec_float.

(** An integer scaled by a power of two, rounded to binary32. *)
Definition of_Z_exp (m e : Z) : float := binary_normalize prec emax m e false.

(** A decimal literal [n/d] with both [n] and [d] below 2^24: the
    correctly rounded quotient is the nearest binary32 value, which is
    what the compiler stores for the literal. *)
Definition lit (n d : Z) : float :=
  SFdiv prec emax (of_Z_exp n 0) (of_Z_exp d 0).

Definition fadd : float -> float -> float := SFadd prec emax.
Definition fdiv : float -> float -> float := SFdiv prec emax.

(** C comparison operators: false as soon as an operand is a NaN. *)
Definition feq : float -> float -> bool := SFeqb.
Definition flt : float -> float -> bool := SFltb.
Definition fle : float -> float -> bool := SFleb.
Definition fge (a b : float) : bool := SFleb b a.

Definition SkScalarIsNaN (x : float) : bool :=
  match x with S754_nan => true | _ => false end.

Definition zero : float := S754_zero false.
Definition one : float := of_Z_exp 1 0.

(** [FLT_MIN], the least positive normal number, 2^-126. *)
Definition FLT_MIN : float := of_Z_exp 1 (-126).

Record SkColorSpaceTransferFn := mkTransferFn {
  fG : float; fA : float; fB : float; fC : float;
  fD : float; fE : float; fF : float
}.

Inductive SkGammaNamed :=
| kLinear_SkGammaNamed
| kSRGB_SkGammaNamed
| k2Dot2Curve_SkGammaNamed
| kNonStandard_SkGammaNamed.

Definition add_epsilon (v : float) : float := fadd v FLT_MIN.

Definition is_zero_to_one (v : float) : bool :=
  fle zero v && fle v (add_epsilon one).

Definition is_valid_transfer_fn (coeffs : SkColorSpaceTransferFn) : bool :=
  if SkScalarIsNaN (fA coeffs) || SkScalarIsNaN (fB coeffs) ||
     SkScalarIsNaN (fC coeffs) || SkScalarIsNaN (fD coeffs) ||
     SkScalarIsNaN (fE coeffs) || SkScalarIsNaN (fF coeffs) ||
     SkScalarIsNaN (fG coeffs)
  then false
  else if negb (is_zero_to_one (fD coeffs)) then false
  else if feq (fD coeffs) zero && (feq zero (fA coeffs) || feq zero (fG coeffs))
  then false
  else if fge (fD coeffs) one && feq zero (fE coeffs) then false
  else if (feq zero (fA coeffs) || feq zero (fG coeffs)) && feq zero (fC coeffs)
  then false
  else if flt (fC coeffs) zero then false
  else if flt (fA coeffs) zero || flt (fG coeffs) zero then false
  else true.

Definition value_to_parametric (exponent : float) : SkColorSpaceTransferFn :=
  {| fA := one; fB := zero; fC := zero; fD := zero;
     fE := zero; fF := zero; fG := exponent |}.

(** The out-parameter [coeffs] is threaded through: the [default] case
    returns [false] and leaves it as it was. *)
Definition named_to_parametric (coeffs : SkColorSpaceTransferFn)
    (gammaNamed : SkGammaNamed) : bool * SkColorSpaceTransferFn :=
  match gammaNamed with
  | kSRGB_SkGammaNamed =>
      (true,
       {| fA := fdiv one (lit 1055 1000);
          fB := fdiv (lit 55 1000) (lit 1055 1000);
          fC := fdiv one (lit 1292 100);
          fD := lit 4045 100000;
          fE := zero; fF := zero;
          fG := lit 24 10 |})
  | k2Dot2Curve_SkGammaNamed => (true, value_to_parametric (lit 22 10))
  | kLinear_SkGammaNamed =>
      (true,
       {| fA := zero; fB := zero; fC := one;
          fD := add_epsilon one;
          fE := zero; fF := zero; fG := zero |})
  | kNonStandard_SkGammaNamed => (false, coeffs)
  end.

Definition fsub : float -> float -> float := SFsub prec emax.

(** [SkTAbs]: [if (value < 0) { value = -value; } return value;] *)
Definition SkTAbs (value : float) : float :=
  if flt value zero then SFopp value else value.

Definition color_space_almost_equal (a b : float) : bool :=
  flt (SkTAbs (fsub a b)) (lit 1 100).

Definition is_almost_srgb (coeffs : SkColorSpaceTransferFn) : bool :=
  color_space_almost_equal (fdiv one (lit 1055 1000)) (fA coeffs) &&
  color_space_almost_equal (fdiv (lit 55 1000) (lit 1055 1000)) (fB coeffs) &&
  color_space_almost_equal (fdiv one (lit 1292 100)) (fC coeffs) &&
  color_space_almost_equal (lit 4045 100000) (fD coeffs) &&
  color_space_almost_equal zero (fE coeffs) &&
  color_space_almost_equal zero (fF coeffs) &&
  color_space_almost_equal (lit 24 10) (fG coeffs).

Definition is_almost_2dot2 (coeffs : SkColorSpaceTransferFn) : bool :=
  color_space_almost_equal one (fA coeffs) &&
  color_space_almost_equal zero (fB coeffs) &&
  color_space_almost_equal zero (fC coeffs) &&
  color_space_almost_equal zero (fD coeffs) &&
  color_space_almost_equal zero (fE coeffs) &&
  color_space_almost_equal zero (fF coeffs) &&
  color_space_almost_equal (lit 22 10) (fG coeffs).

End ColorSpace.

(** ** Part II. [GrSmallPathRenderer.cpp]

    Scalars are exact rationals in this part.  What the rounding of
    binary32 decides is embedded again in [SmallPath32] below. *)

Module SmallPath.

#[local] Open Scope Q_scope.

(** *** Scalars *)

Definition SkScalar := Q.

Definition Qltb (x y : Q) : bool := negb (Qle_bool y x).

Definition SK_Scalar1 : Q := 1.
Definition SK_ScalarHalf : Q := 1 # 2.

Definition SkScalarAbs (x : Q) : Q := Qabs x.
Definition SkTMin (a b : Q) : Q := if Qltb a b then a else b.
Definition SkTMax (a b : Q) : Q := if Qltb b a then a else b.
Definition SkMinScalar := SkTMin.
Definition SkMaxScalar := SkTMax.
Definition SkScalarFloorToScalar (x : Q) : Q := inject_Z (Qfloor x).
Definition SkScalarCeilToInt (x : Q) : Z := Qceiling x.
Definition SkScalarTruncToScalar (x : Q) : Q :=
  if Qle_bool 0 x then inject_Z (Qfloor x) else inject_Z (Qceiling x).
Definition SkScalarFraction (x : Q) : Q := x - SkScalarTruncToScalar x.

(** mip levels *)
Definition kIdealMinMIP : Q := 12.
Definition kMaxMIP : Q := 162.

Definition kMaxDim : Q := 73.
Definition kMinSize : Q := SK_ScalarHalf.
Definition kMaxSize : Q := 2 * kMaxMIP.

(** padding around path bounds to allow for antialiased pixels *)
Definition kAntiAliasPad : Q := 1.

Definition kVerticesPerQuad : Z := 4.
Definition kIndicesPerQuad : Z := 6.

Record SkRect := mkRect { fLeft : Q; fTop : Q; fRight : Q; fBottom : Q }.

Definition width (r : SkRect) : Q := fRight r - fLeft r.
Definition height (r : SkRect) : Q := fBottom r - fTop r.

Record SkVector := mkVector { fX : Q; fY : Q }.

(** *** The resolution of a distance field ([onPrepareDraws], lines 282-314) *)

(** [SkScalarPow(2, n)] at an integral exponent. *)
Definition pow2 (n : Z) : Q := 2 ^ n.

(** [SkScalarFloorToScalar(SkScalarLog2(x))] and
    [SkScalarCeilToScalar(SkScalarLog2(x))] for [1 <= x], computed
    exactly: [2^n <= x] holds exactly when [2^n <= floor x], and
    [x <= 2^n] exactly when [ceil x <= 2^n]. *)
Definition floor_log2 (x : Q) : Z := Z.log2 (Qfloor x).
Definition ceil_log2 (x : Q) : Z := Z.log2_up (Qceiling x).

(** Lines 287-295.  [maxScale] is an absolute value, so it is not
    negative; at 0 the inverse is +infinity and [2^-infinity] is 0. *)
Definition selectMipScale (maxScale : Q) : Q :=
  if Qle_bool maxScale SK_ScalarHalf then
    if Qeq_bool maxScale 0 then 0
    else
      let log := floor_log2 (/ maxScale) in
      pow2 (- log)
  else if Qltb SK_Scalar1 maxScale then
    let log := ceil_log2 maxScale in
    pow2 log
  else 1.

(** [do { newMipSize *= 2; } while (newMipSize < kIdealMinMIP);]
    The loops are bounded by [fuel]; [None] is a loop still running
    when the fuel is spent. *)
Fixpoint double_loop (fuel : nat) (newMipSize : Q) : option Q :=
  match fuel with
  | O => None
  | S fuel' =>
      let newMipSize := newMipSize * 2 in
      if Qltb newMipSize kIdealMinMIP then double_loop fuel' newMipSize
      else Some newMipSize
  end.

(** [while (newMipSize > 4 * mipSize) { newMipSize *= 0.25f; }] *)
Fixpoint quarter_loop (fuel : nat) (mipSize newMipSize : Q) : option Q :=
  match fuel with
  | O => None
  | S fuel' =>
      if Qltb (4 * mipSize) newMipSize
      then quarter_loop fuel' mipSize (newMipSize * (1 # 4))
      else Some newMipSize
  end.

(** Lines 304-313: the value of [mipSize] after the adjustment. *)
Definition adjustMipSize (fuel : nat) (mipSize : Q) : option Q :=
  if Qltb mipSize kIdealMinMIP then
    newMipSize ← double_loop fuel mipSize;
    quarter_loop fuel mipSize newMipSize
  else Some mipSize.

(** Lines 282-314, from the matrix's maximum scale factor and the
    larger side of the shape's bounds. *)
Definition desiredDimension (fuel : nat) (getMaxScale maxDim : Q) : option Q :=
  let maxScale := SkScalarAbs getMaxScale in
  let mipScale := selectMipScale maxScale in
  let mipSize := mipScale * SkScalarAbs maxDim in
  mipSize ← adjustMipSize fuel mipSize;
  Some (SkTMin mipSize kMaxMIP).

(** *** Rectangles, matrices, shapes *)

Record SkIRect := mkIRect { iLeft : Z; iTop : Z; iRight : Z; iBottom : Z }.

Definition iwidth (r : SkIRect) : Z := (iRight r - iLeft r)%Z.
Definition iheight (r : SkIRect) : Z := (iBottom r - iTop r)%Z.
Definition SkIRect_MakeWH (w h : Z) : SkIRect := mkIRect 0 0 w h.
Definition makeOutset (r : SkIRect) (dx dy : Z) : SkIRect :=
  mkIRect (iLeft r - dx) (iTop r - dy) (iRight r + dx) (iBottom r + dy).

Definition SkRect_Make (r : SkIRect) : SkRect :=
  mkRect (inject_Z (iLeft r)) (inject_Z (iTop r))
         (inject_Z (iRight r)) (inject_Z (iBottom r)).
Definition offset (r : SkRect) (dx dy : Q) : SkRect :=
  mkRect (fLeft r + dx) (fTop r + dy) (fRight r + dx) (fBottom r + dy).
Definition roundOut (r : SkRect) : SkIRect :=
  mkIRect (Qfloor (fLeft r)) (Qfloor (fTop r))
          (Qceiling (fRight r)) (Qceiling (fBottom r)).
Definition isEmpty (r : SkRect) : bool :=
  negb (Qltb (fLeft r) (fRight r) && Qltb (fTop r) (fBottom r)).

(** The nine entries of [SkMatrix::fMat], in their order. *)
Record SkMatrix := mkMatrix {
  kMScaleX : Q; kMSkewX : Q; kMTransX : Q;
  kMSkewY : Q; kMScaleY : Q; kMTransY : Q;
  kMPersp0 : Q; kMPersp1 : Q; kMPersp2 : Q
}.

Definition getTranslateX (m : SkMatrix) : Q := kMTransX m.
Definition getTranslateY (m : SkMatrix) : Q := kMTransY m.
Definition setTranslateX (m : SkMatrix) (v : Q) : SkMatrix :=
  mkMatrix (kMScaleX m) (kMSkewX m) v
           (kMSkewY m) (kMScaleY m) (kMTransY m)
           (kMPersp0 m) (kMPersp1 m) (kMPersp2 m).
Definition setTranslateY (m : SkMatrix) (v : Q) : SkMatrix :=
  mkMatrix (kMScaleX m) (kMSkewX m) (kMTransX m)
           (kMSkewY m) (kMScaleY m) v
           (kMPersp0 m) (kMPersp1 m) (kMPersp2 m).
Definition setScale (sx sy : Q) : SkMatrix :=
  mkMatrix sx 0 0 0 sy 0 0 0 1.
(** A translation applied after [m]. *)
Definition postTranslate (m : SkMatrix) (dx dy : Q) : SkMatrix :=
  mkMatrix (kMScaleX m + dx * kMPersp0 m) (kMSkewX m + dx * kMPersp1 m)
           (kMTransX m + dx * kMPersp2 m)
           (kMSkewY m + dy * kMPersp0 m) (kMScaleY m + dy * kMPersp1 m)
           (kMTransY m + dy * kMPersp2 m)
           (kMPersp0 m) (kMPersp1 m) (kMPersp2 m).

Inductive GrAAType := kNone | kCoverage | kMSAA | kMixedSamples.

#[export] Instance GrAAType_eq_dec : EqDecision GrAAType.
Proof. solve_decision. Defined.

(** What the renderer reads off a [GrShape]. *)
Record GrShape := mkShape {
  hasUnstyledKey : bool;
  isSimpleFill : bool;          (* style().isSimpleFill() *)
  inverseFilled : bool;
  bounds : SkRect;
  styledBounds : SkRect;
  shapeGenID : Z                (* stands for the path the shape holds *)
}.

Definition AtlasID := Z.
Definition GrColor := Z.
Definition ptr := positive.

Record SkIPoint16 := mkIPoint16 { ptX : Z; ptY : Z }.

(** *** Collaborators that lie beyond these sources

    The atlas, the rasterizers, the draw-op helper, the cache key of
    [GrSmallPathRenderer.h] and the numeric side of [SkMatrix] are only
    called here.  They are taken as parameters. *)
Class Collaborators := {
  (** [ShapeData::Key], built from a shape and either the dimension of
      a distance field or the matrix of a bitmap. *)
  Key : Type;
  Key_eq_dec :: EqDecision Key;
  Key_countable :: Countable Key;
  keyOfDimension : GrShape -> Z -> Key;
  keyOfMatrix : GrShape -> SkMatrix -> Key;
  (** [SkMatrix] *)
  hasPerspective : SkMatrix -> bool;
  getMinMaxScales : SkMatrix -> option (Q * Q);
  getMaxScale : SkMatrix -> Q;
  mapRect : SkMatrix -> SkRect -> SkRect;
  invert : SkMatrix -> option SkMatrix;
  cheapEqualTo : SkMatrix -> SkMatrix -> bool;
  (** [SkPoint::equalsWithinTolerance] *)
  equalsWithinTolerance : SkVector -> SkVector -> bool;
  (** [GrSimpleMeshDrawOpHelperWithStencil] and [GrCaps] *)
  Helper : Type;
  GrCaps : Type;
  shaderDerivativeSupport : GrCaps -> bool;
  isCompatible : Helper -> Helper -> GrCaps -> SkRect -> SkRect -> bool;
  usesLocalCoords : Helper -> bool;
  (** [GrOp::setTransformedBounds] with [HasAABloat::kYes] and
      [GrOp::joinBounds] *)
  transformedBounds : SkRect -> SkMatrix -> SkRect;
  joinBounds : SkRect -> SkRect -> SkRect;
  (** the platform switch of the constructor, lines 161-166 *)
  SK_BUILD_FOR_ANDROID_only : bool;
  (** rasterizers; a [Pixels] is a filled A8 buffer *)
  Pixels : Type;
  SK_DistanceFieldPad : Z;
  GrGenerateDistanceFieldFromPath : GrShape -> SkMatrix -> Z -> Z -> option Pixels;
  tryAlloc : Z -> Z -> bool;
  drawPathCoverage : GrShape -> SkMatrix -> Z -> Z -> Pixels;
  SkGenerateDistanceFieldFromA8Image : Pixels -> Pixels;
  (** [GrDrawOpAtlas].  [addToAtlas] is given the number of draws the
      target has recorded; besides its answer it reports the regions it
      evicted, for each of which it has run the eviction callback. *)
  Atlas : Type;
  addToAtlas : Atlas -> nat -> Z -> Z -> Pixels ->
               Atlas * list AtlasID * option (AtlasID * SkIPoint16);
  hasID : Atlas -> AtlasID -> bool;
  setLastUseToken : Atlas -> AtlasID -> nat -> Atlas
}.

Section Renderer.
Context `{Collaborators}.

(** *** The shape cache and the liveness list *)

Record ShapeData := mkShapeData {
  fKey : Key;
  fID : AtlasID;
  fBounds : SkRect;
  fTextureCoords : SkIRect
}.

(** Modelled from the spec: [SkTDynamicHash] and [SkTInternalLList]
    are not among these sources.  The cache is the contract
    [find(key) -> RenditionRecord|absent], [insert(record)],
    [remove(key)], a finite map from keys to records; the liveness
    list is the sequence of its member records.  Both index one
    allocation: they hold pointers to the [ShapeData] objects, which
    live in [heap] from [new] to [delete]. *)
Record Renderer := mkRenderer {
  fShapeCache : gmap Key ptr;
  fShapeList : list ptr;
  heap : gmap ptr ShapeData
}.

Definition cache_find (r : Renderer) (key : Key) : option ptr :=
  fShapeCache r !! key.
Definition list_remove (p : ptr) (l : list ptr) : list ptr :=
  filter (fun q => q <> p) l.

(** The three statements that drop one record (lines 56-58, and
    again 322-324 and 347-349). *)
Definition removeShapeData (r : Renderer) (p : ptr) (shapeData : ShapeData)
    : Renderer :=
  {| fShapeCache := delete (fKey shapeData) (fShapeCache r);
     fShapeList := list_remove p (fShapeList r);
     heap := delete p (heap r) |}.

(** One turn of the loop of [HandleEviction].  The iterator has
    already stepped past [p] when the record is unlinked, so the
    nodes still to visit are those that followed [p] when the loop
    started.  Reading a record that is no longer allocated has no
    result. *)
Definition evict_step (id : AtlasID) (r : Renderer) (p : ptr)
    : option Renderer :=
  shapeData ← heap r !! p;
  if decide (id = fID shapeData)
  then Some (removeShapeData r p shapeData)
  else Some r.

Fixpoint evict_loop (id : AtlasID) (iter : list ptr) (r : Renderer)
    : option Renderer :=
  match iter with
  | [] => Some r
  | p :: iter' => r' ← evict_step id r p; evict_loop id iter' r'
  end.

Definition HandleEviction (id : AtlasID) (dfpr : Renderer) : option Renderer :=
  evict_loop id (fShapeList dfpr) dfpr.

(** The renderer's structures index each other: every listed record
    is allocated, and a key finds a record exactly when that record
    is listed under this key. *)
Definition cache_entry_ok (r : Renderer) (key : Key) (p : ptr) : bool :=
  bool_decide (p ∈ fShapeList r) &&
  match heap r !! p with
  | Some shapeData => bool_decide (fKey shapeData = key)
  | None => false
  end.
Definition listed_ok (r : Renderer) (p : ptr) : bool :=
  match heap r !! p with
  | Some shapeData => bool_decide (fShapeCache r !! fKey shapeData = Some p)
  | None => false
  end.
Definition consistent (r : Renderer) : bool :=
  bool_decide (NoDup (fShapeList r)) &&
  forallb (listed_ok r) (fShapeList r) &&
  forallb (fun kp => cache_entry_ok r kp.1 kp.2) (map_to_list (fShapeCache r)).

(** Does the record at [p] survive the eviction of region [id]? *)
Definition survives (id : AtlasID) (r : Renderer) (p : ptr) : bool :=
  match heap r !! p with
  | Some shapeData => bool_decide (fID shapeData <> id)
  | None => true
  end.

(** Has the loop of [HandleEviction], having visited [visited], dropped
    the record at [p]? *)
Definition dropped (id : AtlasID) (r : Renderer) (visited : list ptr)
    (p : ptr) : bool :=
  bool_decide (p ∈ visited) && negb (survives id r p).

(** Has one of two evictions in a row, of [R1] and of [R2], dropped the
    record at [p]? *)
Definition gone (R1 R2 : AtlasID) (r : Renderer) (p : ptr) : bool :=
  bool_decide (p ∈ fShapeList r) && negb (survives R1 r p && survives R2 r p).

(** *** [onCanDrawPath] *)

Record CanDrawPathArgs := mkCanDrawPathArgs {
  args_fCaps : GrCaps;
  args_fShape : GrShape;
  args_fAAType : GrAAType;
  args_fViewMatrix : SkMatrix
}.

Definition onCanDrawPath (args : CanDrawPathArgs) : bool :=
  if negb (shaderDerivativeSupport (args_fCaps args)) then false
  else if negb (hasUnstyledKey (args_fShape args)) then false
  else if negb (isSimpleFill (args_fShape args)) then false
  else if negb (bool_decide (kCoverage = args_fAAType args)) then false
  else if inverseFilled (args_fShape args) then false
  else if hasPerspective (args_fViewMatrix args) then false
  else
    match getMinMaxScales (args_fViewMatrix args) with
    | None => false
    | Some (scaleFactors0, scaleFactors1) =>
        let bounds := styledBounds (args_fShape args) in
        let minDim := SkMinScalar (width bounds) (height bounds) in
        let maxDim := SkMaxScalar (width bounds) (height bounds) in
        let minSize := minDim * SkScalarAbs scaleFactors0 in
        let maxSize := maxDim * SkScalarAbs scaleFactors1 in
        Qle_bool maxDim kMaxDim && Qle_bool kMinSize minSize &&
        Qle_bool maxSize kMaxSize
    end.

(** *** [SmallPathOp] *)

Record Entry := mkEntry {
  fColor : GrColor;
  fShape : GrShape;
  fTranslate : SkVector
}.

(** [fShapes] holds at least the entry the constructor puts there:
    [fShapes0] is [fShapes[0]]. *)
Record SmallPathOp := mkOp {
  fViewMatrix : SkMatrix;
  fUsesDistanceField : bool;
  fShapes0 : Entry;
  fShapesRest : list Entry;
  fHelper : Helper;
  fGammaCorrect : bool;
  opBounds : SkRect
}.

Definition fShapes (op : SmallPathOp) : list Entry :=
  fShapes0 op :: fShapesRest op.

(** The constructor, lines 152-188. *)
Definition SmallPathOp_new (helper : Helper) (color : GrColor)
    (shape : GrShape) (viewMatrix : SkMatrix) (gammaCorrect : bool)
    : SmallPathOp :=
  let opBounds := transformedBounds (bounds shape) viewMatrix in
  let usesDistanceField :=
    if SK_BUILD_FOR_ANDROID_only then true
    else Qltb kMaxMIP (width opBounds) || Qltb kMaxMIP (height opBounds) in
  let '(storedMatrix, translate) :=
    if negb usesDistanceField then
      let translateX := getTranslateX viewMatrix in
      let translateY := getTranslateY viewMatrix in
      let translate := mkVector (SkScalarFloorToScalar translateX)
                                (SkScalarFloorToScalar translateY) in
      (setTranslateY
         (setTranslateX viewMatrix (translateX - fX translate))
         (translateY - fY translate),
       translate)
    else (viewMatrix, mkVector 0 0) in
  {| fViewMatrix := storedMatrix;
     fUsesDistanceField := usesDistanceField;
     fShapes0 := mkEntry color shape translate;
     fShapesRest := [];
     fHelper := helper;
     fGammaCorrect := gammaCorrect;
     opBounds := opBounds |}.

(** [onCombineIfPossible], lines 660-683: the answer and [this]
    afterwards. *)
Definition onCombineIfPossible (this that : SmallPathOp) (caps : GrCaps)
    : bool * SmallPathOp :=
  if negb (isCompatible (fHelper this) (fHelper that) caps
             (opBounds this) (opBounds that))
  then (false, this)
  else if negb (eqb (fUsesDistanceField this) (fUsesDistanceField that))
  then (false, this)
  else if negb (cheapEqualTo (fViewMatrix this) (fViewMatrix that))
  then (false, this)
  else if negb (fUsesDistanceField this) && usesLocalCoords (fHelper this) &&
          negb (equalsWithinTolerance (fTranslate (fShapes0 this))
                                      (fTranslate (fShapes0 that)))
  then (false, this)
  else
    (true,
     {| fViewMatrix := fViewMatrix this;
        fUsesDistanceField := fUsesDistanceField this;
        fShapes0 := fShapes0 this;
        fShapesRest := fShapesRest this ++ fShapes that;
        fHelper := fHelper this;
        fGammaCorrect := fGammaCorrect this;
        opBounds := joinBounds (opBounds this) (opBounds that) |}).

(** *** Drawing: vertices, meshes, the flush *)

Record Vertex := mkVertex {
  position : Q * Q;
  color : GrColor;
  textureCoords : Z * Z
}.

(** [static_cast<int>] and the conversion to [uint16_t]. *)
Definition to_int (z : Z) : Z := ((z + 2 ^ 31) mod 2 ^ 32 - 2 ^ 31)%Z.
Definition to_uint16 (z : Z) : Z := (z mod 2 ^ 16)%Z.

(** The four corners in the order of [setRectFan], each with the
    colour and its texture coordinate (lines 598-638). *)
Definition writePathVertices (color : GrColor) (preTranslate : SkVector)
    (shapeData : ShapeData) : list Vertex :=
  let bounds := fBounds shapeData in
  let left := fLeft bounds + fX preTranslate in
  let top := fTop bounds + fY preTranslate in
  let right := fRight bounds + fX preTranslate in
  let bottom := fBottom bounds + fY preTranslate in
  let l := to_uint16 (iLeft (fTextureCoords shapeData)) in
  let t := to_uint16 (iTop (fTextureCoords shapeData)) in
  let r := to_uint16 (iRight (fTextureCoords shapeData)) in
  let b := to_uint16 (iBottom (fTextureCoords shapeData)) in
  [ mkVertex (left, top) color (l, t);
    mkVertex (left, bottom) color (l, b);
    mkVertex (right, bottom) color (r, b);
    mkVertex (right, top) color (r, t) ].

(** What [setIndexedPatterned] and [setVertexData] store in a mesh. *)
Record GrMesh := mkMesh {
  fIndexCount : Z;
  fVertexCount : Z;
  fPatternRepeatCount : Z;
  fMaxPatternRepetitionsInIndexBuffer : Z;
  fBaseVertex : Z
}.

Record FlushInfo := mkFlushInfo {
  fIndexBufferSize : Z;          (* fIndexBuffer->gpuMemorySize() *)
  fVertexOffset : Z;
  fInstancesToFlush : Z
}.

(** The renderer's structures, the atlas, the draws the target has
    recorded, the vertex space written so far, and the calls made to
    [addToAtlas] (sizes asked for, and whether space was found). *)
Record World := mkWorld {
  renderer : Renderer;
  atlas : Atlas;
  draws : list GrMesh;
  vertices : list Vertex;
  flushInfo : FlushInfo;
  atlasCalls : list (Z * Z * bool)
}.

Definition sizeof_uint16_t : Z := 2.

(** [flush], lines 641-654. *)
Definition flush (w : World) : World :=
  let fi := flushInfo w in
  if bool_decide (fInstancesToFlush fi <> 0%Z) then
    let maxInstancesPerDraw :=
      to_int (fIndexBufferSize fi / sizeof_uint16_t / 6) in
    let mesh :=
      {| fIndexCount := kIndicesPerQuad;
         fVertexCount := kVerticesPerQuad;
         fPatternRepeatCount := fInstancesToFlush fi;
         fMaxPatternRepetitionsInIndexBuffer := maxInstancesPerDraw;
         fBaseVertex := fVertexOffset fi |} in
    {| renderer := renderer w;
       atlas := atlas w;
       draws := draws w ++ [mesh];
       vertices := vertices w;
       flushInfo :=
         {| fIndexBufferSize := fIndexBufferSize fi;
            fVertexOffset :=
              (fVertexOffset fi + kVerticesPerQuad * fInstancesToFlush fi)%Z;
            fInstancesToFlush := 0 |};
       atlasCalls := atlasCalls w |}
  else w.

(** Modelled from the spec: how a recorded patterned mesh reaches the
    GPU is decided in [GrMesh], outside these sources: "submit one
    draw call per chunk, where chunk size is bounded by the index
    buffer's total index capacity divided by indices-per-instance".
    A draw call is the first instance it covers and their number;
    each chunk takes as many of the remaining instances as the
    capacity allows. *)
Fixpoint chunks (fuel : nat) (baseRepetition remaining maxRepetitions : Z)
    : list (Z * Z) :=
  match fuel with
  | O => []
  | S fuel' =>
      if bool_decide (remaining <= 0)%Z then []
      else
        let repeatCount := Z.min maxRepetitions remaining in
        (baseRepetition, repeatCount) ::
        chunks fuel' (baseRepetition + repeatCount)%Z
               (remaining - repeatCount)%Z maxRepetitions
  end.

Definition drawCalls (mesh : GrMesh) : list (Z * Z) :=
  chunks (Z.to_nat (fPatternRepeatCount mesh)) 0
         (fPatternRepeatCount mesh)
         (fMaxPatternRepetitionsInIndexBuffer mesh).

(** The instances a draw call covers, counted from the start of its mesh. *)
Definition covered (call : Z * Z) : list Z := seqZ call.1 call.2.

(** The instances a sequence of meshes draws. *)
Definition instancesOf (meshes : list GrMesh) : Z :=
  foldr (fun mesh n => (fPatternRepeatCount mesh + n)%Z) 0%Z meshes.

(** Meshes of quads that lie end to end in the vertex space from
    [base] on, none of them empty. *)
Fixpoint tiled (base : Z) (meshes : list GrMesh) : Prop :=
  match meshes with
  | [] => True
  | mesh :: meshes' =>
      fBaseVertex mesh = base /\ (0 < fPatternRepeatCount mesh)%Z /\
      fVertexCount mesh = kVerticesPerQuad /\
      fIndexCount mesh = kIndicesPerQuad /\
      tiled (base + kVerticesPerQuad * fPatternRepeatCount mesh)%Z meshes'
  end.

(** The bookkeeping of the loop of [onPrepareDraws], which started
    with the draws [draws0] and the vertices [vertices0] and was given
    the vertex space from [base] on: the meshes recorded since tile
    the space up to [fVertexOffset], the quads written since are those
    of the meshes and of the [fInstancesToFlush] instances still to be
    flushed, and there are at most [budget] of them. *)
Definition accounted (base : Z) (draws0 : list GrMesh)
    (vertices0 : list Vertex) (budget : Z) (w : World) : Prop :=
  exists meshes quads,
    draws w = draws0 ++ meshes /\
    vertices w = vertices0 ++ quads /\
    tiled base meshes /\
    fVertexOffset (flushInfo w)
    = (base + kVerticesPerQuad * instancesOf meshes)%Z /\
    (0 <= fInstancesToFlush (flushInfo w))%Z /\
    Z.of_nat (length quads)
    = (kVerticesPerQuad *
       (instancesOf meshes + fInstancesToFlush (flushInfo w)))%Z /\
    (instancesOf meshes + fInstancesToFlush (flushInfo w) <= budget)%Z.

(** *** Putting a rendition into the atlas *)

(** The atlas runs the eviction callback for each region it reclaims
    before [addToAtlas] returns. *)
Fixpoint runEvictions (ids : list AtlasID) (r : Renderer) : option Renderer :=
  match ids with
  | [] => Some r
  | id :: ids' => r' ← HandleEviction id r; runEvictions ids' r'
  end.

Definition set_renderer_atlas (w : World) (r : Renderer) (a : Atlas)
    (calls : list (Z * Z * bool)) : World :=
  {| renderer := r; atlas := a; draws := draws w; vertices := vertices w;
     flushInfo := flushInfo w; atlasCalls := calls |}.

(** One call [atlas->addToAtlas(&id, target, width, height, data,
    &atlasLocation)]. *)
Definition callAddToAtlas (w : World) (width height : Z) (data : Pixels)
    : option (option (AtlasID * SkIPoint16) * World) :=
  let '(atlas', evicted, found) :=
    addToAtlas (atlas w) (length (draws w)) width height data in
  r' ← runEvictions evicted (renderer w);
  Some (found,
        set_renderer_atlas w r' atlas'
          (atlasCalls w ++ [(width, height, bool_decide (is_Some found))])).

(** Lines 471-476, and the same at 564-571:
    [if (!atlas->addToAtlas(..)) { this->flush(target, flushInfo);
         if (!atlas->addToAtlas(..)) { return false; } }] *)
Definition addToAtlasWithRetry (w : World) (width height : Z) (data : Pixels)
    : option (option (AtlasID * SkIPoint16) * World) :=
  '(found, w1) ← callAddToAtlas w width height data;
  match found with
  | Some location => Some (Some location, w1)
  | None => callAddToAtlas (flush w1) width height data
  end.

(** [fShapeCache->add(shapeData); fShapeList->addToTail(shapeData);]
    The object made by [new ShapeData] enters [heap] here, once its
    fields are set; until then nothing can reach it, so the [delete]
    of the failing paths leaves [heap] as it was. *)
Definition registerShapeData (w : World) (shapeData : ShapeData) : World :=
  let r := renderer w in
  let p := fresh (dom (heap r)) in
  set_renderer_atlas w
    {| fShapeCache := <[fKey shapeData := p]> (fShapeCache r);
       fShapeList := fShapeList r ++ [p];
       heap := <[p := shapeData]> (heap r) |}
    (atlas w) (atlasCalls w).

Definition scaleRect (r : SkRect) (k : Q) : SkRect :=
  mkRect (fLeft r * k) (fTop r * k) (fRight r * k) (fBottom r * k).
Definition unscaleRect (r : SkRect) (k : Q) : SkRect :=
  mkRect (fLeft r / k) (fTop r / k) (fRight r / k) (fBottom r / k).

(** [addDFPathToAtlas], lines 381-500: the record it fills on
    success, [None] for [return false]. *)
Definition addDFPathToAtlas (w : World) (shape : GrShape) (dimension : Z)
    (scale : Q) : option (option ShapeData * World) :=
  let scaledBounds := scaleRect (bounds shape) scale in
  let dx := SkScalarFloorToScalar (fLeft scaledBounds) in
  let dy := SkScalarFloorToScalar (fTop scaledBounds) in
  let scaledBounds := offset scaledBounds (- dx) (- dy) in
  let devPathBounds := roundOut scaledBounds in
  let intPad := SkScalarCeilToInt kAntiAliasPad in
  let width := (iwidth devPathBounds + 2 * intPad)%Z in
  let height := (iheight devPathBounds + 2 * intPad)%Z in
  let devPathBounds := SkIRect_MakeWH width height in
  let translateX := inject_Z intPad - dx in
  let translateY := inject_Z intPad - dy in
  let drawMatrix := postTranslate (setScale scale scale) translateX translateY in
  let dfBounds :=
    makeOutset devPathBounds SK_DistanceFieldPad SK_DistanceFieldPad in
  let width := iwidth dfBounds in
  let height := iheight dfBounds in
  let dfStorage :=
    match GrGenerateDistanceFieldFromPath shape drawMatrix width height with
    | Some field => Some field
    | None =>
        if negb (tryAlloc (iwidth devPathBounds) (iheight devPathBounds))
        then None
        else Some (SkGenerateDistanceFieldFromA8Image
                     (drawPathCoverage shape drawMatrix
                        (iwidth devPathBounds) (iheight devPathBounds)))
    end in
  match dfStorage with
  | None => Some (None, w)
  | Some data =>
      '(found, w') ← addToAtlasWithRetry w width height data;
      match found with
      | None => Some (None, w')
      | Some (id, atlasLocation) =>
          let shapeData :=
            {| fKey := keyOfDimension shape dimension;
               fID := id;
               fBounds :=
                 unscaleRect
                   (offset (SkRect_Make devPathBounds)
                           (- translateX) (- translateY))
                   scale;
               fTextureCoords :=
                 mkIRect (ptX atlasLocation + SK_DistanceFieldPad)
                         (ptY atlasLocation + SK_DistanceFieldPad)
                         (ptX atlasLocation + SK_DistanceFieldPad
                          + iwidth devPathBounds)
                         (ptY atlasLocation + SK_DistanceFieldPad
                          + iheight devPathBounds) |} in
          Some (Some shapeData, registerShapeData w' shapeData)
      end
  end.

(** The geometry of a bitmap rendition, lines 509-527: the matrix the
    path is rasterized with (before and after the move to the
    origin), the padded size, and the bounds stored in the record. *)
Record BMGeometry := mkBMGeometry {
  bm_fractionMatrix : SkMatrix;
  bm_drawMatrix : SkMatrix;
  bm_width : Z;
  bm_height : Z;
  bm_fBounds : SkRect
}.

Definition bitmapGeometry (shape : GrShape) (ctm : SkMatrix) : BMGeometry :=
  let drawMatrix := ctm in
  let drawMatrix :=
    setTranslateX drawMatrix (SkScalarFraction (getTranslateX ctm)) in
  let drawMatrix :=
    setTranslateY drawMatrix (SkScalarFraction (getTranslateY ctm)) in
  let shapeDevBounds := mapRect drawMatrix (bounds shape) in
  let dx := SkScalarFloorToScalar (fLeft shapeDevBounds) in
  let dy := SkScalarFloorToScalar (fTop shapeDevBounds) in
  let devPathBounds := roundOut shapeDevBounds in
  let intPad := SkScalarCeilToInt kAntiAliasPad in
  let width := (iwidth devPathBounds + 2 * intPad)%Z in
  let height := (iheight devPathBounds + 2 * intPad)%Z in
  let devPathBounds := SkIRect_MakeWH width height in
  let translateX := inject_Z intPad - dx in
  let translateY := inject_Z intPad - dy in
  {| bm_fractionMatrix := drawMatrix;
     bm_drawMatrix := postTranslate drawMatrix translateX translateY;
     bm_width := width;
     bm_height := height;
     bm_fBounds :=
       offset (SkRect_Make devPathBounds) (- translateX) (- translateY) |}.

(** [addBMPathToAtlas], lines 502-589. *)
Definition addBMPathToAtlas (w : World) (shape : GrShape) (ctm : SkMatrix)
    : option (option ShapeData * World) :=
  if isEmpty (bounds shape) then Some (None, w)
  else
    let g := bitmapGeometry shape ctm in
    if negb (tryAlloc (bm_width g) (bm_height g)) then Some (None, w)
    else
      let dst := drawPathCoverage shape (bm_drawMatrix g)
                   (bm_width g) (bm_height g) in
      '(found, w') ← addToAtlasWithRetry w (bm_width g) (bm_height g) dst;
      match found with
      | None => Some (None, w')
      | Some (id, atlasLocation) =>
          let shapeData :=
            {| fKey := keyOfMatrix shape ctm;
               fID := id;
               fBounds := bm_fBounds g;
               fTextureCoords :=
                 mkIRect (ptX atlasLocation) (ptY atlasLocation)
                         (ptX atlasLocation + bm_width g)
                         (ptY atlasLocation + bm_height g) |} in
          Some (Some shapeData, registerShapeData w' shapeData)
      end.

(** What an insertion leaves behind, seen from outside: it made no call
    to [addToAtlas] and nothing ([made] is false); or one call, which
    found room; or a call that found no room, the flush, and one more
    call, whose answer is [made]. *)
Definition insertionOutcome (w w' : World) (made : bool) : Prop :=
  (atlasCalls w' = atlasCalls w /\ made = false /\
   draws w' = draws w /\ flushInfo w' = flushInfo w) \/
  (exists width height,
     atlasCalls w' = atlasCalls w ++ [(width, height, true)] /\ made = true /\
     draws w' = draws w /\ flushInfo w' = flushInfo w) \/
  (exists width height,
     atlasCalls w' =
       atlasCalls w ++ [(width, height, false); (width, height, made)] /\
     draws w' = draws (flush w) /\ flushInfo w' = flushInfo (flush w)).

(** What an insertion leaves of the draws and the flush state: those
    of [w] itself, or those of [w] after the flush. *)
Definition flushedOrNot (w w' : World) : Prop :=
  (draws w' = draws w /\ flushInfo w' = flushInfo w) \/
  (draws w' = draws (flush w) /\ flushInfo w' = flushInfo (flush w)).

(** *** [onPrepareDraws] *)

(** [shapeData = fShapeCache->find(key)], then the read of
    [shapeData->fID] that the test of line 319 makes when the
    pointer is not null. *)
Definition findShapeData (w : World) (key : Key)
    : option (option (ptr * ShapeData)) :=
  match cache_find (renderer w) key with
  | None => Some None
  | Some p => shapeData ← heap (renderer w) !! p; Some (Some (p, shapeData))
  end.

Definition set_renderer (w : World) (r : Renderer) : World :=
  set_renderer_atlas w r (atlas w) (atlasCalls w).

(** Lines 365-375: the shape is drawn. *)
Definition drawShape (w : World) (args : Entry) (shapeData : ShapeData)
    : World :=
  {| renderer := renderer w;
     atlas := setLastUseToken (atlas w) (fID shapeData) (length (draws w));
     draws := draws w;
     vertices :=
       vertices w ++ writePathVertices (fColor args) (fTranslate args) shapeData;
     flushInfo :=
       {| fIndexBufferSize := fIndexBufferSize (flushInfo w);
          fVertexOffset := fVertexOffset (flushInfo w);
          fInstancesToFlush := (fInstancesToFlush (flushInfo w) + 1)%Z |};
     atlasCalls := atlasCalls w |}.

(** Lines 321-325 and 346-350: the stale entry, if there is one, goes. *)
Definition removeStale (w : World) (found : option (ptr * ShapeData)) : World :=
  match found with
  | Some (p, shapeData) =>
      set_renderer w (removeShapeData (renderer w) p shapeData)
  | None => w
  end.

(** Is the record found in the cache usable (the negation of the
    test of lines 319 and 344)? *)
Definition usable (w : World) (found : option (ptr * ShapeData))
    : option ShapeData :=
  match found with
  | Some (_, shapeData) =>
      if hasID (atlas w) (fID shapeData) then Some shapeData else None
  | None => None
  end.

(** After [addDFPathToAtlas] or [addBMPathToAtlas]: [continue] when
    it returned false, else the shape is drawn. *)
Definition drawIfMade (args : Entry)
    (made : option (option ShapeData * World)) : option World :=
  '(shapeData, w) ← made;
  match shapeData with
  | None => Some w
  | Some shapeData => Some (drawShape w args shapeData)
  end.

(** The body of the loop over [fShapes], lines 277-376. *)
Definition prepareEntry (fuel : nat) (op : SmallPathOp) (w : World)
    (args : Entry) : option World :=
  if fUsesDistanceField op then
    let maxDim :=
      SkMaxScalar (width (bounds (fShape args))) (height (bounds (fShape args))) in
    desired ← desiredDimension fuel (getMaxScale (fViewMatrix op)) maxDim;
    let key := keyOfDimension (fShape args) (SkScalarCeilToInt desired) in
    found ← findShapeData w key;
    match usable w found with
    | Some shapeData => Some (drawShape w args shapeData)
    | None =>
        let scale := desired / maxDim in
        drawIfMade args
          (addDFPathToAtlas (removeStale w found) (fShape args)
             (SkScalarCeilToInt desired) scale)
    end
  else
    let key := keyOfMatrix (fShape args) (fViewMatrix op) in
    found ← findShapeData w key;
    match usable w found with
    | Some shapeData => Some (drawShape w args shapeData)
    | None =>
        drawIfMade args
          (addBMPathToAtlas (removeStale w found) (fShape args)
             (fViewMatrix op))
    end.

Fixpoint prepareLoop (fuel : nat) (op : SmallPathOp) (entries : list Entry)
    (w : World) : option World :=
  match entries with
  | [] => Some w
  | args :: entries' =>
      w' ← prepareEntry fuel op w args;
      prepareLoop fuel op entries' w'
  end.

(** [onPrepareDraws], lines 219-379.  [vertexSpace] is the offset
    [makeVertexSpace] hands out, if it has room, and [indexBuffer]
    the size of the quad index buffer, if there is one. *)
Definition onPrepareDraws (fuel : nat) (op : SmallPathOp)
    (vertexSpace indexBuffer : option Z) (w : World) : option World :=
  if negb (fUsesDistanceField op) && usesLocalCoords (fHelper op) &&
     negb (bool_decide (is_Some (invert (fViewMatrix op))))
  then Some w
  else
    match vertexSpace, indexBuffer with
    | Some vertexOffset, Some indexBufferSize =>
        let w0 :=
          {| renderer := renderer w; atlas := atlas w; draws := draws w;
             vertices := vertices w;
             flushInfo :=
               {| fIndexBufferSize := indexBufferSize;
                  fVertexOffset := vertexOffset;
                  fInstancesToFlush := 0 |};
             atlasCalls := atlasCalls w |} in
        w' ← prepareLoop fuel op (fShapes op) w0;
        Some (flush w')
    | _, _ => Some w
    end.

(** *** The rendition a turn of the loop inserts

    What [addBMPathToAtlas] has ready when it turns to the atlas
    (lines 503-562): the size and the pixels of the bitmap; nothing
    when the bounds are empty or the pixels cannot be allocated. *)
Definition bmRequest (shape : GrShape) (ctm : SkMatrix)
    : option (Z * Z * Pixels) :=
  if isEmpty (bounds shape) then None
  else
    let g := bitmapGeometry shape ctm in
    if negb (tryAlloc (bm_width g) (bm_height g)) then None
    else Some (bm_width g, bm_height g,
               drawPathCoverage shape (bm_drawMatrix g)
                 (bm_width g) (bm_height g)).

(** The same for [addDFPathToAtlas] (lines 388-466): the size and the
    texels of the field; nothing when the field cannot be generated
    from the path and the coverage pixels cannot be allocated. *)
Definition dfRequest (shape : GrShape) (scale : Q)
    : option (Z * Z * Pixels) :=
  let scaledBounds := scaleRect (bounds shape) scale in
  let dx := SkScalarFloorToScalar (fLeft scaledBounds) in
  let dy := SkScalarFloorToScalar (fTop scaledBounds) in
  let scaledBounds := offset scaledBounds (- dx) (- dy) in
  let devPathBounds := roundOut scaledBounds in
  let intPad := SkScalarCeilToInt kAntiAliasPad in
  let width := (iwidth devPathBounds + 2 * intPad)%Z in
  let height := (iheight devPathBounds + 2 * intPad)%Z in
  let devPathBounds := SkIRect_MakeWH width height in
  let translateX := inject_Z intPad - dx in
  let translateY := inject_Z intPad - dy in
  let drawMatrix := postTranslate (setScale scale scale) translateX translateY in
  let dfBounds :=
    makeOutset devPathBounds SK_DistanceFieldPad SK_DistanceFieldPad in
  let width := iwidth dfBounds in
  let height := iheight dfBounds in
  match GrGenerateDistanceFieldFromPath shape drawMatrix width height with
  | Some field => Some (width, height, field)
  | None =>
      if negb (tryAlloc (iwidth devPathBounds) (iheight devPathBounds))
      then None
      else Some (width, height,
                 SkGenerateDistanceFieldFromA8Image
                   (drawPathCoverage shape drawMatrix
                      (iwidth devPathBounds) (iheight devPathBounds)))
  end.

(** The key a turn of the loop looks up (lines 282-317, and 342). *)
Definition entryKey (fuel : nat) (op : SmallPathOp) (args : Entry)
    : option Key :=
  if fUsesDistanceField op then
    let maxDim :=
      SkMaxScalar (width (bounds (fShape args))) (height (bounds (fShape args))) in
    desired ← desiredDimension fuel (getMaxScale (fViewMatrix op)) maxDim;
    Some (keyOfDimension (fShape args) (SkScalarCeilToInt desired))
  else Some (keyOfMatrix (fShape args) (fViewMatrix op)).

(** The rendition the turn inserts when the lookup gives no usable
    record (lines 326-334, and 352-357). *)
Definition insertionRequest (fuel : nat) (op : SmallPathOp) (args : Entry)
    : option (Z * Z * Pixels) :=
  if fUsesDistanceField op then
    let maxDim :=
      SkMaxScalar (width (bounds (fShape args))) (height (bounds (fShape args))) in
    desired ← desiredDimension fuel (getMaxScale (fViewMatrix op)) maxDim;
    dfRequest (fShape args) (desired / maxDim)
  else bmRequest (fShape args) (fViewMatrix op).

(** *** [PathTestStruct] (lines 735-774)

    The structures of the renderer as the op test keeps them. *)
Record PathTestStruct := mkPathTestStruct {
  fContextID : Z;
  fAtlas : option Atlas;
  structures : Renderer
}.

(** The loop of [reset], lines 743-747: each record is unlinked from
    the list and deleted; the cache is not touched. *)
Fixpoint reset_loop (iter : list ptr) (r : Renderer) : option Renderer :=
  match iter with
  | [] => Some r
  | p :: iter' =>
      _ ← heap r !! p;
      reset_loop iter'
        {| fShapeCache := fShapeCache r;
           fShapeList := list_remove p (fShapeList r);
           heap := delete p (heap r) |}
  end.

(** [reset], lines 739-750. *)
Definition reset (this : PathTestStruct) : option PathTestStruct :=
  r ← reset_loop (fShapeList (structures this)) (structures this);
  Some {| fContextID := fContextID this;
          fAtlas := None;
          structures :=
            {| fShapeCache := ∅; fShapeList := fShapeList r; heap := heap r |} |}.

End Renderer.

End SmallPath.

(** ** Part III. The scalar arithmetic of the path renderer on binary32

    Where an answer of the renderer is decided by the last bit of a
    difference, a product or a logarithm, the exact arithmetic above
    says more than the code does.  The eligibility test, the choice of
    [mipScale] and the split of the translation are therefore embedded
    once more, on binary32 values, with every operation rounded as the
    code rounds it.  [log2f] and [powf] are the C library's and are
    parameters. *)

Module SmallPath32.
Import ColorSpace.

Definition SkScalar := float.

Definition fmul : float -> float -> float := SFmul prec emax.

Definition SkIntToScalar (n : Z) : float := of_Z_exp n 0.
Definition SK_Scalar1 : float := SkIntToScalar 1.
Definition SK_ScalarHalf : float := of_Z_exp 1 (-1).

Definition SkScalarAbs (x : float) : float := SFabs x.
Definition SkMinScalar (a b : float) : float := if flt a b then a else b.
Definition SkMaxScalar (a b : float) : float := if flt b a then a else b.
Definition SkScalarInvert (x : float) : float := fdiv SK_Scalar1 x.

(** The integer a finite value [(-1)^s * m * 2^e] is rounded down or
    up to. *)
Definition signed (s : bool) (m : positive) : Z :=
  if s then Z.neg m else Z.pos m.
Definition floorZ (s : bool) (m : positive) (e : Z) : Z :=
  if 0 <=? e then signed s m * 2 ^ e else signed s m / 2 ^ (- e).
Definition ceilZ (s : bool) (m : positive) (e : Z) : Z :=
  - floorZ (negb s) m e.

(** [floorf], [ceilf] and [truncf].  A value without fractional bits,
    an infinity and a NaN are returned as they are; any other value
    lies within 2^24 of zero, so the integer is a binary32 value and
    the result is exact.  A zero result keeps the sign of the
    argument. *)
Definition SkScalarFloorToScalar (x : float) : float :=
  match x with
  | S754_finite s m e =>
      if 0 <=? e then x else SkIntToScalar (floorZ s m e)
  | _ => x
  end.
Definition SkScalarCeilToScalar (x : float) : float :=
  match x with
  | S754_finite s m e =>
      if 0 <=? e then x
      else if ceilZ s m e =? 0 then S754_zero s
      else SkIntToScalar (ceilZ s m e)
  | _ => x
  end.
Definition SkScalarTruncToScalar (x : float) : float :=
  match x with
  | S754_finite true _ _ => SkScalarCeilToScalar x
  | _ => SkScalarFloorToScalar x
  end.
Definition SkScalarFraction (x : float) : float :=
  fsub x (SkScalarTruncToScalar x).

(** The rational a finite binary32 value denotes (0 for the others);
    it is used to state what a rounded result is compared with. *)
Definition toQ (x : float) : Q :=
  match x with
  | S754_finite s m e => (inject_Z (signed s m) * 2 ^ e)%Q
  | _ => 0%Q
  end.

(** mip levels *)
Definition kIdealMinMIP : float := SkIntToScalar 12.
Definition kMaxMIP : float := SkIntToScalar 162.

Definition kMaxDim : float := SkIntToScalar 73.
Definition kMinSize : float := SK_ScalarHalf.
Definition kMaxSize : float := fmul (SkIntToScalar 2) kMaxMIP.

Record SkRect := mkRect {
  fLeft : float; fTop : float; fRight : float; fBottom : float
}.

(** [SkRect::width()] and [height()]: [fRight - fLeft], [fBottom - fTop]. *)
Definition width (r : SkRect) : float := fsub (fRight r) (fLeft r).
Definition height (r : SkRect) : float := fsub (fBottom r) (fTop r).

Record SkVector := mkVector { fX : float; fY : float }.

(** The nine entries of [SkMatrix::fMat], in their order. *)
Record SkMatrix := mkMatrix {
  kMScaleX : float; kMSkewX : float; kMTransX : float;
  kMSkewY : float; kMScaleY : float; kMTransY : float;
  kMPersp0 : float; kMPersp1 : float; kMPersp2 : float
}.

Definition getTranslateX (m : SkMatrix) : float := kMTransX m.
Definition getTranslateY (m : SkMatrix) : float := kMTransY m.
Definition setTranslateX (m : SkMatrix) (v : float) : SkMatrix :=
  mkMatrix (kMScaleX m) (kMSkewX m) v
           (kMSkewY m) (kMScaleY m) (kMTransY m)
           (kMPersp0 m) (kMPersp1 m) (kMPersp2 m).
Definition setTranslateY (m : SkMatrix) (v : float) : SkMatrix :=
  mkMatrix (kMScaleX m) (kMSkewX m) (kMTransX m)
           (kMSkewY m) (kMScaleY m) v
           (kMPersp0 m) (kMPersp1 m) (kMPersp2 m).

(** What the scalar code reads off a [GrShape]. *)
Record GrShape := mkShape {
  hasUnstyledKey : bool;
  isSimpleFill : bool;
  inverseFilled : bool;
  bounds : SkRect;
  styledBounds : SkRect
}.

Inductive GrAAType := kNone | kCoverage | kMSAA | kMixedSamples.

#[export] Instance GrAAType32_eq_dec : EqDecision GrAAType.
Proof. solve_decision. Defined.

(** What lies beyond these sources. *)
Class ScalarCollaborators := {
  (** [SkMatrix] *)
  hasPerspective : SkMatrix -> bool;
  getMinMaxScales : SkMatrix -> option (float * float);
  (** [GrCaps] *)
  GrCaps : Type;
  shaderDerivativeSupport : GrCaps -> bool;
  (** [GrOp::setTransformedBounds] with [HasAABloat::kYes], and the
      platform switch of the constructor *)
  transformedBounds : SkRect -> SkMatrix -> SkRect;
  SK_BUILD_FOR_ANDROID_only : bool;
  (** [sk_float_log2] and [sk_float_pow] *)
  SkScalarLog2 : float -> float;
  SkScalarPow : float -> float -> float
}.

Section Renderer.
Context `{ScalarCollaborators}.

(** *** [onCanDrawPath], lines 84-124 *)

Record CanDrawPathArgs := mkCanDrawPathArgs {
  args_fCaps : GrCaps;
  args_fShape : GrShape;
  args_fAAType : GrAAType;
  args_fViewMatrix : SkMatrix
}.

Definition onCanDrawPath (args : CanDrawPathArgs) : bool :=
  if negb (shaderDerivativeSupport (args_fCaps args)) then false
  else if negb (hasUnstyledKey (args_fShape args)) then false
  else if negb (isSimpleFill (args_fShape args)) then false
  else if negb (bool_decide (kCoverage = args_fAAType args)) then false
  else if inverseFilled (args_fShape args) then false
  else if hasPerspective (args_fViewMatrix args) then false
  else
    match getMinMaxScales (args_fViewMatrix args) with
    | None => false
    | Some (scaleFactors0, scaleFactors1) =>
        let bounds := styledBounds (args_fShape args) in
        let minDim := SkMinScalar (width bounds) (height bounds) in
        let maxDim := SkMaxScalar (width bounds) (height bounds) in
        let minSize := fmul minDim (SkScalarAbs scaleFactors0) in
        let maxSize := fmul maxDim (SkScalarAbs scaleFactors1) in
        fle maxDim kMaxDim && fle kMinSize minSize && fle maxSize kMaxSize
    end.

(** *** The choice of [mipScale], lines 287-296 *)

Definition selectMipScale (maxScale : float) : float :=
  if fle maxScale SK_ScalarHalf then
    let log := SkScalarFloorToScalar (SkScalarLog2 (SkScalarInvert maxScale)) in
    SkScalarPow (SkIntToScalar 2) (SFopp log)
  else if flt SK_Scalar1 maxScale then
    let log := SkScalarCeilToScalar (SkScalarLog2 maxScale) in
    SkScalarPow (SkIntToScalar 2) log
  else SkIntToScalar 1.

(** [SkASSERT(maxScale <= mipScale)], line 296. *)
Definition mipScaleAssertion (maxScale : float) : bool :=
  fle maxScale (selectMipScale maxScale).

(** *** The translation of a bitmap-mode op *)

Record Entry := mkEntry {
  fColor : SmallPath.GrColor;
  fShape : GrShape;
  fTranslate : SkVector
}.

(** The fields of the op that the constructor computes from the
    shape and the matrix. *)
Record SmallPathOp := mkOp {
  fViewMatrix : SkMatrix;
  fUsesDistanceField : bool;
  fShapes0 : Entry;
  opBounds : SkRect
}.

(** The constructor, lines 152-188. *)
Definition SmallPathOp_new (color : SmallPath.GrColor) (shape : GrShape)
    (viewMatrix : SkMatrix) : SmallPathOp :=
  let opBounds := transformedBounds (bounds shape) viewMatrix in
  let usesDistanceField :=
    if SK_BUILD_FOR_ANDROID_only then true
    else flt kMaxMIP (width opBounds) || flt kMaxMIP (height opBounds) in
  let '(storedMatrix, translate) :=
    if negb usesDistanceField then
      let translateX := getTranslateX viewMatrix in
      let translateY := getTranslateY viewMatrix in
      let translate := mkVector (SkScalarFloorToScalar translateX)
                                (SkScalarFloorToScalar translateY) in
      (setTranslateY
         (setTranslateX viewMatrix (fsub translateX (fX translate)))
         (fsub translateY (fY translate)),
       translate)
    else (viewMatrix, mkVector zero zero) in
  {| fViewMatrix := storedMatrix;
     fUsesDistanceField := usesDistanceField;
     fShapes0 := mkEntry color shape translate;
     opBounds := opBounds |}.

(** The matrix [addBMPathToAtlas] rasterizes the path with, before
    the move to the origin (lines 509-511). *)
Definition bitmapDrawMatrix (ctm : SkMatrix) : SkMatrix :=
  let drawMatrix := ctm in
  let drawMatrix :=
    setTranslateX drawMatrix (SkScalarFraction (getTranslateX ctm)) in
  setTranslateY drawMatrix (SkScalarFraction (getTranslateY ctm)).

(** What [writePathVertices] reads off a [ShapeData]. *)
Record ShapeData := mkShapeData {
  fBounds : SkRect;
  fTextureCoords : SmallPath.SkIRect
}.

Record Vertex := mkVertex {
  position : float * float;
  color : SmallPath.GrColor;
  textureCoords : Z * Z
}.

(** [writePathVertices], lines 591-639. *)
Definition writePathVertices (color : SmallPath.GrColor)
    (preTranslate : SkVector) (shapeData : ShapeData) : list Vertex :=
  let bounds := fBounds shapeData in
  let left := fadd (fLeft bounds) (fX preTranslate) in
  let top := fadd (fTop bounds) (fY preTranslate) in
  let right := fadd (fRight bounds) (fX preTranslate) in
  let bottom := fadd (fBottom bounds) (fY preTranslate) in
  let l := SmallPath.to_uint16 (SmallPath.iLeft (fTextureCoords shapeData)) in
  let t := SmallPath.to_uint16 (SmallPath.iTop (fTextureCoords shapeData)) in
  let r := SmallPath.to_uint16 (SmallPath.iRight (fTextureCoords shapeData)) in
  let b := SmallPath.to_uint16 (SmallPath.iBottom (fTextureCoords shapeData)) in
  [ mkVertex (left, top) color (l, t);
    mkVertex (left, bottom) color (l, b);
    mkVertex (right, bottom) color (r, b);
    mkVertex (right, top) color (r, t) ].

End Renderer.

End SmallPath32.

(** ** A concrete set of collaborators

    Simple stand-ins on which the statements below can be evaluated: a
    matrix is looked at entry by entry, the draw-op helper is reduced to
    whether it uses local coordinates, every rasterization succeeds, and
    the atlas answers from a script. *)

Module Reference.
Import SmallPath.
#[local] Open Scope Q_scope.

Definition scaleTranslate (s tx ty : Q) : SkMatrix :=
  mkMatrix s 0 tx 0 s ty 0 0 1.

Definition matrixWords (m : SkMatrix) : list Z :=
  flat_map (fun q : Q => [Qnum (Qred q); Zpos (Qden (Qred q))])
    [kMScaleX m; kMSkewX m; kMTransX m; kMSkewY m; kMScaleY m; kMTransY m;
     kMPersp0 m; kMPersp1 m; kMPersp2 m].

Definition entrywiseEqual (a b : SkMatrix) : bool :=
  Qeq_bool (kMScaleX a) (kMScaleX b) && Qeq_bool (kMSkewX a) (kMSkewX b) &&
  Qeq_bool (kMTransX a) (kMTransX b) && Qeq_bool (kMSkewY a) (kMSkewY b) &&
  Qeq_bool (kMScaleY a) (kMScaleY b) && Qeq_bool (kMTransY a) (kMTransY b) &&
  Qeq_bool (kMPersp0 a) (kMPersp0 b) && Qeq_bool (kMPersp1 a) (kMPersp1 b) &&
  Qeq_bool (kMPersp2 a) (kMPersp2 b).

Definition perspective (m : SkMatrix) : bool :=
  negb (Qeq_bool (kMPersp0 m) 0 && Qeq_bool (kMPersp1 m) 0 &&
        Qeq_bool (kMPersp2 m) 1).

Definition axisAligned (m : SkMatrix) : bool :=
  Qeq_bool (kMSkewX m) 0 && Qeq_bool (kMSkewY m) 0 && negb (perspective m).

(** The scale factors of a matrix without skew. *)
Definition axisScales (m : SkMatrix) : option (Q * Q) :=
  if axisAligned m
  then Some (Qmin (Qabs (kMScaleX m)) (Qabs (kMScaleY m)),
             Qmax (Qabs (kMScaleX m)) (Qabs (kMScaleY m)))
  else None.

(** The bounds of the four mapped corners of a rectangle, for a matrix
    without perspective. *)
Definition affineMapRect (m : SkMatrix) (r : SkRect) : SkRect :=
  let px x y := kMScaleX m * x + kMSkewX m * y + kMTransX m in
  let py x y := kMSkewY m * x + kMScaleY m * y + kMTransY m in
  let xs := [px (fLeft r) (fTop r); px (fRight r) (fTop r);
             px (fLeft r) (fBottom r); px (fRight r) (fBottom r)] in
  let ys := [py (fLeft r) (fTop r); py (fRight r) (fTop r);
             py (fLeft r) (fBottom r); py (fRight r) (fBottom r)] in
  mkRect (foldr Qmin (px (fLeft r) (fTop r)) xs)
         (foldr Qmin (py (fLeft r) (fTop r)) ys)
         (foldr Qmax (px (fLeft r) (fTop r)) xs)
         (foldr Qmax (py (fLeft r) (fTop r)) ys).

Definition outsetHalf (r : SkRect) : SkRect :=
  mkRect (fLeft r - (1 # 2)) (fTop r - (1 # 2))
         (fRight r + (1 # 2)) (fBottom r + (1 # 2)).

Definition unionRect (a b : SkRect) : SkRect :=
  mkRect (Qmin (fLeft a) (fLeft b)) (Qmin (fTop a) (fTop b))
         (Qmax (fRight a) (fRight b)) (Qmax (fBottom a) (fBottom b)).

Definition withinTolerance (a b : SkVector) : bool :=
  Qle_bool (Qabs (fX a - fX b)) (1 # 4096) &&
  Qle_bool (Qabs (fY a - fY b)) (1 # 4096).

(** An atlas that answers from a script: each call consumes the next
    answer, the regions to evict and the place found, and an exhausted
    script has no room left. *)
Definition Script := list (list AtlasID * option (AtlasID * SkIPoint16)).

Definition scripted (a : Script) (drawsSoFar : nat) (w h : Z) (data : unit)
    : Script * list AtlasID * option (AtlasID * SkIPoint16) :=
  match a with
  | [] => ([], [], None)
  | (evicted, found) :: a' => (a', evicted, found)
  end.

#[export] Instance collaborators : Collaborators := {|
  Key := list Z;
  keyOfDimension shape dim := [0; shapeGenID shape; dim]%Z;
  keyOfMatrix shape ctm := (1 :: shapeGenID shape :: matrixWords ctm)%Z;
  hasPerspective := perspective;
  getMinMaxScales := axisScales;
  getMaxScale m := match axisScales m with Some (_, s) => s | None => -1 end;
  mapRect := affineMapRect;
  invert m := if axisAligned m then Some m else None;
  cheapEqualTo := entrywiseEqual;
  equalsWithinTolerance := withinTolerance;
  Helper := bool;
  GrCaps := bool;
  shaderDerivativeSupport caps := caps;
  isCompatible a b _ _ _ := eqb a b;
  usesLocalCoords h := h;
  transformedBounds r m := outsetHalf (affineMapRect m r);
  joinBounds := unionRect;
  SK_BUILD_FOR_ANDROID_only := false;
  Pixels := unit;
  SK_DistanceFieldPad := 4%Z;
  GrGenerateDistanceFieldFromPath _ _ _ _ := Some tt;
  tryAlloc _ _ := true;
  drawPathCoverage _ _ _ _ := tt;
  SkGenerateDistanceFieldFromA8Image d := d;
  Atlas := Script;
  addToAtlas := scripted;
  hasID _ _ := true;
  setLastUseToken a _ _ := a
|}.

Definition square (side : Q) (gen : Z) : GrShape :=
  mkShape true true false (mkRect 0 0 side side) (mkRect 0 0 side side) gen.

Definition emptyRenderer : Renderer := mkRenderer ∅ [] ∅.

(** Nothing cached, nothing drawn, and an index buffer of 1200 bytes. *)
Definition emptyWorld (a : Script) : World :=
  mkWorld emptyRenderer a [] [] (mkFlushInfo 1200 0 0) [].

(** Two records in region 5 and one in region 6. *)
Definition threeRecords : Renderer :=
  let unit := mkRect 0 0 1 1 in
  let place := mkIRect 0 0 1 1 in
  {| fShapeCache := {[ [0; 1; 16]%Z := 1%positive; [0; 2; 16]%Z := 2%positive;
                       [0; 3; 16]%Z := 3%positive ]};
     fShapeList := [1; 2; 3]%positive;
     heap := {[ 1%positive := mkShapeData [0; 1; 16]%Z 5%Z unit place;
                2%positive := mkShapeData [0; 2; 16]%Z 6%Z unit place;
                3%positive := mkShapeData [0; 3; 16]%Z 5%Z unit place ]} |}.

End Reference.

(** ** Stand-ins for the binary32 embedding

    Matrices that scale and translate along the axes, and a logarithm
    and a power that are exact wherever the result is a binary32
    value. *)

Module Reference32.
Import ColorSpace SmallPath32.

Definition scaleTranslate (s tx ty : float) : SkMatrix :=
  mkMatrix s zero tx zero s ty zero zero one.

Definition axisScales (m : SkMatrix) : option (float * float) :=
  Some (SkMinScalar (SkScalarAbs (kMScaleX m)) (SkScalarAbs (kMScaleY m)),
        SkMaxScalar (SkScalarAbs (kMScaleX m)) (SkScalarAbs (kMScaleY m))).

(** The bounds of a rectangle under a matrix of [scaleTranslate], with
    a positive scale. *)
Definition scaleTranslateRect (r : SkRect) (m : SkMatrix) : SkRect :=
  mkRect (fadd (fmul (kMScaleX m) (fLeft r)) (kMTransX m))
         (fadd (fmul (kMScaleY m) (fTop r)) (kMTransY m))
         (fadd (fmul (kMScaleX m) (fRight r)) (kMTransX m))
         (fadd (fmul (kMScaleY m) (fBottom r)) (kMTransY m)).

(** A logarithm with the fractional part taken along the chord:
    [k + (x / 2^k - 1)] for [2^k <= x < 2^(k+1)].  It is exact at the
    powers of two, and at 16 + 2^-19 it gives 4, as the correctly
    rounded logarithm does. *)
Definition chordLog2 (x : float) : float :=
  match x with
  | S754_finite false m e =>
      let k := (Z.log2 (Z.pos m) + e)%Z in
      fadd (SkIntToScalar k)
           (fsub (SFldexp prec emax x (- k)) (SkIntToScalar 1))
  | _ => S754_nan
  end.

(** Two to an integral power. *)
Definition powerOfTwo (base exponent : float) : float :=
  match exponent with
  | S754_zero _ => SkIntToScalar 1
  | S754_finite s m e => of_Z_exp 1 (floorZ s m e)
  | _ => S754_nan
  end.

#[export] Instance scalarCollaborators : ScalarCollaborators := {|
  hasPerspective m :=
    negb (feq (kMPersp0 m) zero && feq (kMPersp1 m) zero && feq (kMPersp2 m) one);
  getMinMaxScales := axisScales;
  GrCaps := bool;
  shaderDerivativeSupport caps := caps;
  transformedBounds := scaleTranslateRect;
  SK_BUILD_FOR_ANDROID_only := false;
  SkScalarLog2 := chordLog2;
  SkScalarPow := powerOfTwo
|}.

Definition square (side : float) : GrShape :=
  mkShape true true false (mkRect zero zero side side)
          (mkRect zero zero side side).

End Reference32.

(** ** Theorems *)

Section ColorSpaceFacts.
Import ColorSpace.

Lemma add_epsilon_one_rounds_to_one : add_epsilon one = one.
Proof. vm_compute. reflexivity. Qed.

Lemma srgb_coefficients_valid c :
  is_valid_transfer_fn (snd (named_to_parametric c kSRGB_SkGammaNamed)) = true.
Proof. vm_compute. reflexivity. Qed.

Lemma gamma2dot2_coefficients_valid c :
  is_valid_transfer_fn (snd (named_to_parametric c k2Dot2Curve_SkGammaNamed)) = true.
Proof. vm_compute. reflexivity. Qed.

(** C10.  The coefficient set written for [kLinear_SkGammaNamed] is
    refused by [is_valid_transfer_fn]: its [fD] is at least 1, so the
    check of the linear segment reads [fE], which is 0, although the
    slope of the linear curve was stored in [fC]. *)
Theorem linear_coefficients_rejected c :
  named_to_parametric c kLinear_SkGammaNamed =
    (true, {| fA := zero; fB := zero; fC := one; fD := add_epsilon one;
              fE := zero; fF := zero; fG := zero |}) /\
  is_valid_transfer_fn (snd (named_to_parametric c kLinear_SkGammaNamed)) = false.
Proof. split; vm_compute; reflexivity. Qed.

End ColorSpaceFacts.

(** *** Scalars and the distance-field resolution *)

Section MipFacts.
Import SmallPath.
#[local] Open Scope Q_scope.

Lemma Qltb_lt x y : Qltb x y = true <-> x < y.
Proof.
  unfold Qltb. rewrite negb_true_iff, <- not_true_iff_false, Qle_bool_iff.
  split; [apply Qnot_le_lt | apply Qlt_not_le].
Qed.

Lemma Qltb_ge x y : Qltb x y = false <-> y <= x.
Proof.
  unfold Qltb. rewrite negb_false_iff. apply Qle_bool_iff.
Qed.

Lemma Qltb_compat x x' y y' : x == x' -> y == y' -> Qltb x y = Qltb x' y'.
Proof.
  intros Hx Hy.
  destruct (Qltb x y) eqn:E; symmetry.
  - apply Qltb_lt. apply Qltb_lt in E. now rewrite <- Hx, <- Hy.
  - apply Qltb_ge. apply Qltb_ge in E. now rewrite <- Hx, <- Hy.
Qed.

Lemma SkTMin_le_r a b : SkTMin a b <= b.
Proof.
  unfold SkTMin. destruct (Qltb a b) eqn:E.
  - apply Qltb_lt in E. lra.
  - lra.
Qed.

Lemma SkTMin_mono a a' b : a <= a' -> SkTMin a b <= SkTMin a' b.
Proof.
  intros H. unfold SkTMin.
  destruct (Qltb a b) eqn:E, (Qltb a' b) eqn:E';
    rewrite ?Qltb_lt, ?Qltb_ge in *; lra.
Qed.

(** **** Fuel *)

Lemma double_loop_fuel f : forall f' x r,
  double_loop f x = Some r -> (f <= f')%nat -> double_loop f' x = Some r.
Proof.
  induction f as [|f IH]; intros f' x r H Hle; [discriminate|].
  destruct f' as [|f']; [lia|]. simpl in *.
  destruct (Qltb (x * 2) kIdealMinMIP); [|exact H].
  apply IH; [exact H | lia].
Qed.

Lemma quarter_loop_fuel f : forall f' b x r,
  quarter_loop f b x = Some r -> (f <= f')%nat -> quarter_loop f' b x = Some r.
Proof.
  induction f as [|f IH]; intros f' b x r H Hle; [discriminate|].
  destruct f' as [|f']; [lia|]. simpl in *.
  destruct (Qltb (4 * b) x); [|exact H].
  apply IH; [exact H | lia].
Qed.

Lemma adjustMipSize_fuel f f' m r :
  adjustMipSize f m = Some r -> (f <= f')%nat -> adjustMipSize f' m = Some r.
Proof.
  unfold adjustMipSize. intros H Hle.
  destruct (Qltb m kIdealMinMIP); [|exact H].
  destruct (double_loop f m) as [n|] eqn:E; [|discriminate].
  rewrite (double_loop_fuel f f' m n E Hle). simpl in *.
  now apply (quarter_loop_fuel f).
Qed.

(** **** Powers of two *)

Lemma pow2_pos n : 0 < pow2 n.
Proof. apply Qpower_0_lt. reflexivity. Qed.

Lemma pow2_succ n : pow2 (Z.succ n) == 2 * pow2 n.
Proof.
  unfold pow2, Z.succ. rewrite Qpower_plus by discriminate.
  rewrite Qpower_1_r. ring.
Qed.

Lemma pow2_le n m : (n <= m)%Z -> pow2 n <= pow2 m.
Proof. intros H. apply Qpower_le_compat_l; [exact H | discriminate]. Qed.

Lemma pow2_le_inv n m : pow2 n <= pow2 m -> (n <= m)%Z.
Proof. intros H. apply (Qpower_le_compat_l_inv 2); [exact H | reflexivity]. Qed.

Lemma pow2_inject n : (0 <= n)%Z -> pow2 n == inject_Z (2 ^ n).
Proof. intros H. unfold pow2. now rewrite Zpower_Qpower. Qed.

Lemma pow2_opp n : pow2 (- n) == / pow2 n.
Proof. apply Qpower_opp. Qed.

(** Every scalar is below some power of two. *)
Lemma pow2_archimedean q : exists k : nat, q < pow2 (Z.of_nat k).
Proof.
  destruct (Qarchimedean_power2_pos q) as [p Hp].
  exists (Pos.to_nat p).
  rewrite positive_nat_Z, pow2_inject by lia.
  rewrite Pos2Z.inj_pow in Hp. exact Hp.
Qed.

(** **** The two loops end on a positive size *)

Lemma pow2_nat_succ k : pow2 (Z.of_nat (S k)) == 2 * pow2 (Z.of_nat k).
Proof. rewrite Nat2Z.inj_succ. apply pow2_succ. Qed.

Lemma double_loop_runs k : forall x,
  0 < x -> kIdealMinMIP <= x * pow2 (Z.of_nat (S k)) ->
  exists r, double_loop (S k) x = Some r /\ kIdealMinMIP <= r.
Proof.
  induction k as [|k IH]; intros x Hx Hb; cbn [double_loop];
    destruct (Qltb (x * 2) kIdealMinMIP) eqn:E.
  - apply Qltb_lt in E. change (pow2 (Z.of_nat 1)) with 2 in Hb. lra.
  - apply Qltb_ge in E. eauto.
  - apply IH; [lra|]. rewrite pow2_nat_succ in Hb. lra.
  - apply Qltb_ge in E. eauto.
Qed.

Lemma double_loop_total x :
  0 < x -> exists f r, double_loop f x = Some r /\ kIdealMinMIP <= r.
Proof.
  intros Hx. destruct (pow2_archimedean (kIdealMinMIP / x)) as [k Hk].
  exists (S k). apply double_loop_runs; [exact Hx|].
  rewrite pow2_nat_succ.
  assert (Hp := pow2_pos (Z.of_nat k)).
  assert (H12 : kIdealMinMIP == kIdealMinMIP / x * x) by (field; lra).
  assert (kIdealMinMIP / x * x < pow2 (Z.of_nat k) * x)
    by (apply Qmult_lt_compat_r; assumption).
  nra.
Qed.

Lemma quarter_loop_runs k : forall b x,
  0 < b -> x <= 4 * b * pow2 (Z.of_nat k) ->
  exists r, quarter_loop (S k) b x = Some r.
Proof.
  induction k as [|k IH]; intros b x Hb Hx; cbn [quarter_loop];
    destruct (Qltb (4 * b) x) eqn:E.
  - apply Qltb_lt in E. change (pow2 (Z.of_nat 0)) with 1 in Hx. lra.
  - eauto.
  - apply IH; [exact Hb|]. rewrite pow2_nat_succ in Hx.
    assert (Hp := pow2_pos (Z.of_nat k)). nra.
  - eauto.
Qed.

Lemma quarter_loop_total b x :
  0 < b -> exists f r, quarter_loop f b x = Some r.
Proof.
  intros Hb. destruct (pow2_archimedean (x / (4 * b))) as [k Hk].
  exists (S k). apply quarter_loop_runs; [exact Hb|].
  assert (Hx : x == x / (4 * b) * (4 * b)) by (field; lra).
  assert (x / (4 * b) * (4 * b) < pow2 (Z.of_nat k) * (4 * b))
    by (apply Qmult_lt_compat_r; [lra | assumption]).
  nra.
Qed.

(** The second loop leaves at most four times the original size, and
    never more than it was given. *)
Lemma quarter_loop_le f : forall b x r,
  quarter_loop f b x = Some r -> r <= 4 * b.
Proof.
  induction f as [|f IH]; intros b x r H; [discriminate|].
  cbn [quarter_loop] in H. destruct (Qltb (4 * b) x) eqn:E.
  - eauto.
  - apply Qltb_ge in E. now inversion H; subst.
Qed.

Lemma quarter_loop_le_input f : forall b x r,
  0 <= x -> quarter_loop f b x = Some r -> r <= x.
Proof.
  induction f as [|f IH]; intros b x r Hx H; [discriminate|].
  cbn [quarter_loop] in H. destruct (Qltb (4 * b) x) eqn:E.
  - apply IH in H; lra.
  - inversion H; subst. lra.
Qed.

Lemma adjustMipSize_total m :
  0 < m -> exists f r, adjustMipSize f m = Some r.
Proof.
  intros Hm. unfold adjustMipSize.
  destruct (Qltb m kIdealMinMIP); [|exists O; eauto].
  destruct (double_loop_total m Hm) as (f1 & n & Hn & _).
  destruct (quarter_loop_total m n Hm) as (f2 & r & Hr).
  exists (f1 + f2)%nat, r.
  rewrite (double_loop_fuel f1 (f1 + f2) m n Hn) by lia. simpl.
  apply (quarter_loop_fuel f2); [exact Hr | lia].
Qed.

Lemma adjustMipSize_le f m r :
  0 < m -> adjustMipSize f m = Some r -> r <= 4 * m.
Proof.
  unfold adjustMipSize. intros Hm H.
  destruct (Qltb m kIdealMinMIP).
  - destruct (double_loop f m) as [n|]; [|discriminate].
    simpl in H. now apply quarter_loop_le in H.
  - inversion H; subst. lra.
Qed.

(** What the loops compute: the first ends on [mipSize * 2^k] with
    [k >= 1], and the second takes factors of 4 away until one factor of
    2 or two are left. *)
Lemma double_loop_pow f : forall m x r (j : nat),
  x == m * pow2 (Z.of_nat j) -> double_loop f x = Some r ->
  exists k : nat, (j < k)%nat /\ r == m * pow2 (Z.of_nat k).
Proof.
  induction f as [|f IH]; intros m x r j Hx H; [discriminate|].
  cbn [double_loop] in H.
  assert (Hx2 : x * 2 == m * pow2 (Z.of_nat (S j)))
    by (rewrite pow2_nat_succ, Hx; ring).
  destruct (Qltb (x * 2) kIdealMinMIP).
  - destruct (IH m (x * 2) r (S j) Hx2 H) as (k & Hk & Hr).
    exists k. split; [lia | exact Hr].
  - inversion H; subst. exists (S j). split; [lia | exact Hx2].
Qed.

Lemma quarter_loop_pow f : forall m x r (j : nat),
  0 < m -> (1 <= j)%nat -> x == m * pow2 (Z.of_nat j) ->
  quarter_loop f m x = Some r ->
  r == 2 * m \/ r == 4 * m.
Proof.
  induction f as [|f IH]; intros m x r j Hm Hj Hx H; [discriminate|].
  cbn [quarter_loop] in H.
  destruct (Qltb (4 * m) x) eqn:E.
  - apply Qltb_lt in E.
    destruct j as [|[|[|j]]]; [lia | | |].
    + change (pow2 (Z.of_nat 1)) with 2 in Hx. lra.
    + change (pow2 (Z.of_nat 2)) with 4 in Hx. lra.
    + apply (IH m (x * (1 # 4)) r (S j)); [exact Hm | lia | | exact H].
      rewrite Hx, (pow2_nat_succ (S (S j))), (pow2_nat_succ (S j)). ring.
  - apply Qltb_ge in E. inversion H; subst r.
    destruct j as [|[|[|j]]]; [lia | | |].
    + left. rewrite Hx. change (pow2 (Z.of_nat 1)) with 2. ring.
    + right. rewrite Hx. change (pow2 (Z.of_nat 2)) with 4. ring.
    + exfalso.
      assert (Hp : pow2 3 <= pow2 (Z.of_nat (S (S (S j)))))
        by (apply pow2_le; lia).
      change (pow2 3) with 8 in Hp. nra.
Qed.

Lemma adjustMipSize_two_or_four f m r :
  0 < m -> m < kIdealMinMIP -> adjustMipSize f m = Some r ->
  r == 2 * m \/ r == 4 * m.
Proof.
  intros Hm Hlt H. unfold adjustMipSize in H.
  assert (E : Qltb m kIdealMinMIP = true) by now apply Qltb_lt.
  rewrite E in H.
  destruct (double_loop f m) as [n|] eqn:D; [|discriminate]. cbn in H.
  destruct (double_loop_pow f m m n 0) as (k & Hk & Hn); [|exact D|].
  { change (pow2 (Z.of_nat 0)) with 1. ring. }
  apply (quarter_loop_pow f m n r k); [exact Hm | lia | exact Hn | exact H].
Qed.

(** C4.  On a positive [mipSize] the double-then-quarter adjustment
    ends, and the size it leaves is at most four times the size it
    started from: a size below [kIdealMinMIP] comes out doubled or
    quadrupled, any other size as it went in. *)
Theorem mip_magnification_bound (mipSize : Q) :
  0 < mipSize ->
  exists fuel r,
    (forall fuel', (fuel <= fuel')%nat ->
       adjustMipSize fuel' mipSize = Some r) /\
    r <= 4 * mipSize /\
    (mipSize < kIdealMinMIP -> r == 2 * mipSize \/ r == 4 * mipSize) /\
    (kIdealMinMIP <= mipSize -> r = mipSize).
Proof.
  intros Hm. destruct (adjustMipSize_total mipSize Hm) as (f & r & Hr).
  exists f, r. split; [|split; [|split]].
  - intros f' Hle. now apply (adjustMipSize_fuel f).
  - now apply (adjustMipSize_le f).
  - intros Hlt. now apply (adjustMipSize_two_or_four f).
  - intros Hge. unfold adjustMipSize in Hr.
    assert (E : Qltb mipSize kIdealMinMIP = false) by now apply Qltb_ge.
    rewrite E in Hr. congruence.
Qed.

Lemma mip_magnification_bound_witness :
  exists fuel r,
    (forall fuel', (fuel <= fuel')%nat ->
       adjustMipSize fuel' (3 # 4) = Some r) /\
    r <= 4 * (3 # 4) /\
    (3 # 4 < kIdealMinMIP -> r == 2 * (3 # 4) \/ r == 4 * (3 # 4)) /\
    (kIdealMinMIP <= 3 # 4 -> r = 3 # 4).
Proof. apply (mip_magnification_bound (3 # 4)). reflexivity. Defined.

(** **** The scale of the distance field *)

Lemma Qinv_le_swap s p : 0 < s -> 0 < p -> p <= / s -> s <= / p.
Proof.
  intros Hs Hp H.
  assert (Hs1 : / s * s == 1) by (field; lra).
  assert (Hp1 : / p * p == 1) by (field; lra).
  assert (Hip : 0 < / p) by now apply Qinv_lt_0_compat.
  assert (p * s <= 1) by nra.
  nra.
Qed.

Lemma inject_Z_le_floor (z : Z) q : inject_Z z <= q -> (z <= Qfloor q)%Z.
Proof. intros H. rewrite <- (Qfloor_Z z). now apply Qfloor_resp_le. Qed.

Lemma ceiling_le_inject_Z (z : Z) q : q <= inject_Z z -> (Qceiling q <= z)%Z.
Proof. intros H. rewrite <- (Qceiling_Z z). now apply Qceiling_resp_le. Qed.

(** Below one half: [2^-floor(log2(1/maxScale))]. *)
Lemma selectMipScale_small s :
  0 < s -> s <= 1 # 2 ->
  let n := (- floor_log2 (/ s))%Z in
  selectMipScale s = pow2 n /\ s <= pow2 n /\
  forall k, s <= pow2 k -> (n <= k)%Z.
Proof.
  intros Hs Hh n. unfold selectMipScale, SK_ScalarHalf.
  assert (E1 : Qle_bool s (1 # 2) = true) by now apply Qle_bool_iff.
  assert (E2 : Qeq_bool s 0 = false).
  { apply not_true_iff_false. rewrite Qeq_bool_iff. lra. }
  rewrite E1, E2. split; [reflexivity|].
  assert (Hinv : 2 <= / s).
  { apply (Qinv_le_swap 2 s) in Hs; [exact Hs | lra |].
    change (/ 2) with (1 # 2). exact Hh. }
  set (a := Qfloor (/ s)) in *.
  assert (Ha : (2 <= a)%Z) by (apply (inject_Z_le_floor 2); exact Hinv).
  subst n. unfold floor_log2. fold a.
  destruct (Z.log2_spec a ltac:(lia)) as [Hlo Hhi].
  assert (HL := Z.log2_nonneg a).
  split.
  - rewrite pow2_opp. apply Qinv_le_swap; [exact Hs | apply pow2_pos |].
    rewrite pow2_inject by exact HL.
    apply Qle_trans with (inject_Z a); [now rewrite <- Zle_Qle | apply Qfloor_le].
  - intros k Hk.
    destruct (Z_le_gt_dec (- Z.log2 a) k) as [?|Hgt]; [assumption|exfalso].
    assert (Hpk : pow2 (Z.succ (Z.log2 a)) <= pow2 (- k)) by (apply pow2_le; lia).
    rewrite pow2_opp, pow2_inject in Hpk by lia.
    assert (Hsk : / pow2 k <= / s).
    { apply Qinv_le_swap; [| exact Hs |].
      - apply Qinv_lt_0_compat, pow2_pos.
      - now rewrite Qinv_involutive. }
    assert (Hfl : (2 ^ Z.succ (Z.log2 a) <= a)%Z).
    { apply inject_Z_le_floor. lra. }
    lia.
Qed.

(** Above one: [2^ceil(log2(maxScale))]. *)
Lemma selectMipScale_large s :
  1 < s ->
  let n := ceil_log2 s in
  selectMipScale s = pow2 n /\ s <= pow2 n /\
  forall k, s <= pow2 k -> (n <= k)%Z.
Proof.
  intros Hs n. unfold selectMipScale, SK_ScalarHalf, SK_Scalar1.
  assert (E1 : Qle_bool s (1 # 2) = false).
  { apply not_true_iff_false. rewrite Qle_bool_iff. lra. }
  assert (E2 : Qltb 1 s = true) by now apply Qltb_lt.
  rewrite E1, E2. split; [reflexivity|].
  subst n. unfold ceil_log2. set (a := Qceiling s).
  assert (Hsa : s <= inject_Z a) by apply Qle_ceiling.
  assert (Ha : (1 < a)%Z).
  { rewrite Zlt_Qlt. change (inject_Z 1) with 1. lra. }
  assert (HU := Z.log2_up_nonneg a).
  destruct (Z.log2_up_spec a Ha) as [_ Hup].
  split.
  - rewrite pow2_inject by exact HU.
    apply Qle_trans with (inject_Z a); [exact Hsa | now rewrite <- Zle_Qle].
  - intros k Hk.
    assert (Hk0 : (0 <= k)%Z).
    { destruct (Z_le_gt_dec 0 k) as [?|Hneg]; [assumption|exfalso].
      assert (pow2 k <= pow2 0) by (apply pow2_le; lia).
      change (pow2 0) with 1 in *. lra. }
    rewrite pow2_inject in Hk by exact Hk0.
    apply Z.log2_up_le_pow2; [lia|].
    now apply ceiling_le_inject_Z.
Qed.

(** Between one half and one the scale stays 1. *)
Lemma selectMipScale_unit s :
  1 # 2 < s -> s <= 1 ->
  selectMipScale s = 1 /\ forall k, s <= pow2 k -> (0 <= k)%Z.
Proof.
  intros Hlo Hhi. unfold selectMipScale, SK_ScalarHalf, SK_Scalar1.
  assert (E1 : Qle_bool s (1 # 2) = false).
  { apply not_true_iff_false. rewrite Qle_bool_iff. lra. }
  assert (E2 : Qltb 1 s = false) by now apply Qltb_ge.
  rewrite E1, E2. split; [reflexivity|].
  intros k Hk.
  destruct (Z_le_gt_dec 0 k) as [?|Hneg]; [assumption|exfalso].
  assert (H : pow2 k <= pow2 (-1)) by (apply pow2_le; lia).
  change (pow2 (-1)) with (/ 2) in H. change (/ 2) with (1 # 2) in H. lra.
Qed.

(** With an exact logarithm, [maxScale = 3/8] gives 1/2: its
    reciprocal 2 is not below 3/8, and 1/2 is not the reciprocal of
    the least power of two whose reciprocal is below 3/8 either (that
    power is 4). *)
Lemma mipScale_reciprocal_counterexample :
  selectMipScale (3 # 8) == 1 # 2 /\
  ~ / selectMipScale (3 # 8) <= 3 # 8 /\
  (/ 4 <= 3 # 8 /\ ~ / 2 <= 3 # 8 /\ ~ selectMipScale (3 # 8) == / 4).
Proof. vm_compute. intuition discriminate. Qed.

(** **** The adjustment is monotone along doublings *)

Lemma double_loop_compat f : forall x y r,
  x == y -> double_loop f x = Some r ->
  exists r', double_loop f y = Some r' /\ r == r'.
Proof.
  induction f as [|f IH]; intros x y r Hxy H; [discriminate|].
  cbn [double_loop] in *.
  rewrite <- (Qltb_compat (x * 2) (y * 2) kIdealMinMIP kIdealMinMIP)
    by (rewrite ?Hxy; reflexivity).
  destruct (Qltb (x * 2) kIdealMinMIP).
  - apply (IH (x * 2)); [now rewrite Hxy | exact H].
  - inversion H; subst. exists (y * 2). split; [reflexivity | now rewrite Hxy].
Qed.

Lemma quarter_loop_compat f : forall b b' x y r,
  b == b' -> x == y -> quarter_loop f b x = Some r ->
  exists r', quarter_loop f b' y = Some r' /\ r == r'.
Proof.
  induction f as [|f IH]; intros b b' x y r Hb Hxy H; [discriminate|].
  cbn [quarter_loop] in *.
  rewrite <- (Qltb_compat (4 * b) (4 * b') x y)
    by (rewrite ?Hb, ?Hxy; reflexivity).
  destruct (Qltb (4 * b) x).
  - apply (IH b b' (x * (1 # 4))); [exact Hb | now rewrite Hxy | exact H].
  - inversion H; subst. exists y. split; [reflexivity | exact Hxy].
Qed.

Lemma adjustMipSize_compat f m m' r :
  m == m' -> adjustMipSize f m = Some r ->
  exists r', adjustMipSize f m' = Some r' /\ r == r'.
Proof.
  unfold adjustMipSize. intros Hm H.
  rewrite <- (Qltb_compat m m' kIdealMinMIP kIdealMinMIP) by (rewrite ?Hm; reflexivity).
  destruct (Qltb m kIdealMinMIP).
  - destruct (double_loop f m) as [n|] eqn:E; [|discriminate]. simpl in H.
    destruct (double_loop_compat f m m' n Hm E) as (n' & E' & Hn).
    rewrite E'. simpl. now apply (quarter_loop_compat f m m' n n').
  - inversion H; subst. eauto.
Qed.

Lemma adjustMipSize_det f f' m r r' :
  adjustMipSize f m = Some r -> adjustMipSize f' m = Some r' -> r = r'.
Proof.
  intros H H'.
  apply (adjustMipSize_fuel f (Nat.max f f')) in H; [|lia].
  apply (adjustMipSize_fuel f' (Nat.max f f')) in H'; [|lia].
  congruence.
Qed.

Lemma double_loop_det f f' x r r' :
  double_loop f x = Some r -> double_loop f' x = Some r' -> r = r'.
Proof.
  intros H H'.
  apply (double_loop_fuel f (Nat.max f f')) in H; [|lia].
  apply (double_loop_fuel f' (Nat.max f f')) in H'; [|lia].
  congruence.
Qed.

(** A larger bound stops the quartering no later. *)
Lemma quarter_loop_mono f : forall f' b b' x r r',
  0 <= x -> b <= b' ->
  quarter_loop f b x = Some r -> quarter_loop f' b' x = Some r' ->
  r <= r'.
Proof.
  induction f as [|f IH]; intros f' b b' x r r' Hx Hb H H'; [discriminate|].
  destruct f' as [|f']; [discriminate|].
  cbn [quarter_loop] in *.
  destruct (Qltb (4 * b) x) eqn:E, (Qltb (4 * b') x) eqn:E';
    rewrite ?Qltb_lt, ?Qltb_ge in *.
  - apply (IH f' b b' (x * (1 # 4))); [lra | assumption..].
  - inversion H'; subst. apply quarter_loop_le_input in H; lra.
  - lra.
  - inversion H; inversion H'; subst. lra.
Qed.

Lemma double_loop_pos f : forall x r,
  0 < x -> double_loop f x = Some r -> 0 < r.
Proof.
  induction f as [|f IH]; intros x r Hx H; [discriminate|].
  cbn [double_loop] in H. destruct (Qltb (x * 2) kIdealMinMIP).
  - apply (IH (x * 2)); [lra | exact H].
  - inversion H; subst. lra.
Qed.

(** One doubling of the original size never lowers the result. *)
Lemma adjustMipSize_double f f' m m' r r' :
  0 < m -> m' == m * 2 ->
  adjustMipSize f m = Some r -> adjustMipSize f' m' = Some r' ->
  r <= r'.
Proof.
  intros Hm Hm' H H'. unfold adjustMipSize in *.
  destruct (Qltb m kIdealMinMIP) eqn:E, (Qltb m' kIdealMinMIP) eqn:E';
    rewrite ?Qltb_lt, ?Qltb_ge in *.
  - (* both sizes are doubled up to the same value *)
    destruct (double_loop f m) as [n|] eqn:D; [|discriminate].
    destruct (double_loop f' m') as [n'|] eqn:D'; [|discriminate].
    simpl in H, H'.
    destruct f as [|f]; [discriminate|]. cbn [double_loop] in D.
    assert (Elt : Qltb (m * 2) kIdealMinMIP = true) by (apply Qltb_lt; lra).
    rewrite Elt in D.
    destruct (double_loop_compat _ _ m' _ (Qeq_sym _ _ Hm') D) as (n0 & D0 & Hn0).
    assert (n0 = n') by (eapply double_loop_det; eassumption). subst n0.
    assert (Hpos : 0 < n) by (apply double_loop_pos in D; lra).
    destruct (quarter_loop_compat _ m m n n' r (Qeq_refl _) Hn0 H)
      as (r0 & H0 & Hr0).
    assert (r0 <= r'); [|lra].
    apply (quarter_loop_mono (S f) f' m m' n' r0 r'); [lra | lra | assumption..].
  - (* the doubled size needs no adjustment *)
    destruct (double_loop f m) as [n|] eqn:D; [|discriminate]. simpl in H.
    inversion H'; subst r'.
    destruct f as [|f]; [discriminate|]. cbn [double_loop] in D.
    assert (Ege : Qltb (m * 2) kIdealMinMIP = false) by (apply Qltb_ge; lra).
    rewrite Ege in D. inversion D; subst n.
    apply quarter_loop_le_input in H; lra.
  - lra.
  - inversion H; inversion H'; subst. lra.
Qed.

Lemma adjustMipSize_chain j : forall m m' f f' r r',
  0 < m -> m' == m * pow2 (Z.of_nat j) ->
  adjustMipSize f m = Some r -> adjustMipSize f' m' = Some r' ->
  r <= r'.
Proof.
  induction j as [|j IH]; intros m m' f f' r r' Hm Hm' H H'.
  - change (pow2 (Z.of_nat 0)) with 1 in Hm'.
    assert (Hmm : m == m') by (rewrite Hm'; ring).
    destruct (adjustMipSize_compat f m m' r Hmm H) as (r0 & H0 & Hr0).
    rewrite (adjustMipSize_det _ _ _ _ _ H0 H') in Hr0. lra.
  - assert (Hp := pow2_pos (Z.of_nat j)).
    assert (Hmid : 0 < m * pow2 (Z.of_nat j)) by nra.
    destruct (adjustMipSize_total _ Hmid) as (fm & rm & Hrm).
    apply Qle_trans with rm.
    + apply (IH m (m * pow2 (Z.of_nat j)) f fm); auto. reflexivity.
    + apply (adjustMipSize_double fm f' (m * pow2 (Z.of_nat j)) m'); auto.
      rewrite Hm', pow2_nat_succ. ring.
Qed.

Lemma SkScalarAbs_pos x : ~ x == 0 -> 0 < SkScalarAbs x.
Proof. intros H. unfold SkScalarAbs. apply Qabs_case; intros; lra. Qed.

Lemma SkScalarAbs_of_pos x : 0 <= x -> SkScalarAbs x == x.
Proof. apply Qabs_pos. Qed.

Lemma ceil_log2_mono x y : x <= y -> (ceil_log2 x <= ceil_log2 y)%Z.
Proof.
  intros H. unfold ceil_log2.
  apply Z.log2_up_le_mono. now apply Qceiling_resp_le.
Qed.

Lemma desiredDimension_le_max fuel s maxDim r :
  desiredDimension fuel s maxDim = Some r -> r <= kMaxMIP.
Proof.
  unfold desiredDimension.
  destruct (adjustMipSize fuel _) as [m|]; [|discriminate].
  simpl. intros H. inversion H; subst. apply SkTMin_le_r.
Qed.

(** A shape whose bounds are a single point keeps the first loop
    running: 0 stays 0 however often it is doubled. *)
Lemma double_loop_zero fuel : forall x, x == 0 -> double_loop fuel x = None.
Proof.
  induction fuel as [|fuel IH]; intros x Hx; [reflexivity|].
  cbn [double_loop].
  assert (E : Qltb (x * 2) kIdealMinMIP = true).
  { apply Qltb_lt. unfold kIdealMinMIP. lra. }
  rewrite E. apply IH. lra.
Qed.

Lemma desiredDimension_degenerate fuel s maxDim :
  maxDim == 0 -> desiredDimension fuel s maxDim = None.
Proof.
  intros Hd. unfold desiredDimension, adjustMipSize.
  assert (Habs : SkScalarAbs maxDim == 0).
  { unfold SkScalarAbs. rewrite Hd. reflexivity. }
  assert (Hz : selectMipScale (SkScalarAbs s) * SkScalarAbs maxDim == 0)
    by (rewrite Habs; ring).
  assert (E : Qltb (selectMipScale (SkScalarAbs s) * SkScalarAbs maxDim)
                kIdealMinMIP = true).
  { apply Qltb_lt. unfold kIdealMinMIP. lra. }
  rewrite E, (double_loop_zero fuel _ Hz). reflexivity.
Qed.

Lemma desiredDimension_det fuel fuel' s maxDim r r' :
  desiredDimension fuel s maxDim = Some r ->
  desiredDimension fuel' s maxDim = Some r' -> r = r'.
Proof.
  unfold desiredDimension. intros H H'.
  destruct (adjustMipSize fuel _) as [m|] eqn:E; [|discriminate].
  destruct (adjustMipSize fuel' _) as [m'|] eqn:E'; [|discriminate].
  rewrite (adjustMipSize_det _ _ _ _ _ E E') in H. cbn in *. congruence.
Qed.

(** The resolutions for two scale factors above 1, for a shape with
    sides. *)
Lemma resolution_monotone_exists (maxDim s1 s2 : Q) :
  ~ maxDim == 0 -> 1 < s1 -> s1 < s2 ->
  exists fuel d1 d2,
    (forall fuel', (fuel <= fuel')%nat ->
       desiredDimension fuel' s1 maxDim = Some d1 /\
       desiredDimension fuel' s2 maxDim = Some d2) /\
    d1 <= d2.
Proof.
  intros Hd H1 H12.
  assert (Hdpos := SkScalarAbs_pos maxDim Hd).
  assert (Ha1 := SkScalarAbs_of_pos s1 ltac:(lra)).
  assert (Ha2 := SkScalarAbs_of_pos s2 ltac:(lra)).
  destruct (selectMipScale_large (SkScalarAbs s1) ltac:(lra)) as (E1 & _ & _).
  destruct (selectMipScale_large (SkScalarAbs s2) ltac:(lra)) as (E2 & _ & _).
  assert (Hn : (ceil_log2 (SkScalarAbs s1) <= ceil_log2 (SkScalarAbs s2))%Z)
    by (apply ceil_log2_mono; lra).
  set (n1 := ceil_log2 (SkScalarAbs s1)) in *.
  set (n2 := ceil_log2 (SkScalarAbs s2)) in *.
  assert (Hp1 := pow2_pos n1). assert (Hp2 := pow2_pos n2).
  assert (Hm1 : 0 < pow2 n1 * SkScalarAbs maxDim) by nra.
  assert (Hm2 : 0 < pow2 n2 * SkScalarAbs maxDim) by nra.
  destruct (adjustMipSize_total _ Hm1) as (f1 & r1 & Hr1).
  destruct (adjustMipSize_total _ Hm2) as (f2 & r2 & Hr2).
  exists (Nat.max f1 f2), (SkTMin r1 kMaxMIP), (SkTMin r2 kMaxMIP).
  split.
  - intros fuel' Hf. unfold desiredDimension. rewrite E1, E2.
    rewrite (adjustMipSize_fuel f1 fuel' _ _ Hr1) by lia.
    rewrite (adjustMipSize_fuel f2 fuel' _ _ Hr2) by lia.
    split; reflexivity.
  - apply SkTMin_mono.
    apply (adjustMipSize_chain (Z.to_nat (n2 - n1))
             (pow2 n1 * SkScalarAbs maxDim) (pow2 n2 * SkScalarAbs maxDim)
             f1 f2 r1 r2 Hm1); [|assumption..].
    rewrite Z2Nat.id by lia.
    replace n2 with (n1 + (n2 - n1))%Z at 1 by lia.
    unfold pow2. rewrite Qpower_plus by discriminate. ring.
Qed.



End MipFacts.

(** *** The eligibility predicate *)

Section EligibilityFacts.
Import SmallPath.
Context `{Collaborators}.
#[local] Open Scope Q_scope.

Lemma SkTMax_ge_l a b : a <= SkTMax a b.
Proof.
  unfold SkTMax. destruct (Qltb b a) eqn:E; [lra|].
  now apply Qltb_ge in E.
Qed.

Lemma SkTMax_ge_r a b : b <= SkTMax a b.
Proof.
  unfold SkTMax. destruct (Qltb b a) eqn:E; [|lra].
  apply Qltb_lt in E. lra.
Qed.

Lemma SkTMin_le_l a b : SkTMin a b <= a.
Proof.
  unfold SkTMin. destruct (Qltb a b) eqn:E; [lra|].
  now apply Qltb_ge in E.
Qed.

Lemma onCanDrawPath_min_size (args : CanDrawPathArgs) :
  onCanDrawPath args = true ->
  exists minScale,
    let bounds := styledBounds (args_fShape args) in
    kMinSize <= SkMinScalar (width bounds) (height bounds) * SkScalarAbs minScale.
Proof.
  unfold onCanDrawPath. intros Hok.
  repeat match type of Hok with
         | (if ?b then _ else _) = true => destruct b; try discriminate
         end.
  destruct (getMinMaxScales _) as [[s0 s1]|]; [|discriminate].
  apply andb_prop in Hok as [Hok _]. apply andb_prop in Hok as [_ Hmin].
  rewrite Qle_bool_iff in Hmin. eauto.
Qed.

(** A shape that [onCanDrawPath] accepts has sides that are not zero, so the
    choice of a distance-field resolution for it ends. *)
Lemma eligible_shape_has_extent (args : CanDrawPathArgs) :
  onCanDrawPath args = true ->
  let bounds := styledBounds (args_fShape args) in
  0 < SkMaxScalar (width bounds) (height bounds).
Proof.
  intros Hok.
  destruct (onCanDrawPath_min_size args Hok) as (s0 & Hmin).
  cbv zeta in *.
  set (b := styledBounds (args_fShape args)) in *.
  pose proof (SkTMin_le_l (width b) (height b)) as Hle.
  pose proof (SkTMax_ge_l (width b) (height b)) as Hge.
  unfold SkMinScalar, SkMaxScalar, kMinSize, SK_ScalarHalf, SkScalarAbs in *.
  pose proof (Qabs_nonneg s0) as Habs.
  destruct (Qlt_le_dec 0 (SkTMin (width b) (height b))) as [Hpos|Hneg]; [lra|].
  exfalso. nra.
Qed.

End EligibilityFacts.

(** *** Combining two ops *)

Section CombineFacts.
Import SmallPath.
Context `{Collaborators}.

(** C3, as the code has it.  [onCombineIfPossible] answers true exactly
    when the helpers are compatible, both ops use the same kind of
    rendition, their stored view matrices pass [cheapEqualTo] (in field
    mode as well as in bitmap mode, where the stored matrix has lost its
    whole-pixel translation), and, for bitmaps drawn with local
    coordinates, the whole-pixel translations of the first entries agree
    within tolerance. *)
Theorem combinable_iff (this that : SmallPathOp) (caps : GrCaps) :
  (onCombineIfPossible this that caps).1 = true <->
  isCompatible (fHelper this) (fHelper that) caps
    (opBounds this) (opBounds that) = true /\
  fUsesDistanceField this = fUsesDistanceField that /\
  cheapEqualTo (fViewMatrix this) (fViewMatrix that) = true /\
  (fUsesDistanceField this = false /\ usesLocalCoords (fHelper this) = true ->
   equalsWithinTolerance (fTranslate (fShapes0 this))
     (fTranslate (fShapes0 that)) = true).
Proof.
  unfold onCombineIfPossible.
  destruct (isCompatible _ _ _ _ _); cbn [negb];
    [|split; [discriminate | intros (? & _); discriminate]].
  destruct (fUsesDistanceField this) eqn:Ethis,
           (fUsesDistanceField that) eqn:Ethat; cbn [eqb negb andb];
    try (split; [discriminate | intros (_ & ? & _); discriminate]).
  - destruct (cheapEqualTo _ _); cbn [negb fst]; intuition discriminate.
  - destruct (cheapEqualTo _ _); cbn [negb fst];
      [|intuition discriminate].
    destruct (usesLocalCoords _); cbn [andb];
      [|cbn; intuition discriminate].
    destruct (equalsWithinTolerance _ _); cbn; intuition discriminate.
Qed.

(** Combining appends the entries of [that] and leaves a refused [this]
    as it was. *)
Lemma combine_appends (this that : SmallPathOp) (caps : GrCaps) :
  let '(combined, this') := onCombineIfPossible this that caps in
  if combined then fShapes this' = fShapes this ++ fShapes that
  else this' = this.
Proof.
  unfold onCombineIfPossible.
  repeat match goal with |- context [if ?b then _ else _] => destruct b end;
    reflexivity.
Qed.

End CombineFacts.

Section CombineCounterexample.
Import SmallPath Reference.
#[local] Open Scope Q_scope.

(** C3, as the spec words it, fails for two field-mode ops with
    compatible helpers whose matrices both scale by 100 and differ only
    in their translation, by one pixel: the spec does not ask for equal
    matrices in field mode, the code compares them entry by entry and
    refuses. *)
Lemma combine_field_mode_counterexample :
  let this := SmallPathOp_new false 7%Z (square 2 1) (scaleTranslate 100 0 0) false in
  let that := SmallPathOp_new false 9%Z (square 2 2) (scaleTranslate 100 1 0) false in
  fUsesDistanceField this = true /\
  fUsesDistanceField that = true /\
  isCompatible (fHelper this) (fHelper that) true
    (opBounds this) (opBounds that) = true /\
  (onCombineIfPossible this that true).1 = false.
Proof. vm_compute. auto. Qed.

End CombineCounterexample.

(** *** The flush *)

Section FlushFacts.
Import SmallPath.
Context `{Collaborators}.
#[local] Open Scope Z_scope.

Lemma chunks_spec fuel : forall base remaining C,
  0 < C -> 0 <= remaining -> remaining <= Z.of_nat fuel ->
  length (chunks fuel base remaining C) = Z.to_nat ((remaining + C - 1) / C) /\
  Forall (fun call => 0 < call.2 <= C) (chunks fuel base remaining C) /\
  concat (covered <$> chunks fuel base remaining C) = seqZ base remaining.
Proof.
  induction fuel as [|fuel IH]; intros base remaining C HC Hrem Hfuel.
  - assert (remaining = 0) by lia. subst. cbn [chunks].
    rewrite Z.div_small by lia. auto.
  - cbn [chunks]. case_bool_decide as Hz.
    + assert (remaining = 0) by lia. subst.
      rewrite Z.div_small by lia. auto.
    + destruct (IH (base + Z.min C remaining) (remaining - Z.min C remaining) C)
        as (Hlen & Hall & Hcov); [lia..|].
      split; [|split].
      * cbn [length]. rewrite Hlen.
        destruct (Z_le_gt_dec C remaining) as [Hle|Hgt].
        -- rewrite Z.min_l by lia.
           replace (remaining + C - 1) with ((remaining - C + C - 1) + 1 * C) by lia.
           rewrite Z.div_add by lia.
           assert (0 <= (remaining - C + C - 1) / C) by (apply Z.div_pos; lia).
           lia.
        -- rewrite Z.min_r by lia.
           replace (remaining - remaining + C - 1) with (C - 1) by lia.
           rewrite (Z.div_small (C - 1)) by lia.
           replace (remaining + C - 1) with ((remaining - 1) + 1 * C) by lia.
           rewrite Z.div_add, (Z.div_small (remaining - 1)) by lia.
           reflexivity.
      * constructor; [cbn; lia | exact Hall].
      * cbn [fmap list_fmap concat]. rewrite Hcov. unfold covered. cbn [fst snd].
        rewrite <- seqZ_app by lia. f_equal. lia.
Qed.

Lemma concat_drawCalls_snoc (l : list GrMesh) mesh :
  concat (drawCalls <$> (l ++ [mesh])) = concat (drawCalls <$> l) ++ drawCalls mesh.
Proof. rewrite fmap_app, concat_app. cbn. now rewrite app_nil_r. Qed.

(** C8.  A flush of [N] pending instances, with [C] the size of the
    index buffer in indices divided by 6, records one mesh that is
    submitted as ceil(N/C) draw calls, each of at most [C] instances,
    which together cover the instances 0 .. N-1 once and in order; with
    no pending instance nothing is recorded. *)
Theorem flush_chunking (w : World) :
  let N := fInstancesToFlush (flushInfo w) in
  let C := to_int (fIndexBufferSize (flushInfo w) / sizeof_uint16_t / 6) in
  0 <= N -> 0 < C ->
  exists calls,
    concat (drawCalls <$> draws (flush w)) =
      concat (drawCalls <$> draws w) ++ calls /\
    (let k := (N + C - 1) / C in
     Z.of_nat (length calls) = k /\ C * (k - 1) < N <= C * k) /\
    Forall (fun call => 0 < call.2 <= C) calls /\
    concat (covered <$> calls) = seqZ 0 N /\
    (N = 0 -> draws (flush w) = draws w /\ calls = []) /\
    (N <> 0 -> exists mesh, draws (flush w) = draws w ++ [mesh] /\
                 fBaseVertex mesh = fVertexOffset (flushInfo w) /\
                 fPatternRepeatCount mesh = N).
Proof.
  intros N C HN HC. unfold flush. fold N. fold C.
  assert (Hk : C * ((N + C - 1) / C - 1) < N <= C * ((N + C - 1) / C)).
  { pose proof (Z.div_mod (N + C - 1) C ltac:(lia)).
    pose proof (Z.mod_pos_bound (N + C - 1) C HC). lia. }
  case_bool_decide as Hz.
  - destruct (chunks_spec (Z.to_nat N) 0 N C HC HN ltac:(lia))
      as (Hlen & Hall & Hcov).
    exists (chunks (Z.to_nat N) 0 N C). cbn [draws].
    rewrite concat_drawCalls_snoc. unfold drawCalls at 2.
    cbn [fPatternRepeatCount fMaxPatternRepetitionsInIndexBuffer].
    split; [reflexivity|]. split; [|split; [|split; [|split]]]; auto.
    + split; [|exact Hk]. rewrite Hlen. apply Z2Nat.id. apply Z.div_pos; lia.
    + intros ?. lia.
    + intros _. eexists. repeat split.
  - exists []. rewrite app_nil_r. assert (N = 0) as -> by lia.
    rewrite Z.div_small by lia.
    split; [reflexivity|]. split; [|split; [|split; [|split]]]; auto.
    + cbn. lia.
    + intros Hne. now destruct Hne.
Qed.

End FlushFacts.

Section FlushExample.
Import SmallPath Reference.
#[local] Open Scope Z_scope.

Lemma flush_chunking_witness :
  let w := mkWorld (mkRenderer ∅ [] ∅) [] [] [] (mkFlushInfo 24 8 5) [] in
  exists calls,
    concat (drawCalls <$> draws (flush w)) =
      concat (drawCalls <$> draws w) ++ calls /\
    (let k := (5 + 2 - 1) / 2 in
     Z.of_nat (length calls) = k /\ 2 * (k - 1) < 5 <= 2 * k) /\
    Forall (fun call => 0 < call.2 <= 2) calls /\
    concat (covered <$> calls) = seqZ 0 5 /\
    (5 = 0 -> draws (flush w) = draws w /\ calls = []) /\
    (5 <> 0 -> exists mesh, draws (flush w) = draws w ++ [mesh] /\
                 fBaseVertex mesh = fVertexOffset (flushInfo w) /\
                 fPatternRepeatCount mesh = 5).
Proof.
  intros w.
  apply (flush_chunking w); [vm_compute; discriminate | vm_compute; reflexivity].
Defined.

End FlushExample.

(** *** The eviction callback *)

Section EvictionFacts.
Import SmallPath.
Context `{Collaborators}.

Lemma consistent_spec (r : Renderer) :
  consistent r = true <->
  NoDup (fShapeList r) /\
  (forall p, p ∈ fShapeList r ->
     exists sd, heap r !! p = Some sd /\ fShapeCache r !! fKey sd = Some p) /\
  (forall key p, fShapeCache r !! key = Some p ->
     p ∈ fShapeList r /\ exists sd, heap r !! p = Some sd /\ fKey sd = key).
Proof.
  unfold consistent. rewrite !andb_true_iff, bool_decide_eq_true, !forallb_forall.
  split.
  - intros [[Hnd Hl] Hc]. split; [exact Hnd|]. split.
    + intros p Hp. apply list_elem_of_In, Hl in Hp. unfold listed_ok in Hp.
      destruct (heap r !! p) as [sd|]; [|discriminate].
      apply bool_decide_eq_true in Hp. eauto.
    + intros key p Hkp.
      specialize (Hc (key, p)). cbn in Hc. unfold cache_entry_ok in Hc.
      rewrite <- list_elem_of_In, elem_of_map_to_list in Hc.
      apply Hc, andb_true_iff in Hkp as [Hin Hsd].
      apply bool_decide_eq_true in Hin. split; [exact Hin|].
      destruct (heap r !! p) as [sd|]; [|discriminate].
      apply bool_decide_eq_true in Hsd. eauto.
  - intros (Hnd & Hl & Hc). repeat split; [exact Hnd | |].
    + intros p Hp. apply list_elem_of_In, Hl in Hp as (sd & Hsd & Hk).
      unfold listed_ok. rewrite Hsd. now apply bool_decide_eq_true.
    + intros [key p] Hkp. cbn.
      rewrite <- list_elem_of_In, elem_of_map_to_list in Hkp.
      apply Hc in Hkp as (Hin & sd & Hsd & Hk).
      unfold cache_entry_ok. rewrite Hsd.
      apply andb_true_iff. split; now apply bool_decide_eq_true.
Qed.

Lemma dropped_nil id r p : dropped id r [] p = false.
Proof. unfold dropped. rewrite bool_decide_eq_false_2; [reflexivity|]. apply not_elem_of_nil. Qed.

Lemma dropped_snoc_other id r visited p q :
  q <> p -> dropped id r (visited ++ [p]) q = dropped id r visited q.
Proof.
  intros Hne. unfold dropped. f_equal. apply bool_decide_ext.
  rewrite elem_of_app, list_elem_of_singleton. tauto.
Qed.

Lemma dropped_snoc_survivor id r visited p q :
  survives id r p = true ->
  dropped id r (visited ++ [p]) q = dropped id r visited q.
Proof.
  intros Hs. destruct (decide (q = p)) as [->|Hne];
    [|now apply dropped_snoc_other].
  unfold dropped. rewrite Hs. cbn. now rewrite !andb_false_r.
Qed.

Lemma list_remove_absent p (l : list ptr) : p ∉ l -> list_remove p l = l.
Proof.
  intros Hp. unfold list_remove. induction l as [|q l IH]; [reflexivity|].
  apply not_elem_of_cons in Hp as [Hne Hp].
  rewrite filter_cons_True by congruence. now rewrite IH.
Qed.

Lemma list_remove_middle p (l1 l2 : list ptr) :
  p ∉ l1 -> p ∉ l2 -> list_remove p (l1 ++ p :: l2) = l1 ++ l2.
Proof.
  intros H1 H2. unfold list_remove.
  rewrite filter_app, filter_cons_False by (intros Hc; now apply Hc).
  fold (list_remove p l1). fold (list_remove p l2).
  now rewrite (list_remove_absent p l1 H1), (list_remove_absent p l2 H2).
Qed.

Lemma dropped_unvisited id r visited p :
  p ∉ visited -> dropped id r visited p = false.
Proof. intros Hp. unfold dropped. now rewrite bool_decide_eq_false_2. Qed.

Lemma dropped_snoc_self id r visited p :
  survives id r p = false -> dropped id r (visited ++ [p]) p = true.
Proof.
  intros Hs. unfold dropped. rewrite Hs, bool_decide_eq_true_2; [reflexivity|].
  apply elem_of_app. right. apply list_elem_of_singleton. reflexivity.
Qed.

(** The loop, started anywhere in the list: [cur] is the state reached
    after the nodes [visited], and [iter] are the nodes still to come. *)
Lemma evict_loop_spec (id : AtlasID) (r0 : Renderer) :
  consistent r0 = true ->
  forall iter visited cur,
    fShapeList r0 = visited ++ iter ->
    fShapeList cur = filter (fun p => survives id r0 p) visited ++ iter ->
    (forall p, heap cur !! p =
       if dropped id r0 visited p then None else heap r0 !! p) ->
    (forall key, fShapeCache cur !! key =
       p ← fShapeCache r0 !! key;
       if dropped id r0 visited p then None else Some p) ->
    exists r',
      evict_loop id iter cur = Some r' /\
      fShapeList r' = filter (fun p => survives id r0 p) (fShapeList r0) /\
      (forall p, heap r' !! p =
         if dropped id r0 (fShapeList r0) p then None else heap r0 !! p) /\
      (forall key, fShapeCache r' !! key =
         p ← fShapeCache r0 !! key;
         if dropped id r0 (fShapeList r0) p then None else Some p).
Proof.
  intros Hcons. apply consistent_spec in Hcons as (Hnd & Hlisted & Hcached).
  induction iter as [|p iter IH]; intros visited cur Hsplit Hlist Hheap Hcache.
  - rewrite app_nil_r in Hsplit, Hlist. rewrite Hsplit. exists cur. auto.
  - assert (Hp : p ∈ fShapeList r0).
    { rewrite Hsplit. apply elem_of_app. right. apply list_elem_of_here. }
    rewrite Hsplit in Hnd. apply NoDup_app in Hnd as (Hndv & Hdisj & Hndi).
    apply NoDup_cons in Hndi as (Hpi & Hndi).
    assert (Hpv : p ∉ visited).
    { intros Hin. apply (Hdisj p Hin). apply list_elem_of_here. }
    destruct (Hlisted p Hp) as (sd & Hsd & Hkey).
    assert (Hcur : heap cur !! p = Some sd).
    { rewrite Hheap, dropped_unvisited by exact Hpv. exact Hsd. }
    cbn [evict_loop]. unfold evict_step. rewrite Hcur. cbn [mbind option_bind].
    assert (Hsplit' : fShapeList r0 = (visited ++ [p]) ++ iter)
      by now rewrite <- app_assoc.
    destruct (decide (id = fID sd)) as [Hid|Hid]; cbn [mbind option_bind].
    + assert (Hs : survives id r0 p = false).
      { unfold survives. rewrite Hsd. now apply bool_decide_eq_false_2; auto. }
      apply (IH (visited ++ [p])); [exact Hsplit' | | |].
      * cbn [removeShapeData fShapeList]. rewrite Hlist.
        rewrite list_remove_middle; [| |exact Hpi].
        -- rewrite filter_app, filter_cons_False, filter_nil, app_nil_r;
             [reflexivity|]. rewrite Hs. auto.
        -- intros Hin. apply list_elem_of_filter in Hin as [_ Hin]. auto.
      * intros q. cbn [removeShapeData heap].
        destruct (decide (q = p)) as [->|Hne].
        -- now rewrite lookup_delete_eq, dropped_snoc_self.
        -- rewrite lookup_delete_ne by auto.
           now rewrite Hheap, dropped_snoc_other.
      * intros key. cbn [removeShapeData fShapeCache].
        destruct (decide (key = fKey sd)) as [->|Hne].
        -- rewrite lookup_delete_eq, Hkey. cbn.
           now rewrite dropped_snoc_self.
        -- rewrite lookup_delete_ne by auto. rewrite Hcache.
           destruct (fShapeCache r0 !! key) as [q|] eqn:Hq; [|reflexivity].
           cbn. rewrite dropped_snoc_other; [reflexivity|].
           intros ->. apply Hcached in Hq as (_ & sd' & Hsd' & Hk').
           congruence.
    + assert (Hs : survives id r0 p = true).
      { unfold survives. rewrite Hsd. apply bool_decide_eq_true_2. auto. }
      apply (IH (visited ++ [p])); [exact Hsplit' | | |].
      * rewrite Hlist, filter_app, filter_cons_True, filter_nil by now rewrite Hs.
        now rewrite <- app_assoc.
      * intros q. now rewrite Hheap, dropped_snoc_survivor.
      * intros key. rewrite Hcache.
        destruct (fShapeCache r0 !! key) as [q|]; [|reflexivity].
        cbn. now rewrite dropped_snoc_survivor.
Qed.

Lemma HandleEviction_spec (id : AtlasID) (r : Renderer) :
  consistent r = true ->
  exists r',
    HandleEviction id r = Some r' /\
    fShapeList r' = filter (fun p => survives id r p) (fShapeList r) /\
    (forall p, heap r' !! p =
       if dropped id r (fShapeList r) p then None else heap r !! p) /\
    (forall key, fShapeCache r' !! key =
       p ← fShapeCache r !! key;
       if dropped id r (fShapeList r) p then None else Some p).
Proof.
  intros Hcons. unfold HandleEviction.
  apply (evict_loop_spec id r Hcons (fShapeList r) [] r).
  - reflexivity.
  - reflexivity.
  - intros p. now rewrite dropped_nil.
  - intros key. destruct (fShapeCache r !! key) as [p|]; [|reflexivity].
    cbn [mbind option_bind]. now rewrite dropped_nil.
Qed.

Lemma dropped_all_false id r p :
  dropped id r (fShapeList r) p = false <->
  (p ∈ fShapeList r -> survives id r p = true).
Proof.
  unfold dropped. rewrite andb_false_iff, bool_decide_eq_false, negb_false_iff.
  destruct (decide (p ∈ fShapeList r)); tauto.
Qed.

Lemma HandleEviction_consistent (id : AtlasID) (r r' : Renderer) :
  consistent r = true -> HandleEviction id r = Some r' -> consistent r' = true.
Proof.
  intros Hcons Hrun.
  destruct (HandleEviction_spec id r Hcons) as (r1 & Hrun1 & Hlist & Hheap & Hcache).
  assert (r1 = r') by congruence. subst r1. clear Hrun1.
  apply consistent_spec in Hcons as (Hnd & Hlisted & Hcached).
  apply consistent_spec. rewrite Hlist. split; [|split].
  - now apply NoDup_filter.
  - intros p Hp. apply list_elem_of_filter in Hp as [Hs Hp].
    destruct (Hlisted p Hp) as (sd & Hsd & Hkey).
    assert (Hd : dropped id r (fShapeList r) p = false).
    { apply dropped_all_false. intros _. now apply Is_true_true. }
    exists sd. rewrite Hheap, Hcache, Hkey, Hd. cbn. now rewrite Hd.
  - intros key p Hkp. rewrite Hcache in Hkp.
    destruct (fShapeCache r !! key) as [q|] eqn:Hq; [|discriminate].
    cbn in Hkp.
    destruct (dropped id r (fShapeList r) q) eqn:Hd; [discriminate|].
    inversion Hkp; subst q.
    destruct (Hcached key p Hq) as (Hp & sd & Hsd & Hkey).
    split.
    + apply list_elem_of_filter. split; [|exact Hp].
      apply Is_true_true. now apply dropped_all_false in Hd.
    + exists sd. now rewrite Hheap, Hd.
Qed.

(** C1.  On a renderer whose cache and list index the same records,
    [HandleEviction(R)] ends, and afterwards no record of region [R] can
    be found under any key or met in the list; each record of [R] that
    was listed is out of the cache and out of the list and has been
    freed; every other record is where it was, unchanged, and the list
    keeps its order. *)
Theorem eviction_complete (R : AtlasID) (dfpr : Renderer) :
  consistent dfpr = true ->
  exists dfpr',
    HandleEviction R dfpr = Some dfpr' /\
    (forall key p shapeData,
       fShapeCache dfpr' !! key = Some p -> heap dfpr' !! p = Some shapeData ->
       fID shapeData <> R) /\
    (forall p shapeData,
       p ∈ fShapeList dfpr' -> heap dfpr' !! p = Some shapeData ->
       fID shapeData <> R) /\
    (forall p shapeData,
       p ∈ fShapeList dfpr -> heap dfpr !! p = Some shapeData ->
       fID shapeData = R ->
       (p ∉ fShapeList dfpr') /\ heap dfpr' !! p = None /\
       forall key, fShapeCache dfpr' !! key <> Some p) /\
    (forall p shapeData,
       heap dfpr !! p = Some shapeData -> fID shapeData <> R ->
       heap dfpr' !! p = Some shapeData /\
       (p ∈ fShapeList dfpr <-> p ∈ fShapeList dfpr') /\
       forall key, fShapeCache dfpr !! key = Some p <->
                   fShapeCache dfpr' !! key = Some p) /\
    fShapeList dfpr' = filter (fun p => survives R dfpr p) (fShapeList dfpr) /\
    consistent dfpr' = true.
Proof.
  intros Hcons.
  destruct (HandleEviction_spec R dfpr Hcons) as (r' & Hrun & Hlist & Hheap & Hcache).
  assert (Hcons' := HandleEviction_consistent R dfpr r' Hcons Hrun).
  exists r'. split; [exact Hrun|].
  assert (Hlisted' : forall p shapeData,
             p ∈ fShapeList r' -> heap r' !! p = Some shapeData ->
             fID shapeData <> R).
  { intros p sd Hp Hsd. rewrite Hlist in Hp.
    apply list_elem_of_filter in Hp as [Hs Hp]. apply Is_true_true in Hs.
    rewrite Hheap in Hsd.
    destruct (dropped R dfpr (fShapeList dfpr) p); [discriminate|].
    unfold survives in Hs. rewrite Hsd in Hs. now apply bool_decide_eq_true in Hs. }
  split; [|split; [exact Hlisted'|split; [|split; [|split]]]]; auto.
  - intros key p sd Hkp Hsd.
    apply consistent_spec in Hcons' as (_ & _ & Hcached').
    destruct (Hcached' key p Hkp) as (Hp & _). eauto.
  - intros p sd Hp Hsd Hid.
    assert (Hs : survives R dfpr p = false).
    { unfold survives. rewrite Hsd. apply bool_decide_eq_false_2. auto. }
    assert (Hd : dropped R dfpr (fShapeList dfpr) p = true).
    { unfold dropped. rewrite Hs. now rewrite bool_decide_eq_true_2. }
    split; [|split].
    + rewrite Hlist. intros Hin. apply list_elem_of_filter in Hin as [Hin _].
      rewrite Hs in Hin. exact Hin.
    + now rewrite Hheap, Hd.
    + intros key Hkp. rewrite Hcache in Hkp.
      destruct (fShapeCache dfpr !! key) as [q|]; [|discriminate]. cbn in Hkp.
      destruct (dropped R dfpr (fShapeList dfpr) q) eqn:Hq; [discriminate|].
      congruence.
  - intros p sd Hsd Hid.
    assert (Hs : survives R dfpr p = true).
    { unfold survives. rewrite Hsd. now apply bool_decide_eq_true_2. }
    assert (Hd : dropped R dfpr (fShapeList dfpr) p = false).
    { now apply dropped_all_false. }
    split; [|split].
    + now rewrite Hheap, Hd.
    + rewrite Hlist, list_elem_of_filter, Hs. cbn. tauto.
    + intros key. rewrite Hcache. split.
      * intros ->. cbn. now rewrite Hd.
      * destruct (fShapeCache dfpr !! key) as [q|]; [|discriminate]. cbn.
        destruct (dropped R dfpr (fShapeList dfpr) q); [discriminate|]. auto.
Qed.

End EvictionFacts.

Section EvictionExample.
Import SmallPath Reference.
#[local] Open Scope Q_scope.

Lemma eviction_complete_witness :
  exists dfpr',
    HandleEviction 5%Z threeRecords = Some dfpr' /\
    fShapeList dfpr' = [2%positive] /\
    consistent dfpr' = true.
Proof.
  destruct (eviction_complete 5%Z threeRecords) as (r' & Hrun & _ & _ & _ & _ & Hl & Hc).
  - vm_compute. reflexivity.
  - exists r'. split; [exact Hrun|]. split; [|exact Hc].
    rewrite Hl. vm_compute. reflexivity.
Defined.

End EvictionExample.

(** *** The translation of a bitmap-mode op *)

Section TranslationExample.
Import SmallPath Reference.
#[local] Open Scope Q_scope.

(** C9, as the spec words it, fails for a 2 by 2 square drawn under a
    translation by 5/2: the whole part 2 is kept with the entry, the
    bitmap is rasterized under the remaining translation 1/2, and the
    four corners written for the quad lie on whole pixels.  The
    sub-pixel position is in the cached bitmap, not in the placement of
    the vertices. *)
Lemma subpixel_placement_counterexample :
  let op := SmallPathOp_new false 7%Z (square 2 1) (scaleTranslate 1 (5 # 2) 0) false in
  let g := bitmapGeometry (square 2 1) (fViewMatrix op) in
  fUsesDistanceField op = false /\
  fTranslate (fShapes0 op) = mkVector 2 0 /\
  getTranslateX (bm_fractionMatrix g) == 1 # 2 /\
  ~ SkScalarFraction (getTranslateX (bm_drawMatrix g)) == 0 /\
  (fun w => position <$> vertices w) <$>
    onPrepareDraws 0 op (Some 0%Z) (Some 1200%Z)
      (emptyWorld [([], Some (5%Z, mkIPoint16 0 0))]) =
  Some [(1, -1); (1, 3); (6, 3); (6, -1)].
Proof. vm_compute. intuition discriminate. Qed.

End TranslationExample.

(** *** Flush and retry *)

Section RetryFacts.
Import SmallPath.
Context `{Collaborators}.

(** The callback only ever removes entries; it leaves the renderer
    consistent, whatever regions the atlas reclaims. *)
Lemma runEvictions_spec (ids : list AtlasID) : forall r,
  consistent r = true ->
  exists r',
    runEvictions ids r = Some r' /\ consistent r' = true /\
    (forall key, fShapeCache r !! key = None -> fShapeCache r' !! key = None).
Proof.
  induction ids as [|id ids IH]; intros r Hcons.
  - exists r. auto.
  - destruct (HandleEviction_spec id r Hcons) as (r1 & Hrun & _ & _ & Hcache).
    assert (Hcons1 := HandleEviction_consistent id r r1 Hcons Hrun).
    destruct (IH r1 Hcons1) as (r' & Hrest & Hcons' & Hnone).
    exists r'. cbn [runEvictions]. rewrite Hrun. cbn [mbind option_bind].
    split; [exact Hrest|]. split; [exact Hcons'|].
    intros key Hkey. apply Hnone. rewrite Hcache, Hkey. reflexivity.
Qed.

Lemma callAddToAtlas_spec (w : World) (width height : Z) (data : Pixels) :
  consistent (renderer w) = true ->
  exists found w',
    callAddToAtlas w width height data = Some (found, w') /\
    consistent (renderer w') = true /\
    (forall key, fShapeCache (renderer w) !! key = None ->
                 fShapeCache (renderer w') !! key = None) /\
    draws w' = draws w /\ vertices w' = vertices w /\
    flushInfo w' = flushInfo w /\
    atlasCalls w' =
      atlasCalls w ++ [(width, height, bool_decide (is_Some found))].
Proof.
  intros Hcons. unfold callAddToAtlas.
  destruct (addToAtlas (atlas w) (length (draws w)) width height data)
    as [[atlas' evicted] found].
  destruct (runEvictions_spec evicted (renderer w) Hcons) as (r' & Hrun & Hcons' & Hnone).
  rewrite Hrun. cbn [mbind option_bind].
  exists found. eexists. split; [reflexivity|].
  cbn [set_renderer_atlas renderer draws vertices flushInfo atlasCalls].
  repeat split; auto.
Qed.

Lemma flush_keeps (w : World) :
  renderer (flush w) = renderer w /\ atlas (flush w) = atlas w /\
  vertices (flush w) = vertices w /\ atlasCalls (flush w) = atlasCalls w /\
  fInstancesToFlush (flushInfo (flush w)) = 0%Z.
Proof.
  unfold flush. case_bool_decide as Hz; cbn; repeat split.
  destruct (decide (fInstancesToFlush (flushInfo w) = 0%Z)); tauto.
Qed.

Lemma flush_congr (w1 w : World) :
  flushInfo w1 = flushInfo w -> draws w1 = draws w ->
  draws (flush w1) = draws (flush w) /\
  flushInfo (flush w1) = flushInfo (flush w).
Proof.
  intros Hf Hd. unfold flush. rewrite Hf, Hd.
  destruct (bool_decide (fInstancesToFlush (flushInfo w) <> 0%Z)); cbn; auto.
Qed.

(** The three ways an insertion into the atlas can go: room at once;
    no room, then the flush and the one retry, with or without room.
    [calls] are the calls to [addToAtlas] it made. *)
Lemma addToAtlasWithRetry_spec (w : World) (width height : Z) (data : Pixels) :
  consistent (renderer w) = true ->
  exists found w',
    addToAtlasWithRetry w width height data = Some (found, w') /\
    consistent (renderer w') = true /\
    (forall key, fShapeCache (renderer w) !! key = None ->
                 fShapeCache (renderer w') !! key = None) /\
    vertices w' = vertices w /\
    ((is_Some found /\
      atlasCalls w' = atlasCalls w ++ [(width, height, true)] /\
      draws w' = draws w /\ flushInfo w' = flushInfo w) \/
     (atlasCalls w' =
        atlasCalls w ++ [(width, height, false);
                         (width, height, bool_decide (is_Some found))] /\
      draws w' = draws (flush w) /\ flushInfo w' = flushInfo (flush w))).
Proof.
  intros Hcons. unfold addToAtlasWithRetry.
  destruct (callAddToAtlas_spec w width height data Hcons)
    as (found1 & w1 & Hcall1 & Hcons1 & Hnone1 & Hd1 & Hv1 & Hf1 & Hc1).
  rewrite Hcall1. cbn [mbind option_bind].
  destruct found1 as [location|].
  - exists (Some location), w1.
    split; [reflexivity|]. split; [exact Hcons1|]. split; [exact Hnone1|].
    split; [exact Hv1|].
    left. rewrite bool_decide_eq_true_2 in Hc1 by eauto. eauto.
  - destruct (flush_keeps w1) as (Hr & Ha & Hv & Hc & Hi).
    assert (Hcons2 : consistent (renderer (flush w1)) = true) by now rewrite Hr.
    destruct (callAddToAtlas_spec (flush w1) width height data Hcons2)
      as (found2 & w2 & Hcall2 & Hcons2' & Hnone2 & Hd2 & Hv2 & Hf2 & Hc2).
    exists found2, w2. split; [exact Hcall2|]. split; [exact Hcons2'|].
    split; [|split].
    + intros key Hkey. apply Hnone2. rewrite Hr. now apply Hnone1.
    + congruence.
    + right. rewrite Hc2, Hc, Hc1, Hd2, Hf2.
      rewrite bool_decide_eq_false_2 by (intros [? ?]; discriminate).
      rewrite <- app_assoc. split; [reflexivity|].
      now apply flush_congr.
Qed.

Lemma registerShapeData_consistent (w : World) (shapeData : ShapeData) :
  consistent (renderer w) = true ->
  fShapeCache (renderer w) !! fKey shapeData = None ->
  consistent (renderer (registerShapeData w shapeData)) = true.
Proof.
  intros Hcons Hfree.
  apply consistent_spec in Hcons as (Hnd & Hlisted & Hcached).
  unfold registerShapeData. cbn [set_renderer_atlas renderer].
  set (r := renderer w) in *. set (p := fresh (dom (heap r))).
  assert (Hp : heap r !! p = None).
  { apply not_elem_of_dom. apply is_fresh. }
  assert (Hpl : p ∉ fShapeList r).
  { intros Hin. destruct (Hlisted p Hin) as (sd & Hsd & _). congruence. }
  apply consistent_spec. cbn [fShapeList fShapeCache heap]. split; [|split].
  - apply NoDup_app. split; [exact Hnd|]. split; [|apply NoDup_singleton].
    intros q Hq Hq'. apply list_elem_of_singleton in Hq'. subst q. auto.
  - intros q Hq. apply elem_of_app in Hq as [Hq|Hq].
    + destruct (Hlisted q Hq) as (sd & Hsd & Hkey).
      exists sd. rewrite lookup_insert_ne by congruence.
      rewrite lookup_insert_ne by congruence. auto.
    + apply list_elem_of_singleton in Hq. subst q.
      exists shapeData. now rewrite !lookup_insert_eq.
  - intros key q Hkq. destruct (decide (key = fKey shapeData)) as [->|Hne].
    + rewrite lookup_insert_eq in Hkq. inversion Hkq; subst q.
      split; [apply elem_of_app; right; now apply list_elem_of_singleton|].
      exists shapeData. now rewrite lookup_insert_eq.
    + rewrite lookup_insert_ne in Hkq by congruence.
      destruct (Hcached key q Hkq) as (Hq & sd & Hsd & Hkey).
      split; [apply elem_of_app; now left|].
      exists sd. rewrite lookup_insert_ne by congruence. auto.
Qed.

Lemma registerShapeData_keeps (w : World) (shapeData : ShapeData) :
  draws (registerShapeData w shapeData) = draws w /\
  vertices (registerShapeData w shapeData) = vertices w /\
  flushInfo (registerShapeData w shapeData) = flushInfo w /\
  atlasCalls (registerShapeData w shapeData) = atlasCalls w.
Proof. repeat split. Qed.

Lemma findShapeData_total (w : World) (key : Key) :
  consistent (renderer w) = true ->
  exists found, findShapeData w key = Some found.
Proof.
  intros Hcons. apply consistent_spec in Hcons as (_ & _ & Hcached).
  unfold findShapeData, cache_find.
  destruct (fShapeCache (renderer w) !! key) as [p|] eqn:Hk; [|eauto].
  destruct (Hcached key p Hk) as (_ & sd & Hsd & _). rewrite Hsd. cbn. eauto.
Qed.

Lemma removeShapeData_consistent (r : Renderer) (key : Key) (p : ptr)
    (shapeData : ShapeData) :
  consistent r = true ->
  fShapeCache r !! key = Some p -> heap r !! p = Some shapeData ->
  consistent (removeShapeData r p shapeData) = true /\
  fShapeCache (removeShapeData r p shapeData) !! key = None.
Proof.
  intros Hcons Hk Hsd.
  apply consistent_spec in Hcons as (Hnd & Hlisted & Hcached).
  destruct (Hcached key p Hk) as (Hp & sd' & Hsd' & Hkey).
  assert (sd' = shapeData) by congruence. subst sd'.
  unfold removeShapeData. cbn [fShapeCache]. rewrite Hkey.
  split; [|apply lookup_delete_eq].
  apply consistent_spec. cbn [fShapeList fShapeCache heap]. split; [|split].
  - now apply NoDup_filter.
  - intros q Hq. apply list_elem_of_filter in Hq as [Hne Hq].
    destruct (Hlisted q Hq) as (sd & Hq_sd & Hq_key).
    exists sd. rewrite lookup_delete_ne by congruence. split; [exact Hq_sd|].
    rewrite lookup_delete_ne; [exact Hq_key|].
    intros Heq. rewrite <- Heq, Hk in Hq_key. congruence.
  - intros key' q Hkq.
    destruct (decide (key' = key)) as [->|Hne];
      [rewrite lookup_delete_eq in Hkq; discriminate|].
    rewrite lookup_delete_ne in Hkq by congruence.
    destruct (Hcached key' q Hkq) as (Hq & sd & Hq_sd & Hq_key).
    assert (Hqp : q <> p) by (intros ->; congruence).
    split; [apply list_elem_of_filter; auto|].
    exists sd. rewrite lookup_delete_ne by congruence. auto.
Qed.

Lemma removeStale_spec (w : World) (key : Key) found :
  consistent (renderer w) = true ->
  findShapeData w key = Some found ->
  let w0 := removeStale w found in
  consistent (renderer w0) = true /\
  fShapeCache (renderer w0) !! key = None /\
  draws w0 = draws w /\ vertices w0 = vertices w /\
  flushInfo w0 = flushInfo w /\ atlasCalls w0 = atlasCalls w.
Proof.
  intros Hcons Hfind. unfold findShapeData, cache_find in Hfind.
  destruct (fShapeCache (renderer w) !! key) as [p|] eqn:Hk.
  - destruct (heap (renderer w) !! p) as [sd|] eqn:Hsd; [|discriminate].
    cbn in Hfind. inversion Hfind; subst found. cbn.
    destruct (removeShapeData_consistent _ key p sd Hcons Hk Hsd) as (Hc & Hnone).
    repeat split; assumption.
  - inversion Hfind; subst found. cbn. repeat split; assumption.
Qed.

Lemma insertionOutcome_congr (w0 w w' : World) made :
  flushInfo w0 = flushInfo w -> draws w0 = draws w ->
  atlasCalls w0 = atlasCalls w ->
  insertionOutcome w0 w' made -> insertionOutcome w w' made.
Proof.
  intros Hf Hd Hc. destruct (flush_congr w0 w Hf Hd) as (Hfd & Hff).
  unfold insertionOutcome. rewrite Hf, Hd, Hc, Hfd, Hff. auto.
Qed.

(** The retry, in terms of the outcome. *)
Lemma retry_outcome (w : World) (width height : Z) (data : Pixels) :
  consistent (renderer w) = true ->
  exists found w',
    addToAtlasWithRetry w width height data = Some (found, w') /\
    consistent (renderer w') = true /\
    (forall key, fShapeCache (renderer w) !! key = None ->
                 fShapeCache (renderer w') !! key = None) /\
    vertices w' = vertices w /\
    insertionOutcome w w' (bool_decide (is_Some found)).
Proof.
  intros Hcons.
  destruct (addToAtlasWithRetry_spec w width height data Hcons)
    as (found & w' & Hrun & Hcons' & Hnone & Hv & Hcase).
  exists found, w'. repeat split; auto.
  destruct Hcase as [(Hsome & Hc & Hd & Hf)|(Hc & Hd & Hf)].
  - right. left. exists width, height.
    rewrite bool_decide_eq_true_2 by exact Hsome. auto.
  - right. right. exists width, height. auto.
Qed.

Lemma outcome_nothing (w : World) : insertionOutcome w w false.
Proof. left. auto. Qed.

Lemma outcome_registered (w w1 : World) (shapeData : ShapeData) :
  insertionOutcome w w1 true ->
  insertionOutcome w (registerShapeData w1 shapeData) true.
Proof. intros Ho. exact Ho. Qed.

Ltac use_retry Hcons :=
  match goal with
  | |- context [addToAtlasWithRetry ?w ?a ?b ?c] =>
      destruct (retry_outcome w a b c Hcons)
        as (found & w1 & Hrun & Hcons1 & Hnone & Hv & Hout);
      rewrite Hrun; cbn [mbind option_bind]
  end.

Lemma addDFPathToAtlas_spec (w : World) (shape : GrShape) (dimension : Z)
    (scale : Q) :
  consistent (renderer w) = true ->
  fShapeCache (renderer w) !! keyOfDimension shape dimension = None ->
  exists made w',
    addDFPathToAtlas w shape dimension scale = Some (made, w') /\
    consistent (renderer w') = true /\ vertices w' = vertices w /\
    insertionOutcome w w' (bool_decide (is_Some made)).
Proof.
  intros Hcons Hfree. unfold addDFPathToAtlas. cbv zeta.
  destruct (GrGenerateDistanceFieldFromPath _ _ _ _) as [field|];
    [|destruct (tryAlloc _ _); cbn [negb]].
  1, 2: use_retry Hcons; destruct found as [[id location]|];
    [ eexists (Some _), _; split; [reflexivity|];
      split; [apply registerShapeData_consistent; auto|];
      split; [exact Hv|]; apply outcome_registered, Hout
    | exists None, w1; auto ].
  exists None, w. repeat split; auto using outcome_nothing.
Qed.

Lemma addBMPathToAtlas_spec (w : World) (shape : GrShape) (ctm : SkMatrix) :
  consistent (renderer w) = true ->
  fShapeCache (renderer w) !! keyOfMatrix shape ctm = None ->
  exists made w',
    addBMPathToAtlas w shape ctm = Some (made, w') /\
    consistent (renderer w') = true /\ vertices w' = vertices w /\
    insertionOutcome w w' (bool_decide (is_Some made)).
Proof.
  intros Hcons Hfree. unfold addBMPathToAtlas. cbv zeta.
  destruct (isEmpty _);
    [exists None, w; repeat split; auto using outcome_nothing|].
  destruct (tryAlloc _ _); cbn [negb];
    [|exists None, w; repeat split; auto using outcome_nothing].
  use_retry Hcons. destruct found as [[id location]|].
  - eexists (Some _), _. split; [reflexivity|].
    split; [apply registerShapeData_consistent; auto|].
    split; [exact Hv|]. apply outcome_registered, Hout.
  - exists None, w1. auto.
Qed.

(** After the insertion: the shape is drawn when a record was made, and
    passed over otherwise. *)
Lemma drawIfMade_spec (w w0 : World) (args : Entry) made w2 :
  flushInfo w0 = flushInfo w -> draws w0 = draws w ->
  atlasCalls w0 = atlasCalls w -> vertices w0 = vertices w ->
  consistent (renderer w2) = true -> vertices w2 = vertices w0 ->
  insertionOutcome w0 w2 (bool_decide (is_Some made)) ->
  exists w',
    drawIfMade args (Some (made, w2)) = Some w' /\
    consistent (renderer w') = true /\
    draws w' = draws w2 /\ atlasCalls w' = atlasCalls w2 /\
    insertionOutcome w w2 (bool_decide (is_Some made)) /\
    match made with
    | Some shapeData =>
        vertices w' =
          vertices w ++ writePathVertices (fColor args) (fTranslate args) shapeData /\
        fInstancesToFlush (flushInfo w') =
          (fInstancesToFlush (flushInfo w2) + 1)%Z
    | None => vertices w' = vertices w /\ flushInfo w' = flushInfo w2
    end.
Proof.
  intros Hf Hd Hc Hv0 Hcons2 Hv2 Hout.
  apply (insertionOutcome_congr w0 w) in Hout; try assumption.
  unfold drawIfMade. cbn [mbind option_bind].
  destruct made as [shapeData|]; eexists; (split; [reflexivity|]).
  - cbn [drawShape renderer draws atlasCalls vertices flushInfo fInstancesToFlush].
    repeat split; auto. congruence.
  - repeat split; auto. congruence.
Qed.

Lemma drawShape_keeps (w : World) (args : Entry) (shapeData : ShapeData) :
  renderer (drawShape w args shapeData) = renderer w /\
  draws (drawShape w args shapeData) = draws w /\
  atlasCalls (drawShape w args shapeData) = atlasCalls w.
Proof. repeat split. Qed.

(** One turn of the loop of [onPrepareDraws]: either the cache had a
    live record and the shape is drawn from it, or an insertion was
    tried and the shape is drawn exactly when a record was made. *)
Lemma prepareEntry_spec (fuel : nat) (op : SmallPathOp) (w : World)
    (args : Entry) :
  consistent (renderer w) = true ->
  (fUsesDistanceField op = true ->
   is_Some (desiredDimension fuel (getMaxScale (fViewMatrix op))
              (SkMaxScalar (width (bounds (fShape args)))
                           (height (bounds (fShape args)))))) ->
  exists w',
    prepareEntry fuel op w args = Some w' /\
    consistent (renderer w') = true /\
    ((atlasCalls w' = atlasCalls w /\ draws w' = draws w) \/
     exists made w2,
       draws w' = draws w2 /\ atlasCalls w' = atlasCalls w2 /\
       insertionOutcome w w2 (bool_decide (is_Some made)) /\
       match made with
       | Some shapeData =>
           vertices w' =
             vertices w ++
             writePathVertices (fColor args) (fTranslate args) shapeData /\
           fInstancesToFlush (flushInfo w') =
             (fInstancesToFlush (flushInfo w2) + 1)%Z
       | None => vertices w' = vertices w /\ flushInfo w' = flushInfo w2
       end).
Proof.
  intros Hcons Hdim. unfold prepareEntry.
  destruct (fUsesDistanceField op).
  - destruct (Hdim eq_refl) as (desired & Hdesired). rewrite Hdesired.
    cbn [mbind option_bind].
    destruct (findShapeData_total w
                (keyOfDimension (fShape args) (SkScalarCeilToInt desired)) Hcons)
      as (found & Hfind).
    rewrite Hfind. cbn [mbind option_bind].
    destruct (usable w found) as [shapeData|].
    + eexists. split; [reflexivity|]. split; [exact Hcons|]. left. auto.
    + destruct (removeStale_spec w _ found Hcons Hfind)
        as (Hcons0 & Hfree & Hd0 & Hv0 & Hf0 & Hc0).
      destruct (addDFPathToAtlas_spec (removeStale w found) (fShape args)
                  (SkScalarCeilToInt desired)
                  (desired / SkMaxScalar (width (bounds (fShape args)))
                                         (height (bounds (fShape args))))
                  Hcons0 Hfree)
        as (made & w2 & Hadd & Hcons2 & Hv2 & Hout).
      rewrite Hadd.
      destruct (drawIfMade_spec w (removeStale w found) args made w2
                  Hf0 Hd0 Hc0 Hv0 Hcons2 Hv2 Hout)
        as (w' & Hdraw & Hcons' & Hd' & Hc' & Hout' & Hmade).
      exists w'. split; [exact Hdraw|]. split; [exact Hcons'|].
      right. exists made, w2. auto.
  - destruct (findShapeData_total w
                (keyOfMatrix (fShape args) (fViewMatrix op)) Hcons)
      as (found & Hfind).
    rewrite Hfind. cbn [mbind option_bind].
    destruct (usable w found) as [shapeData|].
    + eexists. split; [reflexivity|]. split; [exact Hcons|]. left. auto.
    + destruct (removeStale_spec w _ found Hcons Hfind)
        as (Hcons0 & Hfree & Hd0 & Hv0 & Hf0 & Hc0).
      destruct (addBMPathToAtlas_spec (removeStale w found) (fShape args)
                  (fViewMatrix op) Hcons0 Hfree)
        as (made & w2 & Hadd & Hcons2 & Hv2 & Hout).
      rewrite Hadd.
      destruct (drawIfMade_spec w (removeStale w found) args made w2
                  Hf0 Hd0 Hc0 Hv0 Hcons2 Hv2 Hout)
        as (w' & Hdraw & Hcons' & Hd' & Hc' & Hout' & Hmade).
      exists w'. split; [exact Hdraw|]. split; [exact Hcons'|].
      right. exists made, w2. auto.
Qed.

Lemma prepareEntry_total (fuel : nat) (op : SmallPathOp) (w : World)
    (args : Entry) :
  consistent (renderer w) = true ->
  (fUsesDistanceField op = true ->
   is_Some (desiredDimension fuel (getMaxScale (fViewMatrix op))
              (SkMaxScalar (width (bounds (fShape args)))
                           (height (bounds (fShape args)))))) ->
  exists w', prepareEntry fuel op w args = Some w' /\
             consistent (renderer w') = true.
Proof.
  intros Hcons Hdim.
  destruct (prepareEntry_spec fuel op w args Hcons Hdim) as (w' & Hrun & Hcons' & _).
  eauto.
Qed.

(** The whole loop ends, whatever the atlas answers: a shape without
    room in the atlas does not stop the shapes after it. *)
Lemma prepareLoop_total (fuel : nat) (op : SmallPathOp) (entries : list Entry) :
  forall w,
    consistent (renderer w) = true ->
    (fUsesDistanceField op = true ->
     Forall (fun args =>
               is_Some (desiredDimension fuel (getMaxScale (fViewMatrix op))
                          (SkMaxScalar (width (bounds (fShape args)))
                                       (height (bounds (fShape args))))))
            entries) ->
    exists w', prepareLoop fuel op entries w = Some w' /\
               consistent (renderer w') = true.
Proof.
  induction entries as [|args entries IH]; intros w Hcons Hdim.
  - exists w. auto.
  - destruct (prepareEntry_total fuel op w args Hcons) as (w1 & Hrun & Hcons1).
    { intros Hdf. apply Hdim in Hdf. now inversion Hdf. }
    cbn [prepareLoop]. rewrite Hrun. cbn [mbind option_bind].
    apply IH; [exact Hcons1|].
    intros Hdf. apply Hdim in Hdf. now inversion Hdf.
Qed.

End RetryFacts.

Section RetryExample.
Import SmallPath Reference.
#[local] Open Scope Q_scope.

(** Two shapes in one bitmap-mode op; the atlas has room for the first,
    none for the second at first, and room again after the flush.  Both
    are drawn, in two draw calls of one instance each, and the second
    starts where the first ended. *)
Example retry_after_flush_draws_both :
  let opA := SmallPathOp_new false 7%Z (square 2 1) (scaleTranslate 1 (5 # 2) 0) false in
  let opB := SmallPathOp_new false 9%Z (square 3 2) (scaleTranslate 1 (5 # 2) 0) false in
  let op := (onCombineIfPossible opA opB true).2 in
  let script := [([], Some (5%Z, mkIPoint16 0 0)); ([], None);
                 ([5%Z], Some (6%Z, mkIPoint16 0 0))] in
  (fun w => (atlasCalls w, draws w, length (vertices w), fShapeList (renderer w)))
    <$> onPrepareDraws 0 op (Some 0%Z) (Some 1200%Z) (emptyWorld script) =
  Some ([(5, 4, true); (6, 5, false); (6, 5, true)]%Z,
        [mkMesh 6 4 1 100 0; mkMesh 6 4 1 100 4]%Z,
        8%nat, [1%positive]).
Proof. vm_compute. reflexivity. Qed.

End RetryExample.

(** ** Further properties *)

(** *** Transfer functions *)

Section TransferFacts.
Import ColorSpace.

Lemma is_zero_to_one_range (v : float) :
  is_zero_to_one v = fle zero v && fle v one.
Proof. unfold is_zero_to_one. now rewrite add_epsilon_one_rounds_to_one. Qed.

(** X1.  The allowance of [is_zero_to_one] is empty on binary32:
    [1.0f + FLT_MIN] is [1.0f], so exactly the values from 0 to 1 pass,
    and the next float after 1 does not. *)
Theorem is_zero_to_one_exact (v : float) :
  is_zero_to_one v = fle zero v && fle v one /\
  is_zero_to_one (of_Z_exp (2 ^ 23 + 1) (-23)) = false.
Proof.
  split; [apply is_zero_to_one_range | vm_compute; reflexivity].
Qed.

Lemma sign_of_float (x : float) :
  SkScalarIsNaN x = false -> flt x zero = false -> fle zero x = true.
Proof. destruct x as [[]|[]| |[] m e]; cbn; congruence. Qed.

(** X2.  A transfer function that passes [is_valid_transfer_fn] has no NaN
    among its coefficients, its [fD] lies between 0 and 1, and [fA],
    [fC] and [fG] are not negative. *)
Theorem valid_transfer_fn_ranges (coeffs : SkColorSpaceTransferFn) :
  is_valid_transfer_fn coeffs = true ->
  Forall (fun x => SkScalarIsNaN x = false)
    [fA coeffs; fB coeffs; fC coeffs; fD coeffs; fE coeffs; fF coeffs; fG coeffs] /\
  (fle zero (fD coeffs) = true /\ fle (fD coeffs) one = true) /\
  fle zero (fA coeffs) = true /\ fle zero (fC coeffs) = true /\
  fle zero (fG coeffs) = true.
Proof.
  unfold is_valid_transfer_fn. intros Hok.
  destruct (SkScalarIsNaN (fA coeffs)) eqn:Na; [discriminate|].
  destruct (SkScalarIsNaN (fB coeffs)) eqn:Nb; [discriminate|].
  destruct (SkScalarIsNaN (fC coeffs)) eqn:Nc; [discriminate|].
  destruct (SkScalarIsNaN (fD coeffs)) eqn:Nd; [discriminate|].
  destruct (SkScalarIsNaN (fE coeffs)) eqn:Ne; [discriminate|].
  destruct (SkScalarIsNaN (fF coeffs)) eqn:Nf; [discriminate|].
  destruct (SkScalarIsNaN (fG coeffs)) eqn:Ng; [discriminate|].
  cbn [orb] in Hok.
  destruct (is_zero_to_one (fD coeffs)) eqn:Hd; [|discriminate].
  cbn [negb] in Hok.
  repeat match type of Hok with
         | (if ?b then false else _) = true => destruct b eqn:?; [discriminate|]
         end.
  match goal with H : _ || _ = false |- _ => apply orb_false_elim in H as [Ha Hg] end.
  rewrite is_zero_to_one_range in Hd.
  apply andb_prop in Hd.
  split; [repeat constructor; assumption|].
  split; [exact Hd|].
  auto using sign_of_float.
Qed.

Lemma valid_transfer_fn_ranges_witness :
  let coeffs := snd (named_to_parametric (value_to_parametric one) kSRGB_SkGammaNamed) in
  is_valid_transfer_fn coeffs = true /\
  fle zero (fD coeffs) = true /\ fle (fD coeffs) one = true.
Proof.
  intros coeffs. split; [reflexivity|].
  exact (proj1 (proj2 (valid_transfer_fn_ranges coeffs eq_refl))).
Defined.

(** X3.  A pure power curve [value_to_parametric(g)] is valid exactly when
    its exponent compares above zero: a NaN, a zero of either sign and a
    negative exponent are refused, +infinity is accepted. *)
Theorem power_curve_valid_iff_positive (exponent : float) :
  is_valid_transfer_fn (value_to_parametric exponent) = flt zero exponent.
Proof. destruct exponent as [[]|[]| |[] m e]; reflexivity. Qed.

(** X4.  The coefficients written for a named curve are recognized as that
    curve and as no other: [is_almost_srgb] holds of them exactly for
    [kSRGB_SkGammaNamed], [is_almost_2dot2] exactly for
    [k2Dot2Curve_SkGammaNamed]. *)
Theorem named_curves_recognized (coeffs : SkColorSpaceTransferFn)
    (gammaNamed : SkGammaNamed) :
  let '(known, written) := named_to_parametric coeffs gammaNamed in
  (known = true <-> gammaNamed <> kNonStandard_SkGammaNamed) /\
  (known = false -> written = coeffs) /\
  (known = true ->
   (is_almost_srgb written = true <-> gammaNamed = kSRGB_SkGammaNamed) /\
   (is_almost_2dot2 written = true <-> gammaNamed = k2Dot2Curve_SkGammaNamed)).
Proof.
  destruct gammaNamed; cbn [named_to_parametric].
  1-3: split; [split; [discriminate | reflexivity]|];
       split; [discriminate|]; intros _;
       match goal with
       | |- (is_almost_srgb ?c = true <-> _) /\ _ => set (written := c)
       end.
  - assert (E1 : is_almost_srgb written = false) by (vm_compute; reflexivity).
    assert (E2 : is_almost_2dot2 written = false) by (vm_compute; reflexivity).
    clearbody written. rewrite E1, E2. split; split; discriminate.
  - assert (E1 : is_almost_srgb written = true) by (vm_compute; reflexivity).
    assert (E2 : is_almost_2dot2 written = false) by (vm_compute; reflexivity).
    clearbody written. rewrite E1, E2.
    split; split; try discriminate; reflexivity.
  - assert (E1 : is_almost_srgb written = false) by (vm_compute; reflexivity).
    assert (E2 : is_almost_2dot2 written = true) by (vm_compute; reflexivity).
    clearbody written. rewrite E1, E2.
    split; split; try discriminate; reflexivity.
  - split; [split; [discriminate | intros Hne; now destruct Hne]|].
    split; [reflexivity | discriminate].
Qed.

End TransferFacts.

(** *** Evictions compose *)

Section EvictionAlgebra.
Import SmallPath.
Context `{Collaborators}.

Lemma Renderer_eq (r r' : Renderer) :
  fShapeList r = fShapeList r' ->
  (forall p, heap r !! p = heap r' !! p) ->
  (forall key, fShapeCache r !! key = fShapeCache r' !! key) ->
  r = r'.
Proof.
  destruct r as [c l h], r' as [c' l' h']. cbn. intros -> Hh Hc.
  f_equal; now apply map_eq.
Qed.

Lemma filter_all {A} (P : A -> Prop) `{forall x, Decision (P x)} (l : list A) :
  (forall x, x ∈ l -> P x) -> filter P l = l.
Proof.
  induction l as [|x l IH]; intros Hall; [reflexivity|].
  rewrite filter_cons_True by (apply Hall; left).
  f_equal. apply IH. intros y Hy. apply Hall. now right.
Qed.

Lemma filter_agree {A} (P Q : A -> Prop) `{forall x, Decision (P x)}
    `{forall x, Decision (Q x)} (l : list A) :
  (forall x, x ∈ l -> (P x <-> Q x)) -> filter P l = filter Q l.
Proof.
  induction l as [|x l IH]; intros Hall; [reflexivity|].
  assert (Hx : P x <-> Q x) by (apply Hall; left).
  assert (Hl : filter P l = filter Q l).
  { apply IH. intros y Hy. apply Hall. now right. }
  destruct (decide (P x)) as [HP|HP].
  - rewrite !filter_cons_True by tauto. now rewrite Hl.
  - rewrite !filter_cons_False by tauto. exact Hl.
Qed.

Lemma HandleEviction_unused (R : AtlasID) (r : Renderer) :
  consistent r = true ->
  (forall p shapeData,
     p ∈ fShapeList r -> heap r !! p = Some shapeData -> fID shapeData <> R) ->
  HandleEviction R r = Some r.
Proof.
  intros Hcons Hunused.
  destruct (HandleEviction_spec R r Hcons) as (r' & Hrun & Hlist & Hheap & Hcache).
  rewrite Hrun. f_equal.
  assert (Hsurv : forall p, p ∈ fShapeList r -> survives R r p = true).
  { intros p Hp. unfold survives.
    destruct (heap r !! p) as [sd|] eqn:Hsd; [|reflexivity].
    apply bool_decide_eq_true_2. eauto. }
  assert (Hkeep : forall p, dropped R r (fShapeList r) p = false).
  { intros p. apply dropped_all_false. auto. }
  apply Renderer_eq.
  - rewrite Hlist. apply filter_all. intros p Hp. apply Is_true_true. auto.
  - intros p. now rewrite Hheap, Hkeep.
  - intros key. rewrite Hcache.
    destruct (fShapeCache r !! key) as [p|]; [|reflexivity].
    cbn. now rewrite Hkeep.
Qed.

Lemma HandleEviction_clears (R : AtlasID) (r r' : Renderer) :
  consistent r = true -> HandleEviction R r = Some r' ->
  forall p shapeData,
    p ∈ fShapeList r' -> heap r' !! p = Some shapeData -> fID shapeData <> R.
Proof.
  intros Hcons Hrun p sd Hp Hsd.
  destruct (HandleEviction_spec R r Hcons) as (r1 & Hrun1 & Hlist & Hheap & _).
  assert (r1 = r') by congruence. subst r1.
  rewrite Hlist in Hp. apply list_elem_of_filter in Hp as [Hs Hp].
  apply Is_true_true in Hs. rewrite Hheap in Hsd.
  destruct (dropped R r (fShapeList r) p); [discriminate|].
  unfold survives in Hs. rewrite Hsd in Hs. now apply bool_decide_eq_true in Hs.
Qed.

Lemma survives_all (R : AtlasID) (r : Renderer) :
  forallb (survives R r) (fShapeList r) = true ->
  forall p shapeData,
    p ∈ fShapeList r -> heap r !! p = Some shapeData -> fID shapeData <> R.
Proof.
  intros Hall p sd Hp Hsd. rewrite forallb_forall in Hall.
  apply list_elem_of_In in Hp. specialize (Hall p Hp).
  unfold survives in Hall. rewrite Hsd in Hall.
  now apply bool_decide_eq_true in Hall.
Qed.

(** X5.  The eviction of a region that no listed record lies in
    changes nothing at all. *)
Theorem eviction_of_unused_region (R : AtlasID) (dfpr : Renderer) :
  consistent dfpr = true ->
  (forall p shapeData,
     p ∈ fShapeList dfpr -> heap dfpr !! p = Some shapeData ->
     fID shapeData <> R) ->
  HandleEviction R dfpr = Some dfpr.
Proof. apply HandleEviction_unused. Qed.

(** X6.  A second notification for the same region finds nothing
    left to do. *)
Theorem eviction_idempotent (R : AtlasID) (dfpr dfpr' : Renderer) :
  consistent dfpr = true ->
  HandleEviction R dfpr = Some dfpr' ->
  HandleEviction R dfpr' = Some dfpr'.
Proof.
  intros Hcons Hrun. apply HandleEviction_unused.
  - exact (HandleEviction_consistent R dfpr dfpr' Hcons Hrun).
  - exact (HandleEviction_clears R dfpr dfpr' Hcons Hrun).
Qed.

(** What two evictions in a row leave, read off the renderer they
    started from. *)
Lemma two_evictions_spec (R1 R2 : AtlasID) (r : Renderer) :
  consistent r = true ->
  exists r',
    runEvictions [R1; R2] r = Some r' /\
    fShapeList r' =
      filter (fun p => survives R1 r p && survives R2 r p) (fShapeList r) /\
    (forall p, heap r' !! p = if gone R1 R2 r p then None else heap r !! p) /\
    (forall key, fShapeCache r' !! key =
       p ← fShapeCache r !! key; if gone R1 R2 r p then None else Some p).
Proof.
  intros Hcons.
  destruct (HandleEviction_spec R1 r Hcons) as (r1 & Hrun1 & Hl1 & Hh1 & Hc1).
  assert (Hcons1 := HandleEviction_consistent R1 r r1 Hcons Hrun1).
  destruct (HandleEviction_spec R2 r1 Hcons1) as (r2 & Hrun2 & Hl2 & Hh2 & Hc2).
  assert (Hsame : forall p, dropped R1 r (fShapeList r) p = false ->
                            survives R2 r1 p = survives R2 r p).
  { intros p Hd. unfold survives. now rewrite Hh1, Hd. }
  assert (Hboth : forall p,
            dropped R2 r1 (fShapeList r1) p || dropped R1 r (fShapeList r) p
            = gone R1 R2 r p).
  { intros p. destruct (dropped R1 r (fShapeList r) p) eqn:Hd.
    - rewrite orb_true_r. unfold dropped in Hd. unfold gone.
      apply andb_true_iff in Hd as [-> Hs]. apply negb_true_iff in Hs.
      now rewrite Hs.
    - rewrite orb_false_r. unfold dropped at 1. rewrite (Hsame p Hd).
      unfold gone. unfold dropped in Hd.
      destruct (decide (p ∈ fShapeList r)) as [Hin|Hout].
      + rewrite (bool_decide_eq_true_2 _ Hin) in Hd |- *. cbn in Hd.
        apply negb_false_iff in Hd. rewrite Hd.
        rewrite bool_decide_eq_true_2; [reflexivity|].
        rewrite Hl1. apply list_elem_of_filter. split; [|exact Hin].
        now apply Is_true_true.
      + rewrite (bool_decide_eq_false_2 _ Hout).
        rewrite bool_decide_eq_false_2; [reflexivity|].
        rewrite Hl1. intros Hin. apply list_elem_of_filter in Hin. tauto. }
  exists r2. split; [|split; [|split]].
  - cbn [runEvictions]. rewrite Hrun1. cbn [mbind option_bind].
    rewrite Hrun2. reflexivity.
  - rewrite Hl2, Hl1, list_filter_filter. apply filter_agree.
    intros p Hp. rewrite andb_True. split.
    + intros [H2 H1]. split; [exact H1|].
      rewrite <- Hsame; [exact H2|].
      apply dropped_all_false. intros _. now apply Is_true_true.
    + intros [H1 H2]. split; [|exact H1].
      rewrite Hsame; [exact H2|].
      apply dropped_all_false. intros _. now apply Is_true_true.
  - intros p. rewrite Hh2, Hh1, <- Hboth.
    now destruct (dropped R2 r1 (fShapeList r1) p),
                 (dropped R1 r (fShapeList r) p).
  - intros key. rewrite Hc2, Hc1.
    destruct (fShapeCache r !! key) as [p|]; [|reflexivity].
    cbn [mbind option_bind]. rewrite <- Hboth.
    destruct (dropped R1 r (fShapeList r) p); cbn [mbind option_bind].
    + now rewrite orb_true_r.
    + now rewrite orb_false_r.
Qed.

(** X7.  The atlas may report two reclaimed regions in either order:
    the callback leaves the same cache, the same list in the same
    order and the same allocation. *)
Theorem evictions_commute (R1 R2 : AtlasID) (dfpr : Renderer) :
  consistent dfpr = true ->
  runEvictions [R1; R2] dfpr = runEvictions [R2; R1] dfpr /\
  is_Some (runEvictions [R1; R2] dfpr).
Proof.
  intros Hcons.
  destruct (two_evictions_spec R1 R2 dfpr Hcons) as (a & Ha & Hla & Hha & Hca).
  destruct (two_evictions_spec R2 R1 dfpr Hcons) as (b & Hb & Hlb & Hhb & Hcb).
  assert (Hgone : forall p, gone R1 R2 dfpr p = gone R2 R1 dfpr p).
  { intros p. unfold gone. now rewrite (andb_comm (survives R1 dfpr p)). }
  rewrite Ha, Hb. split; [|eauto]. f_equal. apply Renderer_eq.
  - rewrite Hla, Hlb. apply filter_agree. intros p _.
    now rewrite (andb_comm (survives R1 dfpr p)).
  - intros p. now rewrite Hha, Hhb, Hgone.
  - intros key. rewrite Hca, Hcb.
    destruct (fShapeCache dfpr !! key) as [p|]; [|reflexivity].
    cbn [mbind option_bind]. now rewrite Hgone.
Qed.

End EvictionAlgebra.

Section EvictionAlgebraExample.
Import SmallPath Reference.

Lemma threeRecords_consistent : consistent threeRecords = true.
Proof. vm_compute. reflexivity. Qed.

Lemma eviction_of_unused_region_witness :
  HandleEviction 7%Z threeRecords = Some threeRecords.
Proof.
  apply (eviction_of_unused_region 7%Z threeRecords).
  - vm_compute. reflexivity.
  - apply survives_all. vm_compute. reflexivity.
Defined.

Lemma eviction_idempotent_witness :
  exists dfpr',
    HandleEviction 5%Z threeRecords = Some dfpr' /\
    HandleEviction 5%Z dfpr' = Some dfpr'.
Proof.
  destruct (HandleEviction_spec 5%Z threeRecords threeRecords_consistent)
    as (r' & Hrun & _).
  exists r'. split; [exact Hrun|].
  apply (eviction_idempotent 5%Z threeRecords r'); [|exact Hrun].
  vm_compute. reflexivity.
Defined.

Lemma evictions_commute_witness :
  runEvictions [5%Z; 6%Z] threeRecords = runEvictions [6%Z; 5%Z] threeRecords /\
  is_Some (runEvictions [5%Z; 6%Z] threeRecords).
Proof.
  apply (evictions_commute 5%Z 6%Z threeRecords). vm_compute. reflexivity.
Defined.

End EvictionAlgebraExample.

(** *** The resolution of a distance field *)

Section ResolutionFacts.
Import SmallPath.
#[local] Open Scope Q_scope.

Lemma double_loop_range f : forall x r,
  0 < x -> x < kIdealMinMIP -> double_loop f x = Some r ->
  kIdealMinMIP <= r /\ r < 2 * kIdealMinMIP.
Proof.
  induction f as [|f IH]; intros x r Hx Hlt H; [discriminate|].
  cbn [double_loop] in H.
  destruct (Qltb (x * 2) kIdealMinMIP) eqn:E.
  - apply Qltb_lt in E. apply (IH (x * 2)); [lra | exact E | exact H].
  - apply Qltb_ge in E. injection H as <-. unfold kIdealMinMIP in *. lra.
Qed.

Lemma quarter_loop_stays f b x r :
  x <= 4 * b -> quarter_loop f b x = Some r -> r = x.
Proof.
  intros Hle H. destruct f as [|f]; [discriminate|].
  cbn [quarter_loop] in H.
  assert (E : Qltb (4 * b) x = false) by now apply Qltb_ge.
  rewrite E in H. congruence.
Qed.

Lemma adjustMipSize_ge f m r :
  0 < m -> adjustMipSize f m = Some r -> m <= r.
Proof.
  intros Hm H. destruct (Qltb m kIdealMinMIP) eqn:E.
  - apply Qltb_lt in E.
    destruct (adjustMipSize_two_or_four f m r Hm E H); lra.
  - unfold adjustMipSize in H. rewrite E in H. injection H as <-. lra.
Qed.

(** X8.  The adjustment of lines 304-313 brings a size up to
    [kIdealMinMIP] exactly when it started at a quarter of it or
    more: from 3 on the result lies in [12, 24), below 3 it stays
    under 12 because the second loop does not let it pass four times
    the size it started from.  In no case is the size made
    smaller. *)
Theorem adjustMipSize_ideal_minimum (fuel : nat) (mipSize r : Q) :
  0 < mipSize -> adjustMipSize fuel mipSize = Some r ->
  (kIdealMinMIP <= r <-> kIdealMinMIP / 4 <= mipSize) /\
  (mipSize < kIdealMinMIP -> 2 * mipSize <= r /\ r < 2 * kIdealMinMIP).
Proof.
  intros Hm H.
  assert (Hq : kIdealMinMIP / 4 == 3) by reflexivity. rewrite Hq.
  destruct (Qltb mipSize kIdealMinMIP) eqn:E.
  - apply Qltb_lt in E.
    assert (H24 := adjustMipSize_two_or_four fuel mipSize r Hm E H).
    assert (Hle := adjustMipSize_le fuel mipSize r Hm H).
    unfold adjustMipSize in H. rewrite (proj2 (Qltb_lt _ _) E) in H.
    destruct (double_loop fuel mipSize) as [n|] eqn:D; [|discriminate].
    cbn [mbind option_bind] in H.
    destruct (double_loop_range fuel mipSize n Hm E D) as [Hn12 Hn24].
    destruct (double_loop_pow fuel mipSize mipSize n 0) as (k & Hk & Hn);
      [change (pow2 (Z.of_nat 0)) with 1; ring | exact D |].
    split.
    + split.
      * intros Hr. unfold kIdealMinMIP in *. lra.
      * intros H3.
        assert (Hk2 : (k <= 2)%nat).
        { destruct (le_lt_dec k 2) as [Hle2|Hgt]; [exact Hle2|exfalso].
          assert (Hp : pow2 3 <= pow2 (Z.of_nat k)) by (apply pow2_le; lia).
          change (pow2 3) with 8 in Hp. unfold kIdealMinMIP in *. nra. }
        assert (Hp : pow2 (Z.of_nat k) <= pow2 2) by (apply pow2_le; lia).
        change (pow2 2) with 4 in Hp.
        assert (Hn4 : n <= 4 * mipSize) by nra.
        rewrite (quarter_loop_stays fuel mipSize n r Hn4 H). exact Hn12.
    + intros _. split; [destruct H24; lra|].
      assert (Hrn : r <= n).
      { apply (quarter_loop_le_input fuel mipSize n r); [|exact H].
        unfold kIdealMinMIP in *. lra. }
      lra.
  - pose proof E as Hge. apply Qltb_ge in Hge.
    unfold adjustMipSize in H. rewrite E in H. injection H as <-.
    split; [|intros Hlt; unfold kIdealMinMIP in *; lra].
    unfold kIdealMinMIP in *. split; intros _; lra.
Qed.

Lemma adjustMipSize_ideal_minimum_witness :
  let r := 40 # 8 in
  adjustMipSize 6 (5 # 2) = Some r /\
  (kIdealMinMIP <= r <-> kIdealMinMIP / 4 <= 5 # 2) /\
  (5 # 2 < kIdealMinMIP -> 2 * (5 # 2) <= r /\ r < 2 * kIdealMinMIP).
Proof.
  cbv zeta. split; [vm_compute; reflexivity|].
  apply (adjustMipSize_ideal_minimum 6 (5 # 2) (40 # 8)).
  - reflexivity.
  - vm_compute. reflexivity.
Defined.

Lemma selectMipScale_ge s : 0 < s -> s <= selectMipScale s.
Proof.
  intros Hs.
  destruct (Qlt_le_dec (1 # 2) s) as [Hhalf|Hhalf].
  - destruct (Qlt_le_dec 1 s) as [Hone|Hone].
    + destruct (selectMipScale_large s Hone) as (-> & Hle & _). exact Hle.
    + destruct (selectMipScale_unit s Hhalf Hone) as (-> & _). exact Hone.
  - destruct (selectMipScale_small s Hs Hhalf) as (-> & Hle & _). exact Hle.
Qed.

Lemma selectMipScale_zero s : s == 0 -> selectMipScale s = 0.
Proof.
  intros Hs. unfold selectMipScale.
  assert (E1 : Qle_bool s SK_ScalarHalf = true).
  { apply Qle_bool_iff. unfold SK_ScalarHalf. lra. }
  assert (E2 : Qeq_bool s 0 = true) by now apply Qeq_bool_iff.
  now rewrite E1, E2.
Qed.

Lemma desiredDimension_scale_nonzero fuel s maxDim d :
  desiredDimension fuel s maxDim = Some d -> 0 < SkScalarAbs s.
Proof.
  intros H. apply SkScalarAbs_pos. intros Hs.
  unfold desiredDimension, adjustMipSize in H.
  assert (Habs : SkScalarAbs s == 0).
  { unfold SkScalarAbs. rewrite Hs. reflexivity. }
  rewrite (selectMipScale_zero _ Habs) in H.
  assert (Hz : 0 * SkScalarAbs maxDim == 0) by ring.
  assert (E : Qltb (0 * SkScalarAbs maxDim) kIdealMinMIP = true).
  { apply Qltb_lt. unfold kIdealMinMIP. lra. }
  rewrite E, (double_loop_zero fuel _ Hz) in H. discriminate.
Qed.

(** What [desiredDimension] leaves, for a shape with a positive larger
    side: the size after the adjustment, capped at [kMaxMIP]. *)
Lemma desiredDimension_spec fuel s maxDim d :
  0 < maxDim -> desiredDimension fuel s maxDim = Some d ->
  let mipScale := selectMipScale (SkScalarAbs s) in
  0 < SkScalarAbs s /\ SkScalarAbs s <= mipScale /\
  exists r,
    mipScale * maxDim <= r /\ r <= 4 * (mipScale * maxDim) /\
    d = SkTMin r kMaxMIP.
Proof.
  intros Hd H mipScale.
  assert (Hs := desiredDimension_scale_nonzero fuel s maxDim d H).
  assert (HM : SkScalarAbs s <= mipScale) by now apply selectMipScale_ge.
  split; [exact Hs|]. split; [exact HM|].
  unfold desiredDimension in H. fold mipScale in H.
  destruct (adjustMipSize fuel (mipScale * SkScalarAbs maxDim)) as [r|] eqn:A;
    [|discriminate].
  cbn [mbind option_bind] in H. injection H as <-.
  assert (Habs : SkScalarAbs maxDim == maxDim)
    by (apply SkScalarAbs_of_pos; lra).
  assert (Hm : 0 < mipScale * SkScalarAbs maxDim) by nra.
  exists r. split; [|split; [|reflexivity]].
  - rewrite <- Habs. exact (adjustMipSize_ge fuel _ r Hm A).
  - rewrite <- Habs. exact (adjustMipSize_le fuel _ r Hm A).
Qed.

End ResolutionFacts.

(** *** The records of the renditions *)

Section RenditionFacts.
Import SmallPath.
Context `{Collaborators}.
#[local] Open Scope Q_scope.

Lemma callAddToAtlas_calls (w w' : World) (width height : Z) (data : Pixels)
    found :
  callAddToAtlas w width height data = Some (found, w') ->
  atlasCalls w' =
    atlasCalls w ++ [(width, height, bool_decide (is_Some found))].
Proof.
  unfold callAddToAtlas.
  destruct (addToAtlas _ _ _ _ _) as [[atlas' evicted] found'].
  destruct (runEvictions evicted (renderer w)) as [r'|]; [|discriminate].
  cbn [mbind option_bind]. intros [= <- <-]. reflexivity.
Qed.

(** An insertion that found room made one call, or one that found no
    room and then one more, both for the same size. *)
Lemma addToAtlasWithRetry_made (w w' : World) (width height : Z)
    (data : Pixels) location :
  addToAtlasWithRetry w width height data = Some (Some location, w') ->
  exists calls,
    atlasCalls w' = atlasCalls w ++ calls ++ [(width, height, true)] /\
    (calls = [] \/ calls = [(width, height, false)]).
Proof.
  unfold addToAtlasWithRetry.
  destruct (callAddToAtlas w width height data) as [[found w1]|] eqn:E1;
    [|discriminate].
  cbn [mbind option_bind]. apply callAddToAtlas_calls in E1.
  destruct found as [location1|].
  - intros [= <- <-]. exists []. split; [exact E1|now left].
  - intros E2. apply callAddToAtlas_calls in E2.
    destruct (flush_keeps w1) as (_ & _ & _ & Hcalls & _).
    rewrite Hcalls, E1, <- app_assoc in E2.
    exists [(width, height, false)]. split; [|now right].
    rewrite E2. reflexivity.
Qed.


End RenditionFacts.

Section RenditionExample.
Import SmallPath Reference.
#[local] Open Scope Q_scope.


End RenditionExample.

(** *** What a turn of the loop leaves for the next *)

Section PrepareFacts.
Import SmallPath.
Context `{Collaborators}.

Lemma callAddToAtlas_keeps (w w' : World) (width height : Z) (data : Pixels)
    found :
  callAddToAtlas w width height data = Some (found, w') ->
  draws w' = draws w /\ vertices w' = vertices w /\
  flushInfo w' = flushInfo w.
Proof.
  unfold callAddToAtlas.
  destruct (addToAtlas _ _ _ _ _) as [[atlas' evicted] found'].
  destruct (runEvictions evicted (renderer w)) as [r'|]; [|discriminate].
  cbn [mbind option_bind]. intros [= <- <-]. auto.
Qed.

Lemma addToAtlasWithRetry_keeps (w w' : World) (width height : Z)
    (data : Pixels) found :
  addToAtlasWithRetry w width height data = Some (found, w') ->
  vertices w' = vertices w /\ flushedOrNot w w'.
Proof.
  unfold addToAtlasWithRetry.
  destruct (callAddToAtlas w width height data) as [[found1 w1]|] eqn:E1;
    [|discriminate].
  cbn [mbind option_bind].
  apply callAddToAtlas_keeps in E1 as (Hd1 & Hv1 & Hf1).
  destruct found1 as [location1|].
  - intros [= <- <-]. split; [exact Hv1|]. left. auto.
  - intros E2. apply callAddToAtlas_keeps in E2 as (Hd2 & Hv2 & Hf2).
    destruct (flush_keeps w1) as (_ & _ & Hv & _).
    destruct (flush_congr w1 w Hf1 Hd1) as [Hd Hf].
    split; [congruence|]. right. split; congruence.
Qed.

Lemma addDFPathToAtlas_keeps (w w' : World) (shape : GrShape) (dimension : Z)
    (scale : Q) made :
  addDFPathToAtlas w shape dimension scale = Some (made, w') ->
  vertices w' = vertices w /\ flushedOrNot w w' /\
  forall shapeData,
    made = Some shapeData ->
    fKey shapeData = keyOfDimension shape dimension /\
    exists w1, w' = registerShapeData w1 shapeData.
Proof.
  unfold addDFPathToAtlas. cbv zeta.
  match goal with
  | |- match ?storage with _ => _ end = _ -> _ =>
      destruct storage as [data|]
  end.
  - destruct (addToAtlasWithRetry _ _ _ _) as [[found w1]|] eqn:Hretry;
      cbn [mbind option_bind]; [|discriminate].
    apply addToAtlasWithRetry_keeps in Hretry as [Hv Hf].
    destruct found as [[id location]|]; intros [= <- <-].
    + split; [exact Hv|]. split; [exact Hf|].
      intros shapeData [= <-]. split; [reflexivity|]. now exists w1.
    + split; [exact Hv|]. split; [exact Hf|]. discriminate.
  - intros [= <- <-]. split; [reflexivity|]. split; [now left|]. discriminate.
Qed.

Lemma addBMPathToAtlas_keeps (w w' : World) (shape : GrShape) (ctm : SkMatrix)
    made :
  addBMPathToAtlas w shape ctm = Some (made, w') ->
  vertices w' = vertices w /\ flushedOrNot w w' /\
  forall shapeData,
    made = Some shapeData ->
    fKey shapeData = keyOfMatrix shape ctm /\
    exists w1, w' = registerShapeData w1 shapeData.
Proof.
  unfold addBMPathToAtlas.
  destruct (isEmpty (bounds shape)).
  { intros [= <- <-]. split; [reflexivity|]. split; [now left|]. discriminate. }
  cbv zeta. destruct (tryAlloc _ _); cbn [negb].
  - destruct (addToAtlasWithRetry _ _ _ _) as [[found w1]|] eqn:Hretry;
      cbn [mbind option_bind]; [|discriminate].
    apply addToAtlasWithRetry_keeps in Hretry as [Hv Hf].
    destruct found as [[id location]|]; intros [= <- <-].
    + split; [exact Hv|]. split; [exact Hf|].
      intros shapeData [= <-]. split; [reflexivity|]. now exists w1.
    + split; [exact Hv|]. split; [exact Hf|]. discriminate.
  - intros [= <- <-]. split; [reflexivity|]. split; [now left|]. discriminate.
Qed.

Lemma removeStale_keeps (w : World) found :
  draws (removeStale w found) = draws w /\
  vertices (removeStale w found) = vertices w /\
  flushInfo (removeStale w found) = flushInfo w.
Proof. destruct found as [[p shapeData]|]; auto. Qed.

(** A record just registered is what its key finds. *)
Lemma findShapeData_registered (w : World) (shapeData : ShapeData) :
  exists p,
    findShapeData (registerShapeData w shapeData) (fKey shapeData)
    = Some (Some (p, shapeData)).
Proof.
  exists (fresh (dom (heap (renderer w)))).
  unfold findShapeData, cache_find, registerShapeData.
  cbn [renderer set_renderer_atlas fShapeCache heap].
  rewrite lookup_insert_eq. cbn [mbind option_bind].
  now rewrite lookup_insert_eq.
Qed.

Lemma usable_hit (w : World) found shapeData :
  usable w found = Some shapeData ->
  exists p, found = Some (p, shapeData) /\
            hasID (atlas w) (fID shapeData) = true.
Proof.
  destruct found as [[p sd]|]; [|discriminate]. cbn.
  destruct (hasID (atlas w) (fID sd)) eqn:E; [|discriminate].
  intros [= <-]. eauto.
Qed.

(** What one lookup and the draw or insertion after it do, for either
    kind of rendition: [insert] is [addDFPathToAtlas] or
    [addBMPathToAtlas] with its arguments, [key] the key looked
    up. *)
Lemma lookup_then_draw (w w1 : World) (args : Entry) (key : Key) found
    (insert : World -> option (option ShapeData * World)) :
  (forall w0 w' made,
     insert w0 = Some (made, w') ->
     vertices w' = vertices w0 /\ flushedOrNot w0 w' /\
     forall shapeData,
       made = Some shapeData ->
       fKey shapeData = key /\
       exists w1, w' = registerShapeData w1 shapeData) ->
  findShapeData w key = Some found ->
  match usable w found with
  | Some shapeData => Some (drawShape w args shapeData)
  | None => drawIfMade args (insert (removeStale w found))
  end = Some w1 ->
  (vertices w1 = vertices w /\ flushedOrNot w w1) \/
  exists shapeData w0,
    w1 = drawShape w0 args shapeData /\
    vertices w0 = vertices w /\ flushedOrNot w w0 /\
    exists p, findShapeData w1 key = Some (Some (p, shapeData)).
Proof.
  intros Hinsert Hfind Hrun.
  destruct (usable w found) as [shapeData|] eqn:Husable.
  - injection Hrun as <-. right. exists shapeData, w.
    apply usable_hit in Husable as (p & -> & _).
    split; [reflexivity|]. split; [reflexivity|]. split; [now left|].
    exists p. exact Hfind.
  - destruct (insert (removeStale w found)) as [[made w2]|] eqn:Hins;
      [|discriminate].
    destruct (Hinsert _ _ _ Hins) as (Hv & Hf & Hmade).
    destruct (removeStale_keeps w found) as (Hd0 & Hv0 & Hf0).
    assert (Hf' : flushedOrNot w w2).
    { destruct Hf as [[Hd Hfi]|[Hd Hfi]]; [left|right].
      - split; congruence.
      - destruct (flush_congr _ _ Hf0 Hd0). split; congruence. }
    cbn [drawIfMade mbind option_bind] in Hrun.
    destruct made as [shapeData|]; injection Hrun as <-.
    + right. exists shapeData, w2.
      split; [reflexivity|]. split; [congruence|]. split; [exact Hf'|].
      destruct (Hmade shapeData eq_refl) as (<- & w3 & ->).
      apply findShapeData_registered.
    + left. split; [congruence|exact Hf'].
Qed.

(** Either kind of turn, seen through [lookup_then_draw]. *)
Lemma prepareEntry_cases (fuel : nat) (op : SmallPathOp) (w w1 : World)
    (args : Entry) :
  prepareEntry fuel op w args = Some w1 ->
  exists key,
    (forall (w0 : World) found shapeData,
       findShapeData w0 key = Some found ->
       usable w0 found = Some shapeData ->
       prepareEntry fuel op w0 args = Some (drawShape w0 args shapeData)) /\
    ((vertices w1 = vertices w /\ flushedOrNot w w1) \/
     exists shapeData w0,
       w1 = drawShape w0 args shapeData /\
       vertices w0 = vertices w /\ flushedOrNot w w0 /\
       exists p, findShapeData w1 key = Some (Some (p, shapeData))).
Proof.
  unfold prepareEntry. destruct (fUsesDistanceField op).
  - set (maxDim := SkMaxScalar _ _).
    destruct (desiredDimension fuel _ maxDim) as [desired|]; [|discriminate].
    cbn [mbind option_bind].
    set (key := keyOfDimension _ _).
    destruct (findShapeData w key) as [found|] eqn:Hfind; [|discriminate].
    cbn [mbind option_bind]. intros Hrun. exists key. split.
    + intros w0 found0 shapeData Hfind0 Husable.
      rewrite Hfind0. cbn [mbind option_bind]. now rewrite Husable.
    + apply (lookup_then_draw w w1 args key found
               (fun w0 => addDFPathToAtlas w0 (fShape args)
                            (SkScalarCeilToInt desired) (desired / maxDim)));
        [|exact Hfind|exact Hrun].
      intros w0 w' made. apply addDFPathToAtlas_keeps.
  - set (key := keyOfMatrix _ _).
    destruct (findShapeData w key) as [found|] eqn:Hfind; [|discriminate].
    cbn [mbind option_bind]. intros Hrun. exists key. split.
    + intros w0 found0 shapeData Hfind0 Husable.
      rewrite Hfind0. cbn [mbind option_bind]. now rewrite Husable.
    + apply (lookup_then_draw w w1 args key found
               (fun w0 => addBMPathToAtlas w0 (fShape args) (fViewMatrix op)));
        [|exact Hfind|exact Hrun].
      intros w0 w' made. apply addBMPathToAtlas_keeps.
Qed.

(** X13.  A shape that was drawn is in the cache afterwards: when the
    turn of the loop for an entry has written its quad from a record
    (found, or just made), the same turn taken again draws from that
    very record, without a call to the atlas, as long as the atlas
    still holds the record's region. *)
Theorem drawn_shape_is_cached (fuel : nat) (op : SmallPathOp) (w w1 : World)
    (args : Entry) :
  prepareEntry fuel op w args = Some w1 ->
  vertices w1 = vertices w \/
  exists shapeData,
    vertices w1 =
      vertices w ++ writePathVertices (fColor args) (fTranslate args) shapeData /\
    (hasID (atlas w1) (fID shapeData) = true ->
     prepareEntry fuel op w1 args = Some (drawShape w1 args shapeData)).
Proof.
  intros Hrun.
  destruct (prepareEntry_cases fuel op w w1 args Hrun) as (key & Hagain & Hcase).
  destruct Hcase as [[Hv _]|(shapeData & w0 & Hw1 & Hv & _ & p & Hfind)].
  - now left.
  - right. exists shapeData. split.
    + rewrite Hw1. cbn [vertices drawShape]. now rewrite Hv.
    + intros Hheld. apply (Hagain w1 _ _ Hfind).
      cbn [usable]. now rewrite Hheld.
Qed.

Lemma instancesOf_snoc (meshes : list GrMesh) (mesh : GrMesh) :
  instancesOf (meshes ++ [mesh])
  = (instancesOf meshes + fPatternRepeatCount mesh)%Z.
Proof.
  induction meshes as [|m meshes IH]; cbn [instancesOf app foldr] in *.
  - lia.
  - unfold instancesOf in *. cbn [foldr]. rewrite IH. lia.
Qed.

Lemma tiled_snoc (meshes : list GrMesh) (mesh : GrMesh) : forall base,
  tiled base meshes ->
  fBaseVertex mesh = (base + kVerticesPerQuad * instancesOf meshes)%Z ->
  (0 < fPatternRepeatCount mesh)%Z ->
  fVertexCount mesh = kVerticesPerQuad -> fIndexCount mesh = kIndicesPerQuad ->
  tiled base (meshes ++ [mesh]).
Proof.
  induction meshes as [|m meshes IH]; intros base Ht Hb Hr Hv Hi.
  - cbn in *. repeat split; auto. rewrite Hb. unfold instancesOf. cbn. lia.
  - cbn [app tiled] in *. destruct Ht as (Hbm & Hrm & Hvm & Him & Ht).
    repeat split; auto. apply IH; auto.
    rewrite Hb. unfold instancesOf. cbn [foldr]. lia.
Qed.

Lemma accounted_transfer base draws0 vertices0 budget (w w' : World) :
  draws w' = draws w -> flushInfo w' = flushInfo w ->
  vertices w' = vertices w ->
  accounted base draws0 vertices0 budget w ->
  accounted base draws0 vertices0 budget w'.
Proof.
  intros Hd Hf Hv (meshes & quads & H1 & H2 & H3 & H4 & H5 & H6 & H7).
  exists meshes, quads. rewrite Hd, Hf, Hv. auto 10.
Qed.

Lemma accounted_flush base draws0 vertices0 budget (w : World) :
  accounted base draws0 vertices0 budget w ->
  accounted base draws0 vertices0 budget (flush w) /\
  fInstancesToFlush (flushInfo (flush w)) = 0%Z.
Proof.
  intros (meshes & quads & Hd & Hv & Ht & Ho & Hp & Hl & Hb).
  unfold flush. case_bool_decide as Hne.
  - split; [|reflexivity].
    eexists (meshes ++ [_]), quads. cbn [draws vertices flushInfo].
    rewrite instancesOf_snoc. cbn [fPatternRepeatCount].
    split; [now rewrite Hd, app_assoc|]. split; [exact Hv|].
    split; [apply tiled_snoc; auto; cbn; lia|].
    cbn [fVertexOffset fInstancesToFlush fPatternRepeatCount].
    unfold kVerticesPerQuad in *. repeat split; lia.
  - split; [exists meshes, quads; auto 10|].
    destruct (decide (fInstancesToFlush (flushInfo w) = 0%Z)); tauto.
Qed.

Lemma accounted_flushedOrNot base draws0 vertices0 budget (w w' : World) :
  vertices w' = vertices w -> flushedOrNot w w' ->
  accounted base draws0 vertices0 budget w ->
  accounted base draws0 vertices0 budget w'.
Proof.
  intros Hv [[Hd Hf]|[Hd Hf]] Hacc.
  - exact (accounted_transfer _ _ _ _ w w' Hd Hf Hv Hacc).
  - apply (accounted_transfer _ _ _ _ (flush w) w' Hd Hf).
    + destruct (flush_keeps w) as (_ & _ & Hvf & _). congruence.
    + apply accounted_flush, Hacc.
Qed.

Lemma accounted_more base draws0 vertices0 budget (w : World) :
  accounted base draws0 vertices0 budget w ->
  accounted base draws0 vertices0 (budget + 1) w.
Proof.
  intros (meshes & quads & H1 & H2 & H3 & H4 & H5 & H6 & H7).
  exists meshes, quads. repeat split; auto. lia.
Qed.

Lemma accounted_drawShape base draws0 vertices0 budget (w : World)
    (args : Entry) (shapeData : ShapeData) :
  accounted base draws0 vertices0 budget w ->
  accounted base draws0 vertices0 (budget + 1) (drawShape w args shapeData).
Proof.
  intros (meshes & quads & Hd & Hv & Ht & Ho & Hp & Hl & Hb).
  exists meshes,
    (quads ++ writePathVertices (fColor args) (fTranslate args) shapeData).
  cbn [drawShape draws vertices flushInfo fVertexOffset fInstancesToFlush].
  split; [exact Hd|]. split; [now rewrite Hv, app_assoc|].
  split; [exact Ht|]. split; [exact Ho|].
  rewrite length_app. cbn [writePathVertices length].
  unfold kVerticesPerQuad in *. repeat split; lia.
Qed.

Lemma prepareEntry_accounted base draws0 vertices0 budget (fuel : nat)
    (op : SmallPathOp) (w w1 : World) (args : Entry) :
  prepareEntry fuel op w args = Some w1 ->
  accounted base draws0 vertices0 budget w ->
  accounted base draws0 vertices0 (budget + 1) w1.
Proof.
  intros Hrun Hacc.
  destruct (prepareEntry_cases fuel op w w1 args Hrun) as (key & _ & Hcase).
  destruct Hcase as [[Hv Hf]|(shapeData & w0 & -> & Hv & Hf & _)].
  - apply accounted_more. exact (accounted_flushedOrNot _ _ _ _ w w1 Hv Hf Hacc).
  - apply accounted_drawShape.
    exact (accounted_flushedOrNot _ _ _ _ w w0 Hv Hf Hacc).
Qed.

Lemma prepareLoop_accounted base draws0 vertices0 (fuel : nat)
    (op : SmallPathOp) (entries : list Entry) : forall budget (w w' : World),
  prepareLoop fuel op entries w = Some w' ->
  accounted base draws0 vertices0 budget w ->
  accounted base draws0 vertices0 (budget + Z.of_nat (length entries)) w'.
Proof.
  induction entries as [|args entries IH]; intros budget w w' Hrun Hacc.
  - injection Hrun as <-. cbn [length]. now rewrite Z.add_0_r.
  - cbn [prepareLoop] in Hrun.
    destruct (prepareEntry fuel op w args) as [w1|] eqn:Hstep; [|discriminate].
    cbn [mbind option_bind] in Hrun.
    replace (budget + Z.of_nat (length (args :: entries)))%Z
      with (budget + 1 + Z.of_nat (length entries))%Z by (cbn [length]; lia).
    apply (IH _ w1 w' Hrun).
    exact (prepareEntry_accounted _ _ _ _ fuel op w w1 args Hstep Hacc).
Qed.

(** X14.  The bookkeeping of [onPrepareDraws].  Whatever the atlas
    answers and however often the loop has to flush, the meshes it
    records lie end to end in the vertex space from [vertexOffset] on,
    none of them empty, and together they draw exactly the quads the
    loop has written, four vertices each: no quad is left out of the
    draws and none is drawn twice.  At most one quad is written for
    each entry of the op. *)
Theorem prepared_meshes_tile_vertices (fuel : nat) (op : SmallPathOp)
    (vertexOffset indexBufferSize : Z) (w w' : World) :
  onPrepareDraws fuel op (Some vertexOffset) (Some indexBufferSize) w
  = Some w' ->
  exists meshes quads,
    draws w' = draws w ++ meshes /\
    vertices w' = vertices w ++ quads /\
    tiled vertexOffset meshes /\
    Z.of_nat (length quads) = (kVerticesPerQuad * instancesOf meshes)%Z /\
    (instancesOf meshes <= Z.of_nat (length (fShapes op)))%Z.
Proof.
  unfold onPrepareDraws.
  destruct (negb (fUsesDistanceField op) && usesLocalCoords (fHelper op) &&
            negb (bool_decide (is_Some (invert (fViewMatrix op))))).
  { intros [= <-]. exists [], []. rewrite !app_nil_r.
    repeat split; try reflexivity. unfold instancesOf. cbn [foldr]. lia. }
  cbv zeta. set (w0 := mkWorld _ _ _ _ _ _).
  destruct (prepareLoop fuel op (fShapes op) w0) as [w1|] eqn:Hloop;
    [|discriminate].
  cbn [mbind option_bind]. intros [= <-].
  assert (Hstart : accounted vertexOffset (draws w) (vertices w) 0 w0).
  { exists [], []. cbn. rewrite !app_nil_r. unfold instancesOf. cbn [foldr].
    repeat split; lia. }
  assert (Hend := prepareLoop_accounted _ _ _ fuel op (fShapes op) 0 w0 w1
                    Hloop Hstart).
  destruct (accounted_flush _ _ _ _ w1 Hend)
    as [(meshes & quads & Hd & Hv & Ht & Ho & Hp & Hl & Hb) Hzero].
  exists meshes, quads. rewrite Hzero in *.
  repeat split; auto; lia.
Qed.

End PrepareFacts.

(** *** The structures of the op test *)

Section ResetFacts.
Import SmallPath.
Context `{Collaborators}.

Lemma reset_loop_spec (iter : list ptr) : forall r,
  NoDup iter -> (forall p, p ∈ iter -> is_Some (heap r !! p)) ->
  exists r',
    reset_loop iter r = Some r' /\
    fShapeCache r' = fShapeCache r /\
    fShapeList r' = filter (fun q => q ∉ iter) (fShapeList r) /\
    forall q, heap r' !! q
              = if bool_decide (q ∈ iter) then None else heap r !! q.
Proof.
  induction iter as [|p iter IH]; intros r Hnd Hlive.
  - exists r. split; [reflexivity|]. split; [reflexivity|]. split.
    + symmetry. apply filter_all. intros q _. apply not_elem_of_nil.
    + intros q. reflexivity.
  - apply NoDup_cons in Hnd as [Hp Hnd].
    destruct (Hlive p) as [shapeData Hsd]; [left|].
    cbn [reset_loop]. rewrite Hsd. cbn [mbind option_bind].
    set (r1 := mkRenderer _ _ _).
    destruct (IH r1 Hnd) as (r' & Hrun & Hcache & Hlist & Hheap).
    { intros q Hq. cbn [r1 heap]. rewrite lookup_delete_ne.
      - apply Hlive. now right.
      - intros ->. contradiction. }
    exists r'. split; [exact Hrun|]. split; [exact Hcache|]. split.
    + rewrite Hlist. cbn [r1 fShapeList]. unfold list_remove.
      rewrite list_filter_filter. apply filter_agree. intros q _.
      rewrite not_elem_of_cons. tauto.
    + intros q. rewrite Hheap. cbn [r1 heap].
      destruct (decide (q = p)) as [->|Hne].
      * rewrite lookup_delete_eq.
        rewrite (bool_decide_eq_true_2 (p ∈ p :: iter)) by left.
        now destruct (bool_decide (p ∈ iter)).
      * rewrite lookup_delete_ne by congruence.
        destruct (decide (q ∈ iter)) as [Hin|Hout].
        -- rewrite !bool_decide_eq_true_2; [reflexivity|now right|exact Hin].
        -- rewrite !bool_decide_eq_false_2; [reflexivity| |exact Hout].
           rewrite not_elem_of_cons. tauto.
Qed.

(** X15.  [reset] on structures that index each other: the loop ends,
    every listed record is deleted, once, and nothing else is; the
    list and the cache are left empty, the atlas pointer is null, and
    the context id is kept. *)
Theorem reset_frees_every_record (this : PathTestStruct) :
  consistent (structures this) = true ->
  exists this',
    reset this = Some this' /\
    fContextID this' = fContextID this /\ fAtlas this' = None /\
    fShapeList (structures this') = [] /\
    fShapeCache (structures this') = ∅ /\
    (forall p, heap (structures this') !! p
               = if bool_decide (p ∈ fShapeList (structures this)) then None
                 else heap (structures this) !! p) /\
    consistent (structures this') = true.
Proof.
  intros Hcons. apply consistent_spec in Hcons as (Hnd & Hlisted & _).
  destruct (reset_loop_spec (fShapeList (structures this)) (structures this) Hnd)
    as (r' & Hrun & _ & Hlist & Hheap).
  { intros p Hp. destruct (Hlisted p Hp) as (sd & -> & _). eauto. }
  assert (Hnil : fShapeList r' = []).
  { apply elem_of_nil_inv. intros q Hq. rewrite Hlist in Hq.
    apply list_elem_of_filter in Hq. tauto. }
  unfold reset. rewrite Hrun. cbn [mbind option_bind].
  eexists. split; [reflexivity|].
  cbn [fContextID fAtlas structures fShapeList fShapeCache heap].
  split; [reflexivity|]. split; [reflexivity|]. split; [exact Hnil|].
  split; [reflexivity|]. split; [exact Hheap|].
  apply consistent_spec. cbn [fShapeList fShapeCache heap]. rewrite Hnil.
  split; [constructor|]. split.
  - intros p Hp. now apply elem_of_nil in Hp.
  - intros key p Hkp. now rewrite lookup_empty in Hkp.
Qed.

End ResetFacts.

(** *** A combined op *)

Section CombinedFacts.
Import SmallPath.
Context `{Collaborators}.

Lemma prepareLoop_app (fuel : nat) (op : SmallPathOp)
    (entries entries' : list Entry) : forall w,
  prepareLoop fuel op (entries ++ entries') w
  = prepareLoop fuel op entries w ≫= prepareLoop fuel op entries'.
Proof.
  induction entries as [|args entries IH]; intros w; [reflexivity|].
  cbn [app prepareLoop].
  destruct (prepareEntry fuel op w args) as [w1|]; [|reflexivity].
  cbn [mbind option_bind]. apply IH.
Qed.

Lemma prepareLoop_ext (fuel : nat) (op op' : SmallPathOp)
    (entries : list Entry) : forall w,
  fUsesDistanceField op = fUsesDistanceField op' ->
  fViewMatrix op = fViewMatrix op' ->
  prepareLoop fuel op entries w = prepareLoop fuel op' entries w.
Proof.
  intros w Hmode Hmatrix. revert w.
  induction entries as [|args entries IH]; intros w; [reflexivity|].
  cbn [prepareLoop].
  assert (Hstep : prepareEntry fuel op w args = prepareEntry fuel op' w args).
  { unfold prepareEntry. now rewrite Hmode, Hmatrix. }
  rewrite Hstep. destruct (prepareEntry fuel op' w args); [|reflexivity].
  cbn [mbind option_bind]. apply IH.
Qed.

(** X16.  What a combined op prepares: the entries of [this], then
    those of [that], each turn exactly as [this] alone would take it.
    The entries that came from [that] are looked up and rendered under
    the mode and the stored matrix of [this]; the matrix of [that],
    which [cheapEqualTo] has compared, is not used again. *)
Theorem combined_op_prepares_in_sequence (this that merged : SmallPathOp)
    (caps : GrCaps) (fuel : nat) (w : World) :
  onCombineIfPossible this that caps = (true, merged) ->
  prepareLoop fuel merged (fShapes merged) w
  = prepareLoop fuel this (fShapes this) w
    ≫= prepareLoop fuel this (fShapes that).
Proof.
  intros Hcombine.
  assert (Happ := combine_appends this that caps). rewrite Hcombine in Happ.
  rewrite Happ, prepareLoop_app.
  assert (Hsame : fUsesDistanceField merged = fUsesDistanceField this /\
                  fViewMatrix merged = fViewMatrix this).
  { unfold onCombineIfPossible in Hcombine.
    repeat match type of Hcombine with
           | (if ?b then _ else _) = _ => destruct b
           end; try discriminate.
    injection Hcombine as <-. auto. }
  destruct Hsame as [Hmode Hmatrix].
  rewrite (prepareLoop_ext fuel merged this (fShapes this) w Hmode Hmatrix).
  destruct (prepareLoop fuel this (fShapes this) w) as [w1|]; [|reflexivity].
  cbn [mbind option_bind]. now apply prepareLoop_ext.
Qed.

End CombinedFacts.

Section PrepareExample.
Import SmallPath Reference.
#[local] Open Scope Q_scope.

Lemma drawn_shape_is_cached_witness :
  let op := SmallPathOp_new false 9%Z (square 3 2) (scaleTranslate 1 (5 # 2) 0) false in
  let w := emptyWorld [([], Some (5%Z, mkIPoint16 0 0))] in
  let args := fShapes0 op in
  exists w1 shapeData,
    prepareEntry 0 op w args = Some w1 /\
    vertices w1 =
      vertices w ++ writePathVertices (fColor args) (fTranslate args) shapeData /\
    prepareEntry 0 op w1 args = Some (drawShape w1 args shapeData).
Proof.
  intros op w args. subst args.
  set (run := prepareEntry 0 op w (fShapes0 op)).
  assert (Hlen : (fun w1 => length (vertices w1)) <$> run = Some 4%nat)
    by (vm_compute; reflexivity).
  destruct run as [w1|] eqn:Hrun; [|discriminate Hlen].
  destruct (drawn_shape_is_cached 0 op w w1 (fShapes0 op) Hrun)
    as [Hsame|(shapeData & Hquad & Hagain)].
  - exfalso. cbn [fmap option_fmap option_map] in Hlen.
    rewrite Hsame in Hlen. discriminate Hlen.
  - exists w1, shapeData. split; [reflexivity|]. split; [exact Hquad|].
    apply Hagain. reflexivity.
Defined.

Lemma prepared_meshes_tile_vertices_witness :
  let opA := SmallPathOp_new false 7%Z (square 2 1) (scaleTranslate 1 (5 # 2) 0) false in
  let opB := SmallPathOp_new false 9%Z (square 3 2) (scaleTranslate 1 (5 # 2) 0) false in
  let op := (onCombineIfPossible opA opB true).2 in
  let w := emptyWorld [([], Some (5%Z, mkIPoint16 0 0)); ([], None);
                       ([5%Z], Some (6%Z, mkIPoint16 0 0))] in
  exists w' meshes quads,
    onPrepareDraws 0 op (Some 0%Z) (Some 1200%Z) w = Some w' /\
    draws w' = draws w ++ meshes /\
    vertices w' = vertices w ++ quads /\
    tiled 0 meshes /\
    Z.of_nat (length quads) = (kVerticesPerQuad * instancesOf meshes)%Z /\
    length (draws w') = 2%nat.
Proof.
  intros opA opB op w.
  set (run := onPrepareDraws 0 op (Some 0%Z) (Some 1200%Z) w).
  assert (Hlen : (fun w' => length (draws w')) <$> run = Some 2%nat)
    by (vm_compute; reflexivity).
  destruct run as [w'|] eqn:Hrun; [|discriminate Hlen].
  destruct (prepared_meshes_tile_vertices 0 op 0 1200 w w' Hrun)
    as (meshes & quads & Hd & Hv & Ht & Hq & _).
  exists w', meshes, quads. cbn [fmap option_fmap option_map] in Hlen.
  repeat split; try assumption. congruence.
Defined.

Lemma reset_frees_every_record_witness :
  let this := mkPathTestStruct 1 (Some []) threeRecords in
  exists this',
    reset this = Some this' /\
    fShapeList (structures this') = [] /\
    fShapeCache (structures this') = ∅ /\
    heap (structures this') !! 2%positive = None.
Proof.
  intros this.
  destruct (reset_frees_every_record this)
    as (this' & Hrun & _ & _ & Hlist & Hcache & Hheap & _).
  - vm_compute. reflexivity.
  - exists this'. split; [exact Hrun|]. split; [exact Hlist|].
    split; [exact Hcache|]. rewrite Hheap. reflexivity.
Defined.

Lemma combined_op_prepares_in_sequence_witness :
  let opA := SmallPathOp_new false 7%Z (square 2 1) (scaleTranslate 1 (5 # 2) 0) false in
  let opB := SmallPathOp_new false 9%Z (square 3 2) (scaleTranslate 1 (1 # 2) 0) false in
  let w := emptyWorld [([], Some (5%Z, mkIPoint16 0 0))] in
  exists merged,
    onCombineIfPossible opA opB true = (true, merged) /\
    prepareLoop 0 merged (fShapes merged) w
    = prepareLoop 0 opA (fShapes opA) w ≫= prepareLoop 0 opA (fShapes opB).
Proof.
  intros opA opB w.
  assert (Hyes : (onCombineIfPossible opA opB true).1 = true)
    by (vm_compute; reflexivity).
  destruct (onCombineIfPossible opA opB true) as [combined merged] eqn:Hcombine.
  cbn [fst] in Hyes. subst combined.
  exists merged. split; [reflexivity|].
  now apply (combined_op_prepares_in_sequence opA opB merged true).
Defined.

End PrepareExample.

(** *** From [onCanDrawPath] to the resolution of the field *)

Section EligibleFacts.
Import SmallPath.
Context `{Collaborators}.
#[local] Open Scope Q_scope.

Lemma desiredDimension_total (getMaxScale maxDim : Q) :
  0 < maxDim -> 0 < SkScalarAbs getMaxScale ->
  exists fuel desired,
    forall fuel', (fuel <= fuel')%nat ->
      desiredDimension fuel' getMaxScale maxDim = Some desired.
Proof.
  intros Hd Hs.
  assert (HM := selectMipScale_ge _ Hs).
  assert (Habs : SkScalarAbs maxDim == maxDim)
    by (apply SkScalarAbs_of_pos; lra).
  assert (Hm : 0 < selectMipScale (SkScalarAbs getMaxScale) * SkScalarAbs maxDim)
    by nra.
  destruct (adjustMipSize_total _ Hm) as (fuel & r & Hr).
  exists fuel, (SkTMin r kMaxMIP). intros fuel' Hle.
  unfold desiredDimension.
  now rewrite (adjustMipSize_fuel fuel fuel' _ r Hr Hle).
Qed.

Lemma onCanDrawPath_sizes (args : CanDrawPathArgs) (scaleFactors0 scaleFactors1 : Q) :
  onCanDrawPath args = true ->
  getMinMaxScales (args_fViewMatrix args) = Some (scaleFactors0, scaleFactors1) ->
  let bounds := styledBounds (args_fShape args) in
  kMinSize <= SkMinScalar (width bounds) (height bounds) * SkScalarAbs scaleFactors0.
Proof.
  intros Hok Hscales. unfold onCanDrawPath in Hok. rewrite Hscales in Hok.
  repeat match type of Hok with
         | (if ?b then false else _) = true => destruct b; [discriminate|]
         end.
  cbv zeta in Hok. apply andb_prop in Hok as [Hok _].
  apply andb_prop in Hok as [_ Hmin]. now apply Qle_bool_iff in Hmin.
Qed.


End EligibleFacts.

Section EligibleExample.
Import SmallPath Reference.
#[local] Open Scope Q_scope.


End EligibleExample.

(** *** [onPrepareDraws] as a whole *)

Section WholeDrawFacts.
Import SmallPath.
Context `{Collaborators}.

Lemma prepareEntry_calls (fuel : nat) (op : SmallPathOp) (w : World)
    (args : Entry) :
  consistent (renderer w) = true ->
  (fUsesDistanceField op = true ->
   is_Some (desiredDimension fuel (getMaxScale (fViewMatrix op))
              (SkMaxScalar (width (bounds (fShape args)))
                           (height (bounds (fShape args)))))) ->
  exists w' calls,
    prepareEntry fuel op w args = Some w' /\
    consistent (renderer w') = true /\
    atlasCalls w' = atlasCalls w ++ calls /\ (length calls <= 2)%nat.
Proof.
  intros Hcons Hdim.
  destruct (prepareEntry_spec fuel op w args Hcons Hdim)
    as (w' & Hrun & Hcons' & Hcase).
  exists w'.
  destruct Hcase as [[Hcalls _]|(made & w2 & _ & Hcalls & Hout & _)].
  - exists []. rewrite app_nil_r. cbn [length]. repeat split; auto; lia.
  - destruct Hout as [(Hc & _)|[(wd & ht & Hc & _)|(wd & ht & Hc & _)]];
      rewrite Hcalls, Hc.
    + exists []. rewrite app_nil_r. cbn [length]. repeat split; auto; lia.
    + eexists. split; [exact Hrun|]. split; [exact Hcons'|].
      split; [reflexivity|]. cbn. lia.
    + eexists. split; [exact Hrun|]. split; [exact Hcons'|].
      split; [reflexivity|]. cbn. lia.
Qed.

Lemma prepareLoop_calls (fuel : nat) (op : SmallPathOp) (entries : list Entry) :
  forall w,
    consistent (renderer w) = true ->
    (fUsesDistanceField op = true ->
     Forall (fun args =>
               is_Some (desiredDimension fuel (getMaxScale (fViewMatrix op))
                          (SkMaxScalar (width (bounds (fShape args)))
                                       (height (bounds (fShape args))))))
            entries) ->
    exists w' calls,
      prepareLoop fuel op entries w = Some w' /\
      consistent (renderer w') = true /\
      atlasCalls w' = atlasCalls w ++ calls /\
      (length calls <= 2 * length entries)%nat.
Proof.
  induction entries as [|args entries IH]; intros w Hcons Hdim.
  - exists w, []. rewrite app_nil_r. cbn [length]. repeat split; auto; lia.
  - destruct (prepareEntry_calls fuel op w args Hcons)
      as (w1 & calls1 & Hrun & Hcons1 & Hcalls1 & Hlen1).
    { intros Hdf. apply Hdim in Hdf. now inversion Hdf. }
    destruct (IH w1 Hcons1) as (w' & calls & Hloop & Hcons' & Hcalls & Hlen).
    { intros Hdf. apply Hdim in Hdf. now inversion Hdf. }
    exists w', (calls1 ++ calls). cbn [prepareLoop]. rewrite Hrun.
    cbn [mbind option_bind]. split; [exact Hloop|]. split; [exact Hcons'|].
    split; [now rewrite Hcalls, Hcalls1, app_assoc|].
    rewrite length_app. cbn [length]. lia.
Qed.

(** X18.  [onPrepareDraws] on structures that index each other, given
    that the resolution of every entry of a field-mode op can be
    computed: it returns, whatever vertex space and index buffer it
    is given and whatever the atlas answers and evicts; the cache, the
    list and the allocation index each other again afterwards; and it
    has called [addToAtlas] at most twice for each entry. *)
Theorem onPrepareDraws_ends_consistent (fuel : nat) (op : SmallPathOp)
    (vertexSpace indexBuffer : option Z) (w : World) :
  consistent (renderer w) = true ->
  (fUsesDistanceField op = true ->
   Forall (fun args =>
             is_Some (desiredDimension fuel (getMaxScale (fViewMatrix op))
                        (SkMaxScalar (width (bounds (fShape args)))
                                     (height (bounds (fShape args))))))
          (fShapes op)) ->
  exists w' calls,
    onPrepareDraws fuel op vertexSpace indexBuffer w = Some w' /\
    consistent (renderer w') = true /\
    atlasCalls w' = atlasCalls w ++ calls /\
    (length calls <= 2 * length (fShapes op))%nat.
Proof.
  intros Hcons Hdim. unfold onPrepareDraws.
  assert (Hnone : exists w' calls,
            Some w = Some w' /\ consistent (renderer w') = true /\
            atlasCalls w' = atlasCalls w ++ calls /\
            (length calls <= 2 * length (fShapes op))%nat).
  { exists w, []. rewrite app_nil_r. cbn [length]. repeat split; auto. lia. }
  destruct (negb (fUsesDistanceField op) && usesLocalCoords (fHelper op) &&
            negb (bool_decide (is_Some (invert (fViewMatrix op)))));
    [exact Hnone|].
  destruct vertexSpace as [vertexOffset|]; [|exact Hnone].
  destruct indexBuffer as [indexBufferSize|]; [|exact Hnone].
  cbv zeta. set (w0 := mkWorld _ _ _ _ _ _).
  destruct (prepareLoop_calls fuel op (fShapes op) w0 Hcons Hdim)
    as (w1 & calls & Hloop & Hcons1 & Hcalls & Hlen).
  rewrite Hloop. cbn [mbind option_bind].
  destruct (flush_keeps w1) as (Hr & _ & _ & Hc & _).
  exists (flush w1), calls. rewrite Hr, Hc. auto.
Qed.

End WholeDrawFacts.

Section WholeDrawExample.
Import SmallPath Reference.
#[local] Open Scope Q_scope.

Lemma onPrepareDraws_ends_consistent_witness :
  let op := SmallPathOp_new false 9%Z (square 40 2) (scaleTranslate 8 0 0) false in
  let w := emptyWorld [([], None); ([], Some (5%Z, mkIPoint16 0 0))] in
  fUsesDistanceField op = true /\
  exists w' calls,
    onPrepareDraws 6 op (Some 0%Z) (Some 1200%Z) w = Some w' /\
    consistent (renderer w') = true /\
    atlasCalls w' = atlasCalls w ++ calls /\
    (length calls <= 2)%nat.
Proof.
  intros op w. split; [vm_compute; reflexivity|].
  apply (onPrepareDraws_ends_consistent 6 op (Some 0%Z) (Some 1200%Z) w).
  - vm_compute. reflexivity.
  - intros _. repeat constructor.
    apply (proj1 (bool_decide_spec _)). vm_compute. reflexivity.
Defined.

End WholeDrawExample.

(** *** Flush and retry *)

Section RetryProtocol.
Import SmallPath.
Context `{Collaborators}.

(** One call to the atlas, by the answer the atlas gives. *)
Lemma callAddToAtlas_answer (w : World) (width height : Z) (data : Pixels)
    atlas' evicted found :
  consistent (renderer w) = true ->
  addToAtlas (atlas w) (length (draws w)) width height data
  = (atlas', evicted, found) ->
  exists r',
    consistent r' = true /\
    (forall key, fShapeCache (renderer w) !! key = None ->
                 fShapeCache r' !! key = None) /\
    callAddToAtlas w width height data
    = Some (found,
            set_renderer_atlas w r' atlas'
              (atlasCalls w ++ [(width, height, bool_decide (is_Some found))])).
Proof.
  intros Hcons Hanswer.
  destruct (runEvictions_spec evicted (renderer w) Hcons)
    as (r' & Hrun & Hcons' & Hnone).
  exists r'. split; [exact Hcons'|]. split; [exact Hnone|].
  unfold callAddToAtlas. rewrite Hanswer, Hrun. reflexivity.
Qed.

(** A turn that inserts is the retry protocol followed by the draw of
    the record made, if one was made. *)
Lemma prepareEntry_inserting (fuel : nat) (op : SmallPathOp) (w : World)
    (args : Entry) (key : Key) found (width height : Z) (data : Pixels) :
  entryKey fuel op args = Some key ->
  findShapeData w key = Some found ->
  usable w found = None ->
  insertionRequest fuel op args = Some (width, height, data) ->
  exists record : AtlasID -> SkIPoint16 -> ShapeData,
    (forall id location,
       fKey (record id location) = key /\ fID (record id location) = id) /\
    prepareEntry fuel op w args
    = '(answer, w1) ← addToAtlasWithRetry (removeStale w found)
                         width height data;
      match answer with
      | None => Some w1
      | Some (id, location) =>
          Some (drawShape (registerShapeData w1 (record id location)) args
                  (record id location))
      end.
Proof.
  unfold entryKey, insertionRequest, prepareEntry.
  destruct (fUsesDistanceField op).
  - cbv zeta. set (maxDim := SkMaxScalar _ _).
    destruct (desiredDimension fuel _ maxDim) as [desired|]; [|discriminate].
    cbn [mbind option_bind]. intros [= <-] Hfind Husable Hrequest.
    rewrite Hfind. cbn [mbind option_bind]. rewrite Husable.
    unfold dfRequest in Hrequest. unfold addDFPathToAtlas, drawIfMade.
    cbv zeta in Hrequest |- *.
    destruct (GrGenerateDistanceFieldFromPath _ _ _ _) as [field|].
    + injection Hrequest as <- <- <-.
      eexists (fun id atlasLocation => mkShapeData _ id _ _).
      split; [intros id location; split; reflexivity|].
      destruct (addToAtlasWithRetry _ _ _ _) as [[[[id location]|] w1]|];
        reflexivity.
    + destruct (tryAlloc _ _); cbn [negb] in Hrequest |- *; [|discriminate].
      injection Hrequest as <- <- <-.
      eexists (fun id atlasLocation => mkShapeData _ id _ _).
      split; [intros id location; split; reflexivity|].
      destruct (addToAtlasWithRetry _ _ _ _) as [[[[id location]|] w1]|];
        reflexivity.
  - intros [= <-] Hfind Husable Hrequest.
    rewrite Hfind. cbn [mbind option_bind]. rewrite Husable.
    unfold bmRequest in Hrequest. unfold addBMPathToAtlas, drawIfMade.
    destruct (isEmpty _); [discriminate|]. cbv zeta in Hrequest |- *.
    destruct (tryAlloc _ _); cbn [negb] in Hrequest |- *; [|discriminate].
    injection Hrequest as <- <- <-.
    eexists (fun id atlasLocation => mkShapeData _ id _ _).
    split; [intros id location; split; reflexivity|].
    destruct (addToAtlasWithRetry _ _ _ _) as [[[[id location]|] w1]|];
      reflexivity.
Qed.

Lemma removeStale_atlas (w : World) found :
  atlas (removeStale w found) = atlas w.
Proof. destruct found as [[p shapeData]|]; reflexivity. Qed.


End RetryProtocol.

Section RetryProtocolExample.
Import SmallPath Reference.
#[local] Open Scope Q_scope.


End RetryProtocolExample.

(** ** The scalar arithmetic on binary32 *)

(** *** The rounded logarithm in the choice of [mipScale] *)

Section MipScaleRounding.
Import ColorSpace SmallPath32.
Context `{ScalarCollaborators}.

(** C6.  The code does not always arrive at a [mipScale] that is at
    least [maxScale].  At [maxScale] = 16 + 2^-19, the binary32 value
    next above 16, the logarithm to base 2 is 4 + 1.72e-7, which lies
    nearer to 4 than to the next binary32 value 4 + 2^-21, so the
    rounded logarithm is 4, its ceiling is 4 and [mipScale] is 16:
    below [maxScale], where the smallest power of two that is at least
    [maxScale] is 32.  The assertion of line 296 fails. *)
Theorem mipScale_below_maxScale :
  let maxScale := of_Z_exp (2 ^ 23 + 1) (-19) in
  SkScalarLog2 maxScale = SkIntToScalar 4 ->
  SkScalarPow (SkIntToScalar 2) (SkIntToScalar 4) = SkIntToScalar 16 ->
  (toQ maxScale == 16 + 1 / 2 ^ 19)%Q /\
  selectMipScale maxScale = SkIntToScalar 16 /\
  (toQ (selectMipScale maxScale) == 16)%Q /\
  flt (selectMipScale maxScale) maxScale = true /\
  mipScaleAssertion maxScale = false /\
  fle maxScale (SkIntToScalar 32) = true.
Proof.
  intros maxScale Hlog Hpow.
  assert (Hmip : selectMipScale maxScale = SkIntToScalar 16).
  { unfold selectMipScale.
    replace (fle maxScale SK_ScalarHalf) with false by (vm_compute; reflexivity).
    replace (flt SK_Scalar1 maxScale) with true by (vm_compute; reflexivity).
    cbv zeta. rewrite Hlog.
    replace (SkScalarCeilToScalar (SkIntToScalar 4)) with (SkIntToScalar 4)
      by (vm_compute; reflexivity).
    exact Hpow. }
  unfold mipScaleAssertion. rewrite Hmip.
  split; [vm_compute; reflexivity|]. split; [reflexivity|].
  split; [vm_compute; reflexivity|]. split; [vm_compute; reflexivity|].
  split; vm_compute; reflexivity.
Qed.

End MipScaleRounding.

Section MipScaleRoundingExample.
Import ColorSpace SmallPath32 Reference32.

Lemma mipScale_below_maxScale_witness :
  let maxScale := of_Z_exp (2 ^ 23 + 1) (-19) in
  selectMipScale maxScale = SkIntToScalar 16 /\
  mipScaleAssertion maxScale = false.
Proof.
  intros maxScale.
  destruct mipScale_below_maxScale as (_ & Hmip & _ & _ & Hassert & _).
  - vm_compute. reflexivity.
  - vm_compute. reflexivity.
  - exact (conj Hmip Hassert).
Defined.

End MipScaleRoundingExample.

(** *** The eligibility test *)

Section Eligibility32.
Import ColorSpace SmallPath32.
Context `{ScalarCollaborators}.


End Eligibility32.

Section Eligibility32Example.
Import ColorSpace SmallPath32 Reference32.



End Eligibility32Example.

(** *** The translation of a bitmap-mode op *)

Section Translation32.
Import ColorSpace SmallPath32.
Context `{ScalarCollaborators}.

(** C9, as the code has it.  A bitmap-mode op splits the floor of the
    translation off its view matrix and keeps it with the entry.  The
    matrix it stores carries what is left, the rounded difference of
    the translation and its floor, and the bitmap is rasterized with
    the [SkScalarFraction] of that: the sub-pixel position is in the
    cached bitmap.  At vertex placement the quad is the bounds of the
    record moved by the whole-pixel translation of the entry, and by
    nothing else. *)
Theorem bitmap_translation_split (color : SmallPath.GrColor)
    (shape : GrShape) (viewMatrix : SkMatrix) :
  let op := SmallPathOp_new color shape viewMatrix in
  fUsesDistanceField op = false ->
  let translate := fTranslate (fShapes0 op) in
  let translateX := getTranslateX viewMatrix in
  let translateY := getTranslateY viewMatrix in
  translate = mkVector (SkScalarFloorToScalar translateX)
                       (SkScalarFloorToScalar translateY) /\
  fViewMatrix op =
    setTranslateY
      (setTranslateX viewMatrix
         (fsub translateX (SkScalarFloorToScalar translateX)))
      (fsub translateY (SkScalarFloorToScalar translateY)) /\
  bitmapDrawMatrix (fViewMatrix op) =
    setTranslateY
      (setTranslateX viewMatrix
         (SkScalarFraction
            (fsub translateX (SkScalarFloorToScalar translateX))))
      (SkScalarFraction (fsub translateY (SkScalarFloorToScalar translateY))) /\
  (forall shapeData,
     position <$> writePathVertices color translate shapeData =
     let bounds := fBounds shapeData in
     let dx := SkScalarFloorToScalar translateX in
     let dy := SkScalarFloorToScalar translateY in
     [ (fadd (fLeft bounds) dx, fadd (fTop bounds) dy);
       (fadd (fLeft bounds) dx, fadd (fBottom bounds) dy);
       (fadd (fRight bounds) dx, fadd (fBottom bounds) dy);
       (fadd (fRight bounds) dx, fadd (fTop bounds) dy) ]).
Proof.
  intros op Hbm translate translateX translateY. subst translate op.
  unfold SmallPathOp_new in *.
  destruct (if SK_BUILD_FOR_ANDROID_only then true else _) eqn:Emode;
    cbn [negb fUsesDistanceField] in *; [discriminate|].
  cbn [fShapes0 fTranslate fViewMatrix fX fY].
  split; [reflexivity|]. split; [reflexivity|]. split; [reflexivity|].
  intros shapeData. reflexivity.
Qed.

End Translation32.

Section Translation32Example.
Import ColorSpace SmallPath32 Reference32.

Lemma bitmap_translation_split_witness :
  let viewMatrix := scaleTranslate one (lit 25 10) zero in
  let op := SmallPathOp_new 9%Z (square (SkIntToScalar 2)) viewMatrix in
  fUsesDistanceField op = false /\
  fTranslate (fShapes0 op) = mkVector (SkIntToScalar 2) zero /\
  getTranslateX (bitmapDrawMatrix (fViewMatrix op)) = SK_ScalarHalf.
Proof.
  intros viewMatrix op.
  assert (Hbm : fUsesDistanceField op = false) by (vm_compute; reflexivity).
  split; [exact Hbm|].
  destruct (bitmap_translation_split 9%Z (square (SkIntToScalar 2)) viewMatrix Hbm)
    as (Ht & _ & Hdraw & _).
  subst op. split.
  - rewrite Ht. vm_compute. reflexivity.
  - rewrite Hdraw. vm_compute. reflexivity.
Defined.

(** The difference is rounded: a translation of -2^-30 has the floor
    -1 and is stored as 1, and the bitmap is then rasterized without
    translation. *)
Example stored_translation_reaches_one :
  let viewMatrix := scaleTranslate one (of_Z_exp (-1) (-30)) zero in
  let op := SmallPathOp_new 9%Z (square (SkIntToScalar 2)) viewMatrix in
  fUsesDistanceField op = false /\
  fX (fTranslate (fShapes0 op)) = SkIntToScalar (-1) /\
  getTranslateX (fViewMatrix op) = SkIntToScalar 1 /\
  getTranslateX (bitmapDrawMatrix (fViewMatrix op)) = zero.
Proof. vm_compute. repeat split; reflexivity. Qed.

End Translation32Example.
